(** * NanoCache: a shallow embedding of nano-cache.js / nano-cache.ts

    The cache is a JavaScript class whose state is a [Map] from string keys
    to entry objects [{ v, e, t, a }].  The embedding below passes that
    state explicitly.

    Modelling conventions.
    - JavaScript numbers that hold timestamps, durations and counters are
      integers ([Z]).  Sums and differences of timestamps and durations are
      taken exactly, as doubles do below 2^53.  The eviction score
      [t * 1_000_000 - a] leaves that range at any real [Date.now()], so it
      is computed as the source computes it: each of the two operations is
      rounded to binary64, to nearest with ties to even ([binary64] below).
      Time values are bounded (8.64e15 ms), so the product stays far from
      the overflow threshold, which is not modelled.
    - [Date.now()] is an explicit argument [now] of every operation; all the
      reads of the clock inside one synchronous method call see one value.
    - A [Map] iterates in insertion order, and [Map.set] on a key that is
      already present keeps its position: the store is an association list
      with that discipline.
    - User callbacks (the [disposeValue] hook, event observers, loaders) are
      not run; each invocation is recorded in the cache's [trace] (or, for
      loaders, in [loads]).  Exceptions they raise are swallowed by the
      source's [try { } catch {}], so recording is all that is observable.
    - A promise created by [getOrSet] is an index into [flights]; its
      settlement is the separate step [settle], which runs the [then]/[catch]
      callbacks the source attached to the loader's promise. *)

From Stdlib Require Import ZArith List String Bool Lia PeanoNat Sorted.
Import ListNotations.
Open Scope string_scope.
Open Scope list_scope.
Open Scope Z_scope.

Module NanoCache.

(** ** Values *)

(** What a cache can hold: JavaScript values, [undefined] included, since
    [get] answers [undefined] for a miss and [getOrSet] tests
    [existing !== undefined]. *)
Inductive value : Type :=
| VUndefined
| VNull
| VBool (b : bool)
| VNum (n : Z)
| VStr (s : string).

Definition is_undefined (x : value) : bool :=
  match x with VUndefined => true | _ => false end.

(** ** Entries and options *)

(** [{ v, e, t, a }]: value, expiry timestamp (0 = never), touch timestamp,
    access count. *)
Record entry : Type := mkEntry { v : value; e : Z; t : Z; a : Z }.

Record options : Type := mkOptions {
  defaultTTL : Z;
  maxSize : Z;
  checkPeriod : Z;
  allowStale : bool;
  staleWhileRevalidate : Z;
  staleIfError : Z;
  useClone : bool;
  disposeValue : bool  (* [typeof opts.disposeValue === 'function'] *)
}.

Definition DEFAULTS : options :=
  {| defaultTTL := 0; maxSize := 0; checkPeriod := 10000;
     allowStale := false; staleWhileRevalidate := 0; staleIfError := 0;
     useClone := false; disposeValue := false |}.

(** ** Insertion-ordered maps with string keys *)

Section OrderedMap.
Context {A : Type}.

Fixpoint map_get (key : string) (m : list (string * A)) : option A :=
  match m with
  | [] => None
  | (k, x) :: rest => if String.eqb key k then Some x else map_get key rest
  end.

Definition map_has (key : string) (m : list (string * A)) : bool :=
  match map_get key m with Some _ => true | None => false end.

(** [Map.prototype.set]: overwrite in place, or append. *)
Fixpoint map_set (key : string) (x : A) (m : list (string * A))
  : list (string * A) :=
  match m with
  | [] => [(key, x)]
  | (k, y) :: rest =>
      if String.eqb key k then (k, x) :: rest
      else (k, y) :: map_set key x rest
  end.

Fixpoint map_delete (key : string) (m : list (string * A))
  : list (string * A) :=
  match m with
  | [] => []
  | (k, y) :: rest =>
      if String.eqb key k then rest else (k, y) :: map_delete key rest
  end.

Definition map_keys (m : list (string * A)) : list string := map fst m.
End OrderedMap.

(** ** Effects and promises *)

(** Calls made to user code by the store. *)
Inductive effect : Type :=
| Disposed (val : value) (key : string) (reason : string)
    (* [opts.disposeValue(entry.v, key, reason)] *)
| Notified (cb : nat) (event : string) (key : string) (val : value)
           (reason : string).
    (* [cb({ key, value, reason })] for a callback registered for [event] *)

Inductive settlement : Type :=
| Fulfilled (val : value)
| Rejected (err : string).

(** What the closure created in [getOrSet] captured. *)
Record flight : Type := mkFlight { fl_key : string; fl_ttl : Z }.

(** What the promise returned by [getOrSet] is bound to. *)
Inductive answer : Type :=
| Immediate (val : value)   (* [return existing] *)
| Awaits (p : nat).         (* [return pending] *)

(** The two source files. *)
Inductive impl : Type := JS | TS.

Record cache : Type := mkCache {
  opts : options;
  _map : list (string * entry);
  _timers : bool;                       (* is the interval armed? *)
  _events : list (string * list nat);   (* event name -> callbacks *)
  _pending : list (string * nat);       (* key -> in-flight promise *)
  flights : list flight;                (* promises created so far *)
  settled : list (nat * settlement);    (* promises that have settled *)
  loads : list nat;                     (* loaders invoked, in order *)
  trace : list effect                   (* calls into user code, in order *)
}.

Definition with_map (f : list (string * entry) -> list (string * entry))
  (c : cache) : cache :=
  {| opts := opts c; _map := f (_map c); _timers := _timers c;
     _events := _events c; _pending := _pending c; flights := flights c;
     settled := settled c; loads := loads c; trace := trace c |}.

Definition with_pending (f : list (string * nat) -> list (string * nat))
  (c : cache) : cache :=
  {| opts := opts c; _map := _map c; _timers := _timers c;
     _events := _events c; _pending := f (_pending c); flights := flights c;
     settled := settled c; loads := loads c; trace := trace c |}.

Definition with_events (f : list (string * list nat) -> list (string * list nat))
  (c : cache) : cache :=
  {| opts := opts c; _map := _map c; _timers := _timers c;
     _events := f (_events c); _pending := _pending c; flights := flights c;
     settled := settled c; loads := loads c; trace := trace c |}.

Definition with_timers (b : bool) (c : cache) : cache :=
  {| opts := opts c; _map := _map c; _timers := b;
     _events := _events c; _pending := _pending c; flights := flights c;
     settled := settled c; loads := loads c; trace := trace c |}.

Definition log (fx : list effect) (c : cache) : cache :=
  {| opts := opts c; _map := _map c; _timers := _timers c;
     _events := _events c; _pending := _pending c; flights := flights c;
     settled := settled c; loads := loads c; trace := trace c ++ fx |}.

Definition _startCleanupTimer (c : cache) : cache :=
  if _timers c then c else with_timers true c.

(** [new NanoCache(options)]: the options are already merged over
    [DEFAULTS]. *)
Definition create (o : options) : cache :=
  let c := {| opts := o; _map := []; _timers := false;
              _events := [("expire", []); ("evict", [])]; _pending := [];
              flights := []; settled := []; loads := []; trace := [] |} in
  if 0 <? checkPeriod (opts c) then _startCleanupTimer c else c.

Definition size (c : cache) : Z := Z.of_nat (List.length (_map c)).

(** ** Internal helpers *)

(** [_clone]: a deep copy is structurally equal to its argument, and values
    here are compared structurally. *)
Definition _clone (val : value) : value := val.

Definition _disposeEntry (key : string) (en : entry) (reason : string)
  (c : cache) : cache :=
  if disposeValue (opts c) then log [Disposed (v en) key reason] c else c.

(** [this._events.get(event) || []] *)
Definition listeners (event : string) (c : cache) : list nat :=
  match map_get event (_events c) with
  | Some l => l
  | None => []
  end.

Definition _emit (event key : string) (val : value) (reason : string)
  (c : cache) : cache :=
  let cbs := listeners event c in
  log (map (fun cb => Notified cb event key val reason) cbs) c.

Definition _touch (now : Z) (en : entry) : entry :=
  {| v := v en; e := e en; t := now; a := a en + 1 |}.

(** Rounding of an integer to binary64.  A double has 53 significant bits:
    an integer [x] with [2^(52+k) <= |x| < 2^(53+k)], [k > 0], is rounded to
    a multiple of [2^k], the nearest one, the one with the even quotient when
    [x] is half way. *)
Definition ulp_exp (x : Z) : Z := Z.max 0 (Z.log2 (Z.abs x) - 52).

Definition round_at (k x : Z) : Z :=
  let u := 2 ^ k in
  let q := x / u in
  let r := x mod u in
  if (u <? 2 * r) || ((2 * r =? u) && Z.odd q) then (q + 1) * u else q * u.

Definition binary64 (x : Z) : Z := round_at (ulp_exp x) x.

(** [e.t * 1_000_000 - e.a]: a product, then a difference, of doubles. *)
Definition score (en : entry) : Z :=
  binary64 (binary64 (t en * 1000000) - a en).

Arguments round_at : simpl never.
Arguments binary64 : simpl never.
Arguments score : simpl never.

(** The loop of [_evictLRU]; [oldestTime = None] stands for [Infinity]. *)
Fixpoint scan (m : list (string * entry)) (oldestKey : option string)
  (oldestTime : option Z) : option string :=
  match m with
  | [] => oldestKey
  | (k, en) :: rest =>
      let lower := match oldestTime with
                   | None => true
                   | Some o => score en <? o
                   end in
      if lower then scan rest (Some k) (Some (score en))
      else scan rest oldestKey oldestTime
  end.

Definition _evictLRU (c : cache) : cache :=
  match scan (_map c) None None with
  | Some oldestKey =>
      match map_get oldestKey (_map c) with
      | Some en =>
          let c1 := _disposeEntry oldestKey en "lru" c in
          let c2 := with_map (map_delete oldestKey) c1 in
          _emit "evict" oldestKey (v en) "lru" c2
      | None => c
      end
  | None => c
  end.

(** [entry.e !== 0 && entry.e < now] *)
Definition expired (now : Z) (en : entry) : bool :=
  negb (e en =? 0) && (e en <? now).

(** ** Core API *)

Definition set (key : string) (val : value) (ttl : option Z) (now : Z)
  (c : cache) : cache :=
  let ttl := match ttl with Some x => x | None => defaultTTL (opts c) end in
  let exp := if 0 <? ttl then now + ttl else 0 in
  let cloned := if useClone (opts c) then _clone val else val in
  let entry := {| v := cloned; e := exp; t := now; a := 0 |} in
  if map_has key (_map c) then with_map (map_set key entry) c
  else
    let c1 := with_map (map_set key entry) c in
    if (0 <? maxSize (opts c1)) && (maxSize (opts c1) <? size c1)
    then _evictLRU c1 else c1.

Definition get (key : string) (touch : bool) (now : Z) (c : cache)
  : value * cache :=
  match map_get key (_map c) with
  | None => (VUndefined, c)
  | Some en =>
      let hit := (v en,
                  if touch then with_map (map_set key (_touch now en)) c
                  else c) in
      if expired now en then
        if allowStale (opts c) then hit
        else if (0 <? staleWhileRevalidate (opts c))
                && (now - e en <? staleWhileRevalidate (opts c))
        then hit
        else (VUndefined, c)
      else hit
  end.

Definition peek (key : string) (now : Z) (c : cache) : value * cache :=
  get key false now c.

(** [has] differs between the two files in its last line. *)
Definition has (i : impl) (key : string) (now : Z) (c : cache) : bool :=
  match map_get key (_map c) with
  | None => false
  | Some en =>
      if (e en =? 0) || (now <=? e en) then true
      else match i with
           | JS => negb (allowStale (opts c))
           | TS => allowStale (opts c)
           end
  end.

Definition del (key : string) (c : cache) : cache :=
  match map_get key (_map c) with
  | Some en => with_map (map_delete key) (_disposeEntry key en "delete" c)
  | None => c
  end.

Definition clear (c : cache) : cache :=
  with_map (fun _ => [])
    (fold_left (fun acc ke => _disposeEntry (fst ke) (snd ke) "clear" acc)
       (_map c) c).

(** ** TTL management *)

Inductive ttl_result : Type :=
| TtlNull                 (* [null] *)
| TtlThis                 (* [this], after an update *)
| TtlInfinity             (* [Infinity] *)
| TtlRemaining (ms : Z).

Definition ttl (key : string) (newTTL : option Z) (now : Z) (c : cache)
  : ttl_result * cache :=
  match map_get key (_map c) with
  | None => (TtlNull, c)
  | Some en =>
      match newTTL with
      | Some n =>
          let exp := if 0 <? n then now + n else 0 in
          (TtlThis,
           with_map (map_set key {| v := v en; e := exp; t := t en;
                                    a := a en |}) c)
      | None =>
          if e en =? 0 then (TtlInfinity, c)
          else
            let remaining := e en - now in
            (TtlRemaining (if 0 <? remaining then remaining else 0), c)
      end
  end.

(** ** Events *)

Definition on (event : string) (callback : nat) (c : cache) : cache :=
  match map_get event (_events c) with
  | None => c
  | Some cbs => with_events (map_set event (cbs ++ [callback])) c
  end.

(** [cbs.splice(cbs.indexOf(callback), 1)]: drop the first occurrence. *)
Fixpoint splice_first (callback : nat) (cbs : list nat) : list nat :=
  match cbs with
  | [] => []
  | cb :: rest =>
      if Nat.eqb cb callback then rest else cb :: splice_first callback rest
  end.

Definition off (event : string) (callback : nat) (c : cache) : cache :=
  match map_get event (_events c) with
  | None => c
  | Some cbs => with_events (map_set event (splice_first callback cbs)) c
  end.

(** ** Cleanup and disposal *)

(** The loop of [_cleanup] over the entries of the store; [limit = None]
    stands for the default [Infinity].  Deleting the entry under the cursor
    does not disturb the iteration of a [Map]. *)
Fixpoint sweep (now : Z) (limit : option nat) (todo : list (string * entry))
  (cleaned : nat) (c : cache) : nat * cache :=
  match todo with
  | [] => (cleaned, c)
  | (key, en) :: rest =>
      if expired now en then
        let c1 := _disposeEntry key en "expire" c in
        let c2 := with_map (map_delete key) c1 in
        let c3 := _emit "expire" key (v en) "ttl" c2 in
        let cleaned' := S cleaned in
        let stop := match limit with
                    | Some l => (l <=? cleaned')%nat
                    | None => false
                    end in
        if stop then (cleaned', c3) else sweep now limit rest cleaned' c3
      else sweep now limit rest cleaned c
  end.

Definition _cleanup (limit : option nat) (now : Z) (c : cache)
  : nat * cache :=
  sweep now limit (_map c) 0%nat c.

(** The interval callback installed by [_startCleanupTimer]. *)
Definition tick (now : Z) (c : cache) : cache :=
  let '(cleaned, c1) := _cleanup None now c in
  if (cleaned =? 0)%nat && (size c1 =? 0) then with_timers false c1 else c1.

Definition dispose (c : cache) : cache :=
  let c1 := with_timers false c in
  let c2 := clear c1 in
  let c3 := with_events (fun _ => []) c2 in
  with_pending (fun _ => []) c3.

(** ** Async helpers *)

Definition add_flight (key : string) (loader : nat) (ttl : Z) (c : cache)
  : cache :=
  {| opts := opts c; _map := _map c; _timers := _timers c;
     _events := _events c;
     _pending := map_set key (List.length (flights c)) (_pending c);
     flights := flights c ++ [{| fl_key := key; fl_ttl := ttl |}];
     settled := settled c; loads := loads c ++ [loader];
     trace := trace c |}.

(** The synchronous body of [getOrSet]: it has no [await], so each call runs
    to its [return] before any other code does.  [loader] names the function
    the caller passed; calling it is recorded in [loads]. *)
Definition getOrSet (key : string) (loader : nat) (ttl : option Z) (now : Z)
  (c : cache) : answer * cache :=
  let ttl := match ttl with Some x => x | None => defaultTTL (opts c) end in
  let '(existing, c1) := get key true now c in
  if negb (is_undefined existing) then (Immediate existing, c1)
  else
    match map_get key (_pending c1) with
    | Some pending => (Awaits pending, c1)
    | None => (Awaits (List.length (flights c1)), add_flight key loader ttl c1)
    end.

Fixpoint nat_get {A : Type} (p : nat) (m : list (nat * A)) : option A :=
  match m with
  | [] => None
  | (q, x) :: rest => if Nat.eqb p q then Some x else nat_get p rest
  end.

Definition settle_with (p : nat) (r : settlement) (c : cache) : cache :=
  {| opts := opts c; _map := _map c; _timers := _timers c;
     _events := _events c; _pending := _pending c; flights := flights c;
     settled := settled c ++ [(p, r)]; loads := loads c; trace := trace c |}.

(** The fulfilment callback, the same in both files. *)
Definition on_fulfilled (fl : flight) (val : value) (now : Z) (c : cache)
  : settlement * cache :=
  let c1 := set (fl_key fl) val (Some (fl_ttl fl)) now c in
  (Fulfilled val, with_pending (map_delete (fl_key fl)) c1).

(** The rejection callback.  nano-cache.js looks the old value up through
    [peek]; nano-cache.ts reads the store directly. *)
Definition on_rejected (i : impl) (fl : flight) (err : string) (now : Z)
  (c : cache) : settlement * cache :=
  let key := fl_key fl in
  let c1 := with_pending (map_delete key) c in
  if 0 <? staleIfError (opts c1) then
    match i with
    | JS =>
        let '(old, c2) := peek key now c1 in
        let exp := match map_get key (_map c2) with
                   | Some en => if e en =? 0 then 0 else e en   (* [e || 0] *)
                   | None => 0
                   end in
        if negb (is_undefined old) && (now - exp <? staleIfError (opts c2))
        then (Fulfilled old, c2) else (Rejected err, c2)
    | TS =>
        match map_get key (_map c1) with
        | Some oldEntry =>
            if negb (is_undefined (v oldEntry))
               && (now - e oldEntry <? staleIfError (opts c1))
            then (Fulfilled (v oldEntry), c1) else (Rejected err, c1)
        | None => (Rejected err, c1)
        end
    end
  else (Rejected err, c1).

(** The loader's promise settles with [outcome]; the callbacks attached in
    [getOrSet] run and settle [pending].  A promise settles once. *)
Definition settle (i : impl) (p : nat) (outcome : settlement) (now : Z)
  (c : cache) : cache :=
  match nth_error (flights c) p, nat_get p (settled c) with
  | Some fl, None =>
      let '(r, c1) := match outcome with
                      | Fulfilled val => on_fulfilled fl val now c
                      | Rejected err => on_rejected i fl err now c
                      end in
      settle_with p r c1
  | _, _ => c
  end.

(** [wrap(key, loader, ttl)]: a thunk that performs [getOrSet] each time it
    is called; nothing is loaded when the thunk is made. *)
Definition wrap (key : string) (loader : nat) (ttl : option Z)
  : Z -> cache -> answer * cache :=
  fun now c => getOrSet key loader ttl now c.

(** What a caller that awaits the promise returned by [getOrSet] sees. *)
Definition resolution (c : cache) (ans : answer) : option settlement :=
  match ans with
  | Immediate val => Some (Fulfilled val)
  | Awaits p => nat_get p (settled c)
  end.

(** A call of [getOrSet]: who loads, with which ttl, when. *)
Record call : Type := mkCall { c_loader : nat; c_ttl : option Z; c_now : Z }.

(** Several callers ask for one key, one after the other, before the
    loader's promise settles. *)
Fixpoint run_calls (key : string) (calls : list call) (c : cache)
  : list answer * cache :=
  match calls with
  | [] => ([], c)
  | cl :: rest =>
      let '(ans, c1) := getOrSet key (c_loader cl) (c_ttl cl) (c_now cl) c in
      let '(answers, c2) := run_calls key rest c1 in
      (ans :: answers, c2)
  end.

(** ** The operations a caller, the timer or the event loop can perform *)

Inductive op : Type :=
| OpSet (key : string) (val : value) (ttl : option Z)
| OpGet (key : string) (touch : bool)
| OpPeek (key : string)
| OpHas (key : string)
| OpDel (key : string)
| OpClear
| OpTtl (key : string) (newTTL : option Z)
| OpGetOrSet (key : string) (loader : nat) (ttl : option Z)
| OpSettle (p : nat) (outcome : settlement)
| OpOn (event : string) (callback : nat)
| OpOff (event : string) (callback : nat)
| OpCleanup (limit : option nat)
| OpTick
| OpDispose.

Definition step (i : impl) (o : op) (now : Z) (c : cache) : cache :=
  match o with
  | OpSet key val ttl => set key val ttl now c
  | OpGet key touch => snd (get key touch now c)
  | OpPeek key => snd (peek key now c)
  | OpHas _ => c
  | OpDel key => del key c
  | OpClear => clear c
  | OpTtl key newTTL => snd (ttl key newTTL now c)
  | OpGetOrSet key loader ttl => snd (getOrSet key loader ttl now c)
  | OpSettle p outcome => settle i p outcome now c
  | OpOn event callback => on event callback c
  | OpOff event callback => off event callback c
  | OpCleanup limit => snd (_cleanup limit now c)
  | OpTick => tick now c
  | OpDispose => dispose c
  end.

(** A write is an operation that may call [set]. *)
Definition is_write (o : op) : bool :=
  match o with
  | OpSet _ _ _ | OpSettle _ _ => true
  | _ => false
  end.

(** ** Histories *)

(** A history: operations with the times at which they run. *)
Definition run (i : impl) (history : list (op * Z)) (c : cache) : cache :=
  fold_left (fun acc oz => step i (fst oz) (snd oz) acc) history c.

(** A read: key, [touch] flag, time. *)
Record read : Type := mkRead { r_key : string; r_touch : bool; r_now : Z }.

Definition run_reads (reads : list read) (c : cache) : cache :=
  fold_left (fun acc r => snd (get (r_key r) (r_touch r) (r_now r) acc))
    reads c.

(** Reads, sweeps and observer registrations: the operations that neither
    write nor delete on a caller's behalf. *)
Definition is_passive (o : op) : bool :=
  match o with
  | OpGet _ _ | OpPeek _ | OpHas _ | OpOn _ _ | OpOff _ _
  | OpCleanup _ | OpTick => true
  | _ => false
  end.

(** ** The expiration policy, in the words of the specification *)

Inductive status : Type := Alive | StaleServable | Dead.

(** Alive: never expires, or the expiry is not past.  Stale-servable: the
    expiry is past and stale values are allowed, or the time since the expiry
    is within the stale-while-revalidate window.  Dead: otherwise. *)
Definition classify (o : options) (now : Z) (en : entry) : status :=
  if (e en =? 0) || (now <=? e en) then Alive
  else if allowStale o
          || ((0 <? staleWhileRevalidate o)
              && (now - e en <? staleWhileRevalidate o))
       then StaleServable
       else Dead.

(** ** Vocabulary of the statements *)

(** The default parameter [ttl = this.opts.defaultTTL]. *)
Definition effective_ttl (o : options) (ttl0 : option Z) : Z :=
  match ttl0 with Some x => x | None => defaultTTL o end.

(** The entry object built by [set]. *)
Definition fresh_entry (o : options) (val : value) (ttl0 : option Z) (now : Z)
  : entry :=
  let n := effective_ttl o ttl0 in
  {| v := val; e := (if 0 <? n then now + n else 0); t := now; a := 0 |}.

(** What the expiration policy looks at: the value and the expiry. *)
Definition payload (key : string) (c : cache) : option (value * Z) :=
  option_map (fun en => (v en, e en)) (map_get key (_map c)).

(** [get] has nothing to serve for [key] at time [now]: no entry, an entry
    holding [undefined], or a dead one. *)
Definition unservable (key : string) (now : Z) (c : cache) : Prop :=
  match payload key c with
  | None => True
  | Some (val, exp) =>
      val = VUndefined
      \/ classify (opts c) now {| v := val; e := exp; t := 0; a := 0 |} = Dead
  end.

(** [c1] differs from [c] at most in touches: same options, promises and
    loads, and the same value and expiry under every key. *)
Definition same_but_touches (c c1 : cache) : Prop :=
  opts c1 = opts c /\ _pending c1 = _pending c /\ flights c1 = flights c
  /\ settled c1 = settled c /\ loads c1 = loads c
  /\ forall k, payload k c1 = payload k c.

(** The entries a sweep removes, in order: the expired ones it meets before
    it reaches its limit. *)
Fixpoint reaped (now : Z) (limit : option nat) (todo : list (string * entry))
  (cleaned : nat) : list (string * entry) :=
  match todo with
  | [] => []
  | (key, en) :: rest =>
      if expired now en then
        let stop := match limit with
                    | Some l => (l <=? S cleaned)%nat
                    | None => false
                    end in
        if stop then [(key, en)]
        else (key, en) :: reaped now limit rest (S cleaned)
      else reaped now limit rest cleaned
  end.

(** The calls into user code that the removal of one expired entry makes. *)
Definition expiry_effects (c : cache) (ke : string * entry) : list effect :=
  (if disposeValue (opts c)
   then [Disposed (v (snd ke)) (fst ke) "expire"] else [])
  ++ map (fun cb => Notified cb "expire" (fst ke) (v (snd ke)) "ttl")
       (listeners "expire" c).

Definition delete_all (r : list (string * entry)) (m : list (string * entry))
  : list (string * entry) :=
  fold_left (fun acc ke => map_delete (fst ke) acc) r m.

(** ** Well-formed caches *)

(** A [Map] holds a key once. *)
Definition store_ok (c : cache) : Prop := NoDup (map_keys (_map c)).

(** No entry was touched after [now], and counters count up from 0: what a
    clock that does not run backwards gives. *)
Definition clock_ok (now : Z) (c : cache) : Prop :=
  Forall (fun ke => t (snd ke) <= now /\ 0 <= a (snd ke)) (_map c).

(** Each in-flight marker names a key once, and only promises that exist
    have settled. *)
Definition promises_ok (c : cache) : Prop :=
  NoDup (map_keys (_pending c))
  /\ Forall (fun pr => (fst pr < List.length (flights c))%nat) (settled c).

(** ** Concrete caches used in the examples below *)

Definition opts_lru3 : options :=
  {| defaultTTL := 0; maxSize := 3; checkPeriod := 10000;
     allowStale := false; staleWhileRevalidate := 0; staleIfError := 0;
     useClone := false; disposeValue := false |}.

(** Test 3 of the repository: [a], [b], [c] written, [a] and [c] read, [d]
    written. *)
Definition c_lru : cache :=
  let c1 := set "a" (VNum 1) None 1000 (create opts_lru3) in
  let c2 := set "b" (VNum 2) None 1005 c1 in
  let c3 := set "c" (VNum 3) None 1010 c2 in
  let c4 := snd (get "a" true 1015 c3) in
  let c5 := snd (get "c" true 1020 c4) in
  set "d" (VNum 4) None 1025 c5.

(** A default cache holding ["k"], written at time 50 with ttl 50. *)
Definition c_k100 : cache := set "k" (VStr "old") (Some 50) 50 (create DEFAULTS).

(** ["k"] written without expiry at time 5 and read three times. *)
Definition c_read3 : cache :=
  let c1 := set "k" (VNum 1) None 5 (create DEFAULTS) in
  let c2 := snd (get "k" true 6 c1) in
  let c3 := snd (get "k" true 7 c2) in
  snd (get "k" true 8 c3).

(** Test 4 of the repository: [staleWhileRevalidate: 200], ttl 50. *)
Definition opts_swr200 : options :=
  {| defaultTTL := 0; maxSize := 0; checkPeriod := 10000;
     allowStale := false; staleWhileRevalidate := 200; staleIfError := 0;
     useClone := false; disposeValue := false |}.

Definition c_swr : cache :=
  set "stale-key" (VStr "stale-value") (Some 50) 0 (create opts_swr200).

(** A value of [Date.now()] in November 2023. *)
Definition T0 : Z := 1700000000000.

Definition opts_cap2 : options :=
  {| defaultTTL := 0; maxSize := 2; checkPeriod := 10000;
     allowStale := false; staleWhileRevalidate := 0; staleIfError := 0;
     useClone := false; disposeValue := false |}.

Definition read_times (n : nat) (key : string) (now : Z) (c : cache) : cache :=
  Nat.iter n (fun acc => snd (get key true now acc)) c.

(** Two entries written in the same millisecond, ["hot"] first; ["hot"] is
    then read three times and ["cold"] once, in that millisecond. *)
Definition c_hot_first : cache :=
  let c1 := set "hot" (VNum 1) None T0 (create opts_cap2) in
  let c2 := set "cold" (VNum 2) None T0 c1 in
  read_times 1 "cold" T0 (read_times 3 "hot" T0 c2).

(** The same with ["cold"] written first. *)
Definition c_cold_first : cache :=
  let c1 := set "cold" (VNum 2) None T0 (create opts_cap2) in
  let c2 := set "hot" (VNum 1) None T0 c1 in
  read_times 1 "cold" T0 (read_times 3 "hot" T0 c2).

(** ["cold"] written first and never read, ["hot"] read 200 times. *)
Definition c_hot200 : cache :=
  let c1 := set "cold" (VNum 2) None T0 (create opts_cap2) in
  let c2 := set "hot" (VNum 1) None T0 c1 in
  read_times 200 "hot" T0 c2.



(** An expiring entry, a disposal hook and two observers of [expire]. *)
Definition c_reap : cache :=
  let o := {| defaultTTL := 0; maxSize := 0; checkPeriod := 50;
              allowStale := false; staleWhileRevalidate := 0;
              staleIfError := 0; useClone := false; disposeValue := true |} in
  let c1 := on "expire" 7%nat (on "expire" 4%nat (create o)) in
  let c2 := set "keep" (VNum 1) None 0 c1 in
  set "expiring" (VStr "value") (Some 50) 0 c2.

(** Stale-if-error configured, ["k"] expiring at 100. *)
Definition opts_sie : options :=
  {| defaultTTL := 0; maxSize := 0; checkPeriod := 0;
     allowStale := false; staleWhileRevalidate := 0; staleIfError := 1000;
     useClone := false; disposeValue := false |}.

Definition c_sie : cache := set "k" (VStr "old") (Some 50) 50 (create opts_sie).

(** Test 5 of the repository: three callers, one key, nothing cached. *)
Definition calls3 : list call :=
  [{| c_loader := 1%nat; c_ttl := None; c_now := 10 |};
   {| c_loader := 2%nat; c_ttl := None; c_now := 10 |};
   {| c_loader := 3%nat; c_ttl := None; c_now := 11 |}].

(** ** Batch operations *)

(** [keys.map(k => this.get(k))]: the reads run left to right, each one
    touching. *)
Fixpoint mget (keys : list string) (now : Z) (c : cache)
  : list value * cache :=
  match keys with
  | [] => ([], c)
  | k :: rest =>
      let '(x, c1) := get k true now c in
      let '(xs, c2) := mget rest now c1 in
      (x :: xs, c2)
  end.

(** [for (const [k, v] of Object.entries(mapOrEntries)) this.set(k, v, ttl)];
    the argument is the list [Object.entries] yields. *)
Definition mset (entries : list (string * value)) (ttl : option Z) (now : Z)
  (c : cache) : cache :=
  fold_left (fun acc kv => set (fst kv) (snd kv) ttl now acc) entries c.

(** [keys.forEach(k => this.del(k))] *)
Definition mdel (keys : list string) (c : cache) : cache :=
  fold_left (fun acc k => del k acc) keys c.

(** ** Introspection *)

(** The iterators, as the lists they yield when consumed at once. *)
Definition keys (c : cache) : list string := map fst (_map c).

Definition values (c : cache) : list value :=
  map (fun ke => v (snd ke)) (_map c).

Definition entries (c : cache) : list (string * value) :=
  map (fun ke => (fst ke, v (snd ke))) (_map c).

(** [_roughSizeOf] on the values of this model (which has neither arrays nor
    objects): 0 for [null] and [undefined], two bytes per character of a
    string, 8 for a number or a boolean. *)
Definition _roughSizeOf (val : value) : Z :=
  match val with
  | VUndefined | VNull => 0
  | VStr s => Z.of_nat (String.length s) * 2
  | VNum _ | VBool _ => 8
  end.

Record stats_result : Type := mkStats {
  st_size : Z;
  st_expired : Z;
  st_estimatedBytes : Z
}.

(** The loop of [stats]: count the expired entries and add up the sizes. *)
Definition stats (now : Z) (c : cache) : stats_result :=
  let '(expiredCount, totalSize) :=
    fold_left (fun acc ke =>
                 ((if expired now (snd ke) then fst acc + 1 else fst acc),
                  snd acc + _roughSizeOf (v (snd ke))))
      (_map c) (0, 0) in
  {| st_size := size c; st_expired := expiredCount;
     st_estimatedBytes := totalSize |}.

(** ** More concrete caches *)

(** Three keys in an unbounded cache with a disposal hook and an observer of
    [evict]; ["b"] expires at 30. *)
Definition opts_hook : options :=
  {| defaultTTL := 0; maxSize := 0; checkPeriod := 10000;
     allowStale := false; staleWhileRevalidate := 0; staleIfError := 0;
     useClone := false; disposeValue := true |}.

Definition c_abc : cache :=
  let c0 := on "evict" 5%nat (create opts_hook) in
  let c1 := set "a" (VNum 1) None 10 c0 in
  let c2 := set "b" (VStr "two") (Some 20) 10 c1 in
  set "c" (VBool true) None 12 c2.

(** A flight for ["q"] started at time 20 in [c_abc]. *)
Definition c_flight : cache := snd (getOrSet "q" 1 (Some 100) 20 c_abc).

(** ** Lemmas on insertion-ordered maps *)

Section OrderedMapFacts.
Context {A : Type}.
Implicit Types (m : list (string * A)) (k key : string) (x y : A).

Lemma map_get_set_same key x m : map_get key (map_set key x m) = Some x.
Proof.
  induction m as [|[k y] rest IH]; simpl.
  - now rewrite String.eqb_refl.
  - destruct (String.eqb key k) eqn:E; simpl; rewrite E; auto.
Qed.

Lemma map_get_set_other key k x m :
  key <> k -> map_get k (map_set key x m) = map_get k m.
Proof.
  intros Hne. induction m as [|[k' y] rest IH]; simpl.
  - destruct (String.eqb_spec k key); congruence.
  - destruct (String.eqb_spec key k'); simpl.
    + subst k'. destruct (String.eqb_spec k key); congruence.
    + now rewrite IH.
Qed.

Lemma map_set_present key x y m :
  map_get key m = Some y ->
  map_keys (map_set key x m) = map_keys m
  /\ List.length (map_set key x m) = List.length m.
Proof.
  induction m as [|[k z] rest IH]; simpl; [discriminate|].
  destruct (String.eqb key k) eqn:E; simpl; intros H.
  - auto.
  - destruct (IH H) as [-> ->]. auto.
Qed.

Lemma map_set_absent key x m :
  map_get key m = None -> map_set key x m = m ++ [(key, x)].
Proof.
  induction m as [|[k z] rest IH]; simpl; [reflexivity|].
  destruct (String.eqb key k) eqn:E; [discriminate|].
  intros H. now rewrite IH.
Qed.

Lemma map_get_in key x m : map_get key m = Some x -> In (key, x) m.
Proof.
  induction m as [|[k z] rest IH]; simpl; [discriminate|].
  destruct (String.eqb_spec key k).
  - intros [= ->]. subst. now left.
  - intros H. right. now apply IH.
Qed.

Lemma map_get_none_notin key m :
  map_get key m = None -> ~ In key (map_keys m).
Proof.
  induction m as [|[k z] rest IH]; simpl; [tauto|].
  destruct (String.eqb_spec key k); [discriminate|].
  intros H [Hk|Hin]; [congruence|]. now apply IH.
Qed.

Lemma map_get_some_in_keys key x m :
  map_get key m = Some x -> In key (map_keys m).
Proof.
  intros H. apply map_get_in in H.
  unfold map_keys. change key with (fst (key, x)). now apply in_map.
Qed.

Lemma in_keys_map_get key m :
  In key (map_keys m) -> exists x, map_get key m = Some x.
Proof.
  induction m as [|[k z] rest IH]; simpl; [tauto|].
  destruct (String.eqb_spec key k); [eauto|].
  intros [Hk|Hin]; [congruence|]. now apply IH.
Qed.

Lemma in_nodup_map_get key x m :
  NoDup (map_keys m) -> In (key, x) m -> map_get key m = Some x.
Proof.
  induction m as [|[k z] rest IH]; simpl; [tauto|].
  intros Hnd [Heq|Hin].
  - inversion Heq; subst. now rewrite String.eqb_refl.
  - inversion Hnd as [|? ? Hk Hrest]; subst.
    destruct (String.eqb_spec key k) as [->|Hne].
    + exfalso. apply Hk. unfold map_keys.
      change k with (fst (k, x)). now apply in_map.
    + now apply IH.
Qed.

Lemma map_get_delete_other key k m :
  key <> k -> map_get k (map_delete key m) = map_get k m.
Proof.
  intros Hne. induction m as [|[k' y] rest IH]; simpl; [reflexivity|].
  destruct (String.eqb_spec key k'); simpl.
  - subst k'. destruct (String.eqb_spec k key); congruence.
  - now rewrite IH.
Qed.

Lemma map_delete_incl key m : incl (map_delete key m) m.
Proof.
  induction m as [|[k y] rest IH]; simpl; [apply incl_refl|].
  destruct (String.eqb key k).
  - apply incl_tl, incl_refl.
  - intros z [Hz|Hz]; [now left|right; now apply IH].
Qed.

Lemma map_delete_keys_incl key m :
  incl (map_keys (map_delete key m)) (map_keys m).
Proof.
  unfold map_keys. intros z Hz. apply in_map_iff in Hz.
  destruct Hz as [ke [<- Hin]]. apply in_map. now apply map_delete_incl in Hin.
Qed.

Lemma map_delete_nodup key m :
  NoDup (map_keys m) -> NoDup (map_keys (map_delete key m)).
Proof.
  induction m as [|[k y] rest IH]; simpl; [auto|].
  intros Hnd. inversion Hnd as [|? ? Hk Hrest]; subst.
  destruct (String.eqb key k); [assumption|].
  simpl. constructor; [|now apply IH].
  intros Hin. apply Hk. now apply map_delete_keys_incl in Hin.
Qed.

Lemma map_get_delete_same key m :
  NoDup (map_keys m) -> map_get key (map_delete key m) = None.
Proof.
  induction m as [|[k y] rest IH]; simpl; [reflexivity|].
  intros Hnd. inversion Hnd as [|? ? Hk Hrest]; subst.
  destruct (String.eqb_spec key k) as [->|Hne].
  - destruct (map_get k rest) eqn:G; [|reflexivity].
    exfalso. apply Hk. eapply map_get_some_in_keys; eauto.
  - simpl. destruct (String.eqb_spec key k); [congruence|]. now apply IH.
Qed.

Lemma map_delete_length_le key m :
  (List.length (map_delete key m) <= List.length m)%nat.
Proof.
  induction m as [|[k y] rest IH]; simpl; [lia|].
  destruct (String.eqb key k); simpl; lia.
Qed.

Lemma map_delete_length_present key x m :
  map_get key m = Some x ->
  S (List.length (map_delete key m)) = List.length m.
Proof.
  induction m as [|[k y] rest IH]; simpl; [discriminate|].
  destruct (String.eqb key k); simpl; [reflexivity|].
  intros H. now rewrite IH.
Qed.

Lemma map_set_nodup key x m :
  NoDup (map_keys m) -> NoDup (map_keys (map_set key x m)).
Proof.
  intros Hnd. destruct (map_get key m) as [y|] eqn:G.
  - now destruct (map_set_present key x y m G) as [-> _].
  - rewrite (map_set_absent key x m G). unfold map_keys.
    rewrite map_app. simpl.
    apply NoDup_app; [assumption|repeat constructor; simpl; tauto|].
    intros z Hz [Hz'|[]]. subst z. now apply (map_get_none_notin key m G).
Qed.
Lemma map_set_nonempty key x m : map_set key x m <> [].
Proof.
  destruct m as [|[k y] rest]; simpl; [discriminate|].
  destruct (String.eqb key k); discriminate.
Qed.
End OrderedMapFacts.

(** ** Rounding to binary64 *)

Lemma ulp_exp_nonneg x : 0 <= ulp_exp x.
Proof. unfold ulp_exp. lia. Qed.

Lemma round_at_near k x :
  0 <= k ->
  x / 2 ^ k * 2 ^ k <= round_at k x <= (x / 2 ^ k + 1) * 2 ^ k
  /\ 2 * Z.abs (round_at k x - x) <= 2 ^ k.
Proof.
  intros Hk. assert (Hu : 0 < 2 ^ k) by (apply Z.pow_pos_nonneg; lia).
  pose proof (Z.div_mod x (2 ^ k) ltac:(lia)) as Hdm.
  pose proof (Z.mod_pos_bound x (2 ^ k) Hu) as Hr.
  unfold round_at. cbv zeta.
  rewrite Z.mul_add_distr_r, Z.mul_1_l.
  rewrite (Z.mul_comm (2 ^ k)) in Hdm.
  generalize dependent (x / 2 ^ k * 2 ^ k). intros p Hdm.
  destruct ((2 ^ k <? 2 * (x mod 2 ^ k))
            || ((2 * (x mod 2 ^ k) =? 2 ^ k) && Z.odd (x / 2 ^ k))) eqn:Hup.
  - assert (2 ^ k <= 2 * (x mod 2 ^ k)).
    { apply orb_true_iff in Hup. destruct Hup as [H|H].
      - apply Z.ltb_lt in H. lia.
      - apply andb_true_iff in H. destruct H as [H _].
        apply Z.eqb_eq in H. lia. }
    lia.
  - assert (2 * (x mod 2 ^ k) <= 2 ^ k).
    { apply orb_false_iff in Hup. destruct Hup as [H _].
      apply Z.ltb_ge in H. lia. }
    lia.
Qed.

Lemma round_at_exact k m : 0 <= k -> round_at k (m * 2 ^ k) = m * 2 ^ k.
Proof.
  intros Hk. assert (Hu : 0 < 2 ^ k) by (apply Z.pow_pos_nonneg; lia).
  unfold round_at. cbv zeta.
  rewrite Z.div_mul, Z.mod_mul, Z.mul_0_r by lia.
  destruct (Z.ltb_spec (2 ^ k) 0); [lia|].
  destruct (Z.eqb_spec 0 (2 ^ k)); [lia|]. reflexivity.
Qed.

Lemma round_at_pow2 k l : 0 <= k <= l ->
  round_at k (2 ^ l) = 2 ^ l /\ round_at k (- 2 ^ l) = - 2 ^ l.
Proof.
  intros H. replace (2 ^ l) with (2 ^ (l - k) * 2 ^ k)
    by (rewrite <- Z.pow_add_r by lia; f_equal; lia).
  split; [now apply round_at_exact|].
  rewrite <- Z.mul_opp_l. now apply round_at_exact.
Qed.

Lemma round_at_monotone k x y :
  0 <= k -> x <= y -> round_at k x <= round_at k y.
Proof.
  intros Hk Hxy. assert (Hu : 0 < 2 ^ k) by (apply Z.pow_pos_nonneg; lia).
  pose proof (Z.div_le_mono x y (2 ^ k) Hu Hxy) as Hq.
  destruct (Z.eq_dec (x / 2 ^ k) (y / 2 ^ k)) as [Heq|Hne].
  - pose proof (Z.div_mod x (2 ^ k) ltac:(lia)) as Hx.
    pose proof (Z.div_mod y (2 ^ k) ltac:(lia)) as Hy.
    rewrite Heq in Hx. assert (Hr : x mod 2 ^ k <= y mod 2 ^ k) by lia.
    unfold round_at. cbv zeta. rewrite Heq.
    rewrite Z.mul_add_distr_r, Z.mul_1_l.
    destruct (Z.ltb_spec (2 ^ k) (2 * (x mod 2 ^ k)));
      destruct (Z.eqb_spec (2 * (x mod 2 ^ k)) (2 ^ k));
      destruct (Z.ltb_spec (2 ^ k) (2 * (y mod 2 ^ k)));
      destruct (Z.eqb_spec (2 * (y mod 2 ^ k)) (2 ^ k));
      destruct (Z.odd (y / 2 ^ k)); simpl; lia.
  - destruct (round_at_near k x Hk) as [[_ Hx] _].
    destruct (round_at_near k y Hk) as [[Hy _] _].
    assert (x / 2 ^ k + 1 <= y / 2 ^ k) by lia.
    assert ((x / 2 ^ k + 1) * 2 ^ k <= y / 2 ^ k * 2 ^ k)
      by (apply Z.mul_le_mono_nonneg_r; lia).
    lia.
Qed.

Lemma round_at_zero k : 0 <= k -> round_at k 0 = 0.
Proof. intros Hk. exact (round_at_exact k 0 Hk). Qed.

Lemma ulp_exp_le_log2 x : ulp_exp x <= Z.log2 (Z.abs x).
Proof. unfold ulp_exp. pose proof (Z.log2_nonneg (Z.abs x)). lia. Qed.

Lemma binary64_monotone x y : x <= y -> binary64 x <= binary64 y.
Proof.
  intros Hxy. unfold binary64.
  pose proof (ulp_exp_nonneg x) as Hkx. pose proof (ulp_exp_nonneg y) as Hky.
  destruct (Z.eq_dec (ulp_exp x) (ulp_exp y)) as [Heq|Hne].
  { rewrite Heq. now apply round_at_monotone. }
  pose proof (ulp_exp_le_log2 x) as Hlx. pose proof (ulp_exp_le_log2 y) as Hly.
  destruct (Z_lt_le_dec x 0) as [Hx|Hx]; destruct (Z_lt_le_dec y 0) as [Hy|Hy];
    try lia.
  - (* x <= y < 0 *)
    rewrite Z.abs_neq in * by lia.
    assert (Hlog : Z.log2 (- y) <= Z.log2 (- x)) by (apply Z.log2_le_mono; lia).
    assert (Hlt : Z.log2 (- y) < Z.log2 (- x))
      by (unfold ulp_exp in Hne; rewrite !Z.abs_neq in Hne by lia; lia).
    destruct (Z.log2_spec (- x) ltac:(lia)) as [Hx1 _].
    destruct (Z.log2_spec (- y) ltac:(lia)) as [_ Hy2].
    destruct (round_at_pow2 (ulp_exp x) (Z.log2 (- x)) ltac:(lia)) as [_ Ex].
    destruct (round_at_pow2 (ulp_exp y) (Z.succ (Z.log2 (- y))) ltac:(lia))
      as [_ Ey].
    pose proof (round_at_monotone (ulp_exp x) x (- 2 ^ Z.log2 (- x)) Hkx
                  ltac:(lia)) as M1.
    pose proof (round_at_monotone (ulp_exp y) (- 2 ^ Z.succ (Z.log2 (- y))) y
                  Hky ltac:(lia)) as M2.
    rewrite Ex in M1. rewrite Ey in M2.
    assert (2 ^ Z.succ (Z.log2 (- y)) <= 2 ^ Z.log2 (- x))
      by (apply Z.pow_le_mono_r; lia).
    lia.
  - (* x < 0 <= y *)
    pose proof (round_at_monotone (ulp_exp x) x 0 Hkx ltac:(lia)) as M1.
    pose proof (round_at_monotone (ulp_exp y) 0 y Hky ltac:(lia)) as M2.
    rewrite round_at_zero in M1, M2 by lia. lia.
  - (* 0 <= x <= y *)
    rewrite Z.abs_eq in * by lia.
    assert (Hlog : Z.log2 x <= Z.log2 y) by (apply Z.log2_le_mono; lia).
    assert (Hlt : Z.log2 x < Z.log2 y)
      by (unfold ulp_exp in Hne; rewrite !Z.abs_eq in Hne by lia; lia).
    assert (Hy0 : 0 < y).
    { destruct (Z.eq_dec y 0) as [->|]; [|lia]. simpl in Hlt.
      pose proof (Z.log2_nonneg x). lia. }
    destruct (Z.log2_spec y Hy0) as [Hy1 _].
    assert (Hx2 : x < 2 ^ Z.succ (Z.log2 x)).
    { destruct (Z.eq_dec x 0) as [->|]; [reflexivity|].
      apply Z.log2_spec. lia. }
    pose proof (Z.log2_nonneg x) as Hlx0.
    destruct (round_at_pow2 (ulp_exp x) (Z.succ (Z.log2 x)) ltac:(lia))
      as [Ex _].
    destruct (round_at_pow2 (ulp_exp y) (Z.log2 y) ltac:(lia)) as [Ey _].
    pose proof (round_at_monotone (ulp_exp x) x (2 ^ Z.succ (Z.log2 x)) Hkx
                  ltac:(lia)) as M1.
    pose proof (round_at_monotone (ulp_exp y) (2 ^ Z.log2 y) y Hky
                  ltac:(lia)) as M2.
    rewrite Ex in M1. rewrite Ey in M2.
    assert (2 ^ Z.succ (Z.log2 x) <= 2 ^ Z.log2 y)
      by (apply Z.pow_le_mono_r; lia).
    lia.
Qed.

Lemma binary64_exact x : Z.abs x < 2 ^ 53 -> binary64 x = x.
Proof.
  intros H. unfold binary64.
  assert (Hk : ulp_exp x = 0).
  { unfold ulp_exp. destruct (Z.eq_dec x 0) as [->|Hx]; [reflexivity|].
    assert (Z.log2 (Z.abs x) < 53) by (apply Z.log2_lt_pow2; lia). lia. }
  rewrite Hk. unfold round_at. simpl.
  rewrite Z.div_1_r, Z.mod_1_r. simpl. lia.
Qed.

Lemma binary64_near x :
  Z.abs x < 2 ^ 63 -> Z.abs (binary64 x - x) <= 512.
Proof.
  intros H. unfold binary64.
  assert (Hk : ulp_exp x <= 10).
  { unfold ulp_exp. destruct (Z.eq_dec x 0) as [->|Hx]; [simpl; lia|].
    assert (Z.log2 (Z.abs x) < 63) by (apply Z.log2_lt_pow2; lia). lia. }
  destruct (round_at_near (ulp_exp x) x (ulp_exp_nonneg x)) as [_ Hn].
  assert (2 ^ ulp_exp x <= 2 ^ 10)
    by (apply Z.pow_le_mono_r; [lia|assumption]).
  change (2 ^ 10) with 1024 in *. lia.
Qed.

(** The score never grows with the access count and never shrinks with the
    time of the last touch. *)
Lemma score_monotone en1 en2 :
  t en1 <= t en2 -> a en2 <= a en1 -> score en1 <= score en2.
Proof.
  intros Ht Ha. unfold score. apply binary64_monotone.
  assert (binary64 (t en1 * 1000000) <= binary64 (t en2 * 1000000))
    by (apply binary64_monotone; lia).
  lia.
Qed.

(** ** The scenarios of the repository's tests *)

Example test3_lru_evicts_b : map_keys (_map c_lru) = ["a"; "c"; "d"].
Proof. reflexivity. Qed.

Example test4_swr_served_then_gone :
  fst (get "stale-key" true 0 c_swr) = VStr "stale-value"
  /\ fst (get "stale-key" true 100 c_swr) = VStr "stale-value"
  /\ fst (get "stale-key" true 250 c_swr) = VUndefined.
Proof. repeat split. Qed.

(** ** Reading: [get] and the expiration policy *)

Lemma expired_classify o now en :
  expired now en = false <-> classify o now en = Alive.
Proof.
  unfold expired, classify.
  destruct (Z.eqb_spec (e en) 0) as [H0|H0]; simpl; [tauto|].
  destruct (Z.ltb_spec (e en) now), (Z.leb_spec now (e en)); try lia;
    simpl; try tauto.
  split; [discriminate|].
  destruct (allowStale o || _); discriminate.
Qed.

(** [get] serves the stored value unless the entry is classified Dead. *)
Lemma get_classify key touch now c en :
  map_get key (_map c) = Some en ->
  fst (get key touch now c) =
    match classify (opts c) now en with
    | Dead => VUndefined
    | _ => v en
    end.
Proof.
  intros G. unfold get. rewrite G.
  destruct (expired now en) eqn:Ex.
  - assert (Hc : classify (opts c) now en <> Alive)
      by (intros Hc; apply expired_classify in Hc; congruence).
    unfold classify in *.
    destruct ((e en =? 0) || (now <=? e en)); [congruence|].
    destruct (allowStale (opts c)); simpl; [reflexivity|].
    destruct ((0 <? staleWhileRevalidate (opts c))
              && (now - e en <? staleWhileRevalidate (opts c)));
      reflexivity.
  - apply (expired_classify (opts c)) in Ex. now rewrite Ex.
Qed.

Lemma get_absent key touch now c :
  map_get key (_map c) = None -> get key touch now c = (VUndefined, c).
Proof. intros G. unfold get. now rewrite G. Qed.

(** ** C2: [has] *)

(** C2, counterexample.  With a stale-while-revalidate window of 200 and
    [allowStale] off, an entry that expired at 50 is stale-servable at time
    100 and [get] serves it, yet [has] of nano-cache.ts answers [false]. *)
Lemma has_ignores_swr_window :
  map_get "stale-key" (_map c_swr)
    = Some {| v := VStr "stale-value"; e := 50; t := 0; a := 0 |}
  /\ classify (opts c_swr) 100
       {| v := VStr "stale-value"; e := 50; t := 0; a := 0 |} = StaleServable
  /\ fst (get "stale-key" true 100 c_swr) = VStr "stale-value"
  /\ has TS "stale-key" 100 c_swr = false.
Proof. repeat split. Qed.

(** nano-cache.js negates the flag instead: with the default options an
    entry that is dead is reported present (test 7 of the repository expects
    [false]). *)
Example has_js_dead_entry :
  classify (opts c_k100) 150 {| v := VStr "old"; e := 100; t := 50; a := 0 |}
    = Dead
  /\ has JS "k" 150 c_k100 = true
  /\ has TS "k" 150 c_k100 = false.
Proof. repeat split. Qed.

(** C2, as amended.  [has] answers [false] for an absent key and [true] for
    an entry that is Alive, in both files.  For an entry whose expiry is
    past, nano-cache.ts answers [allowStale]: [true] for a stale-servable
    entry only when stale values are allowed unconditionally, whatever the
    stale-while-revalidate window, and [false] for a dead one. *)
Theorem has_alive_or_allowStale (i : impl) (key : string) (now : Z) (c : cache) :
  match map_get key (_map c) with
  | None => has i key now c = false
  | Some en =>
      match classify (opts c) now en with
      | Alive => has i key now c = true
      | StaleServable => has TS key now c = allowStale (opts c)
      | Dead => has TS key now c = false
      end
  end.
Proof.
  unfold has, classify. destruct (map_get key (_map c)) as [en|]; [|reflexivity].
  destruct ((e en =? 0) || (now <=? e en)); [reflexivity|].
  destruct (allowStale (opts c)); simpl; [reflexivity|].
  destruct ((0 <? staleWhileRevalidate (opts c))
            && (now - e en <? staleWhileRevalidate (opts c))); reflexivity.
Qed.

(** ** C8: [ttl(key)] *)

(** C8, counterexample.  An entry that expired at 100 is dead at 150 under
    the default options, and [ttl] answers 0 for it, not [null]. *)
Lemma ttl_dead_entry_is_zero :
  map_get "k" (_map c_k100)
    = Some {| v := VStr "old"; e := 100; t := 50; a := 0 |}
  /\ classify (opts c_k100) 150
       {| v := VStr "old"; e := 100; t := 50; a := 0 |} = Dead
  /\ fst (ttl "k" None 150 c_k100) = TtlRemaining 0
  /\ fst (ttl "k" None 150 c_k100) <> TtlNull.
Proof. repeat split. discriminate. Qed.

(** C8, as amended.  [ttl(key)] answers [null] exactly when the key is
    absent, [Infinity] when the entry never expires, the positive remaining
    lifetime [expiresAt - now] while the expiry is ahead, and 0 once the
    expiry is reached or past (a dead entry that has not been swept
    included).  It leaves the cache as it was. *)
Theorem ttl_remaining_lifetime (key : string) (now : Z) (c : cache) :
  snd (ttl key None now c) = c
  /\ (fst (ttl key None now c) = TtlNull <-> map_get key (_map c) = None)
  /\ match map_get key (_map c) with
     | None => fst (ttl key None now c) = TtlNull
     | Some en =>
         if e en =? 0 then fst (ttl key None now c) = TtlInfinity
         else if now <? e en
              then fst (ttl key None now c) = TtlRemaining (e en - now)
                   /\ 0 < e en - now
              else fst (ttl key None now c) = TtlRemaining 0
     end.
Proof.
  unfold ttl. destruct (map_get key (_map c)) as [en|]; simpl.
  - destruct (e en =? 0); simpl.
    + repeat split; discriminate.
    + destruct (Z.ltb_spec now (e en)), (Z.ltb_spec 0 (e en - now));
        try lia; repeat split; try discriminate; lia.
  - repeat split; reflexivity.
Qed.

(** ** C4: [set] on a key that is present *)

Lemma set_present key val ttl0 now c en :
  map_get key (_map c) = Some en ->
  set key val ttl0 now c =
    with_map (map_set key
      {| v := val;
         e := (let n := match ttl0 with
                        | Some x => x
                        | None => defaultTTL (opts c)
                        end in
               if 0 <? n then now + n else 0);
         t := now; a := 0 |}) c.
Proof.
  intros G. unfold set, map_has. rewrite G. unfold _clone.
  now destruct (useClone (opts c)).
Qed.

(** C4, counterexample.  ["k"] has been read three times; writing it again
    puts the access count back to 0. *)
Lemma set_resets_accessCount :
  map_get "k" (_map c_read3) = Some {| v := VNum 1; e := 0; t := 8; a := 3 |}
  /\ map_get "k" (_map (set "k" (VNum 2) None 10 c_read3))
       = Some {| v := VNum 2; e := 0; t := 10; a := 0 |}
  /\ a {| v := VNum 2; e := 0; t := 10; a := 0 |}
       <> a {| v := VNum 1; e := 0; t := 8; a := 3 |}.
Proof. repeat split. discriminate. Qed.

Lemma set_existing_key_entry key val ttl0 now c en :
  map_get key (_map c) = Some en ->
  map_get key (_map (set key val ttl0 now c))
    = Some (fresh_entry (opts c) val ttl0 now)
  /\ map_keys (_map (set key val ttl0 now c)) = map_keys (_map c)
  /\ size (set key val ttl0 now c) = size c
  /\ trace (set key val ttl0 now c) = trace c.
Proof.
  intros G. rewrite (set_present _ _ _ _ _ _ G). unfold size. simpl.
  match goal with
  | |- context [map_set key ?x (_map c)] =>
      destruct (map_set_present key x en (_map c) G) as [Hk Hl]
  end.
  rewrite map_get_set_same, Hk, Hl. auto.
Qed.

(** C4, as amended.  For a key that is present, [set] installs a fresh
    entry in the key's place: the new value and expiry, [lastTouch] put to
    the time of the write and [accessCount] put back to 0.  The key keeps its
    position, the size is unchanged, and neither the disposal hook nor any
    observer is called. *)
Theorem set_existing_key_replaces_entry
  (key : string) (val : value) (ttl0 : option Z) (now : Z) (c : cache)
  (en : entry) :
  map_get key (_map c) = Some en ->
  let c' := set key val ttl0 now c in
  let n := match ttl0 with Some x => x | None => defaultTTL (opts c) end in
  map_get key (_map c')
    = Some {| v := val; e := (if 0 <? n then now + n else 0);
              t := now; a := 0 |}
  /\ map_keys (_map c') = map_keys (_map c)
  /\ size c' = size c
  /\ trace c' = trace c.
Proof. intros G. exact (set_existing_key_entry key val ttl0 now c en G). Qed.

Lemma set_existing_key_replaces_entry_witness :
  map_get "k" (_map (set "k" (VNum 2) (Some 40) 10 c_read3))
    = Some {| v := VNum 2; e := 50; t := 10; a := 0 |}
  /\ map_keys (_map (set "k" (VNum 2) (Some 40) 10 c_read3))
       = map_keys (_map c_read3)
  /\ size (set "k" (VNum 2) (Some 40) 10 c_read3) = size c_read3
  /\ trace (set "k" (VNum 2) (Some 40) 10 c_read3) = trace c_read3.
Proof.
  exact (set_existing_key_replaces_entry "k" (VNum 2) (Some 40) 10 c_read3
           {| v := VNum 1; e := 0; t := 8; a := 3 |} eq_refl).
Defined.

(** ** Frame lemmas for the helpers that call user code *)

Lemma disposeEntry_frame key en reason c :
  opts (_disposeEntry key en reason c) = opts c
  /\ _map (_disposeEntry key en reason c) = _map c
  /\ _events (_disposeEntry key en reason c) = _events c
  /\ _pending (_disposeEntry key en reason c) = _pending c
  /\ loads (_disposeEntry key en reason c) = loads c
  /\ flights (_disposeEntry key en reason c) = flights c
  /\ settled (_disposeEntry key en reason c) = settled c.
Proof. unfold _disposeEntry. destruct (disposeValue (opts c)); simpl; auto 10. Qed.

Lemma disposeEntry_trace key en reason c :
  trace (_disposeEntry key en reason c) =
    trace c ++ (if disposeValue (opts c)
                then [Disposed (v en) key reason] else []).
Proof.
  unfold _disposeEntry. destruct (disposeValue (opts c)); simpl; auto.
  now rewrite app_nil_r.
Qed.

Lemma emit_frame event key val reason c :
  opts (_emit event key val reason c) = opts c
  /\ _map (_emit event key val reason c) = _map c
  /\ _events (_emit event key val reason c) = _events c
  /\ _pending (_emit event key val reason c) = _pending c
  /\ loads (_emit event key val reason c) = loads c
  /\ flights (_emit event key val reason c) = flights c
  /\ settled (_emit event key val reason c) = settled c.
Proof. unfold _emit. simpl. auto 10. Qed.

(** ** C6: the victim of [_evictLRU] *)

Lemma scan_from_some m :
  forall k0 s0, exists k,
    scan m (Some k0) (Some s0) = Some k
    /\ ((k = k0 /\ Forall (fun ke => s0 <= score (snd ke)) m)
        \/ (exists en, In (k, en) m /\ score en < s0
                       /\ Forall (fun ke => score en <= score (snd ke)) m)).
Proof.
  induction m as [|[k1 en1] rest IH]; intros k0 s0; simpl.
  - exists k0. split; [reflexivity|]. left. split; [reflexivity|constructor].
  - destruct (Z.ltb_spec (score en1) s0) as [Hlt|Hge].
    + destruct (IH k1 (score en1)) as [k [Hs Hcase]].
      exists k. split; [assumption|]. right.
      destruct Hcase as [[Hk Hall]|[en [Hin [Hlt' Hall]]]].
      * subst k. exists en1. split; [now left|]. split; [assumption|].
        constructor; [simpl; lia|assumption].
      * exists en. split; [now right|]. split; [lia|].
        constructor; [simpl; lia|assumption].
    + destruct (IH k0 s0) as [k [Hs Hcase]].
      exists k. split; [assumption|].
      destruct Hcase as [[Hk Hall]|[en [Hin [Hlt' Hall]]]].
      * left. split; [assumption|]. constructor; [simpl; lia|assumption].
      * right. exists en. split; [now right|]. split; [assumption|].
        constructor; [simpl; lia|assumption].
Qed.

(** On a store that is not empty the loop finds a key, and the entry it
    belongs to has the least score. *)
Lemma scan_min m :
  m <> [] ->
  exists k en, scan m None None = Some k /\ In (k, en) m
               /\ Forall (fun ke => score en <= score (snd ke)) m.
Proof.
  destruct m as [|[k1 en1] rest]; [congruence|]. intros _. simpl.
  destruct (scan_from_some rest k1 (score en1))
    as [k [Hs [[Hk Hall]|[en [Hin [Hlt Hall]]]]]].
  - subst k. exists k1, en1. split; [assumption|]. split; [now left|].
    constructor; [simpl; lia|assumption].
  - exists k, en. split; [assumption|]. split; [now right|].
    constructor; [simpl; lia|assumption].
Qed.

Lemma evictLRU_unfold c k en :
  scan (_map c) None None = Some k -> map_get k (_map c) = Some en ->
  _evictLRU c =
    _emit "evict" k (v en) "lru"
      (with_map (map_delete k) (_disposeEntry k en "lru" c)).
Proof. intros Hs G. unfold _evictLRU. now rewrite Hs, G. Qed.

Lemma evictLRU_map c k en :
  scan (_map c) None None = Some k -> map_get k (_map c) = Some en ->
  _map (_evictLRU c) = map_delete k (_map c)
  /\ opts (_evictLRU c) = opts c.
Proof.
  intros Hs G. rewrite (evictLRU_unfold c k en Hs G).
  destruct (emit_frame "evict" k (v en) "lru"
              (with_map (map_delete k) (_disposeEntry k en "lru" c)))
    as (-> & -> & _).
  simpl. now destruct (disposeEntry_frame k en "lru" c) as (-> & -> & _).
Qed.

(** The victim is the first entry, in iteration order, among those with the
    least score: every entry before it scores strictly more. *)
Lemma scan_from_some_first m :
  forall k0 s0,
    (scan m (Some k0) (Some s0) = Some k0
     /\ Forall (fun ke => s0 <= score (snd ke)) m)
    \/ (exists pre k en post,
          m = pre ++ (k, en) :: post
          /\ scan m (Some k0) (Some s0) = Some k
          /\ score en < s0
          /\ Forall (fun ke => score en < score (snd ke)) pre
          /\ Forall (fun ke => score en <= score (snd ke)) post).
Proof.
  induction m as [|[k1 en1] rest IH]; intros k0 s0; simpl.
  - left. split; [reflexivity|constructor].
  - destruct (Z.ltb_spec (score en1) s0) as [Hlt|Hge].
    + right. destruct (IH k1 (score en1))
        as [[Hs Hall]|(pre & k & en & post & -> & Hs & Hlt' & Hpre & Hpost)].
      * exists [], k1, en1, rest. repeat split; try assumption. constructor.
      * exists ((k1, en1) :: pre), k, en, post.
        repeat split; try assumption; [lia|].
        constructor; [simpl; lia|assumption].
    + destruct (IH k0 s0)
        as [[Hs Hall]|(pre & k & en & post & -> & Hs & Hlt' & Hpre & Hpost)].
      * left. split; [assumption|]. constructor; [simpl; lia|assumption].
      * right. exists ((k1, en1) :: pre), k, en, post.
        repeat split; try assumption.
        constructor; [simpl; lia|assumption].
Qed.

Lemma scan_first m :
  m <> [] ->
  exists pre k en post,
    m = pre ++ (k, en) :: post
    /\ scan m None None = Some k
    /\ Forall (fun ke => score en < score (snd ke)) pre
    /\ Forall (fun ke => score en <= score (snd ke)) post.
Proof.
  destruct m as [|[k1 en1] rest]; [congruence|]. intros _. simpl.
  destruct (scan_from_some_first rest k1 (score en1))
    as [[Hs Hall]|(pre & k & en & post & -> & Hs & Hlt & Hpre & Hpost)].
  - exists [], k1, en1, rest. repeat split; try assumption. constructor.
  - exists ((k1, en1) :: pre), k, en, post. repeat split; try assumption.
    constructor; [simpl; lia|assumption].
Qed.

(** What [_evictLRU] removes, for any store: the first entry with the least
    score as the source computes it.  With the same [lastTouch], fewer
    accesses never give a lower score. *)
Lemma evictLRU_removes_first_least_score c :
  store_ok c -> _map c <> [] ->
  exists pre k en post,
    _map c = pre ++ (k, en) :: post
    /\ Forall (fun ke => score en < score (snd ke)) pre
    /\ Forall (fun ke => score en <= score (snd ke)) post
    /\ map_get k (_map c) = Some en
    /\ _map (_evictLRU c) = map_delete k (_map c)
    /\ map_get k (_map (_evictLRU c)) = None.
Proof.
  intros Hok Hne.
  destruct (scan_first (_map c) Hne) as (pre & k & en & post & Hm & Hs & Hpre & Hpost).
  assert (G : map_get k (_map c) = Some en).
  { apply in_nodup_map_get; [assumption|].
    rewrite Hm. apply in_or_app. right. now left. }
  destruct (evictLRU_map c k en Hs G) as [Hmap _].
  exists pre, k, en, post. repeat split; try assumption.
  rewrite Hmap. now apply map_get_delete_same.
Qed.

Lemma fewer_accesses_never_score_lower en1 en2 :
  t en1 = t en2 -> a en1 <= a en2 -> score en2 <= score en1.
Proof. intros Ht Ha. apply score_monotone; lia. Qed.

(** C6, the failing scenario.  At a real [Date.now()] the product
    [t * 1_000_000] is about 1.7e18, where doubles are 256 apart: subtracting
    fewer than 128 accesses changes nothing.  ["hot"] (3 accesses) and
    ["cold"] (1 access), touched in the same millisecond, have the same
    score, and the strict comparison of the loop keeps the first key as the
    victim: the write of a third key evicts ["hot"] when it was written
    first, ["cold"] when it was.  When the counts differ by more, the
    subtraction lowers the score of the entry with MORE accesses: read 200
    times, ["hot"] scores below ["cold"], never read, and is evicted though
    written second.  In no case does the entry with fewer accesses have the
    lower score. *)
Lemma evictLRU_evicts_the_more_accessed_entry :
  _map c_hot_first
    = [("hot", {| v := VNum 1; e := 0; t := 1700000000000; a := 3 |});
       ("cold", {| v := VNum 2; e := 0; t := 1700000000000; a := 1 |})]
  /\ score {| v := VNum 1; e := 0; t := 1700000000000; a := 3 |}
     = 1700000000000000000
  /\ score {| v := VNum 2; e := 0; t := 1700000000000; a := 1 |}
     = 1700000000000000000
  /\ map_keys (_map (set "new" (VNum 3) None (T0 + 1) c_hot_first))
     = ["cold"; "new"]
  /\ map_keys (_map (set "new" (VNum 3) None (T0 + 1) c_cold_first))
     = ["hot"; "new"]
  /\ map_get "hot" (_map c_hot200)
     = Some {| v := VNum 1; e := 0; t := 1700000000000; a := 200 |}
  /\ score {| v := VNum 1; e := 0; t := 1700000000000; a := 200 |}
     = 1699999999999999744
  /\ map_keys (_map (set "new" (VNum 3) None (T0 + 1) c_hot200))
     = ["cold"; "new"].
Proof. vm_compute. repeat split. Qed.

(** ** C7: the capacity bound *)

Lemma create_fields o :
  opts (create o) = o /\ _map (create o) = []
  /\ _pending (create o) = [] /\ flights (create o) = []
  /\ settled (create o) = [] /\ loads (create o) = []
  /\ trace (create o) = [].
Proof. unfold create. simpl. destruct (0 <? checkPeriod o); simpl; auto 10. Qed.

(** A new cache is well formed. *)
Lemma create_ok o now :
  store_ok (create o) /\ promises_ok (create o) /\ clock_ok now (create o).
Proof.
  unfold store_ok, promises_ok, clock_ok.
  destruct (create_fields o) as (_ & -> & -> & -> & -> & _).
  repeat split; constructor.
Qed.

Lemma scan_min_present m :
  m <> [] -> exists k en, scan m None None = Some k /\ map_get k m = Some en.
Proof.
  intros Hne. destruct (scan_min m Hne) as (k & en & Hs & Hin & _).
  destruct (in_keys_map_get k m) as [en' G].
  - unfold map_keys. change k with (fst (k, en)). now apply in_map.
  - eauto.
Qed.

(** On a store that is not empty, [_evictLRU] removes exactly one entry. *)
Lemma evictLRU_size c :
  _map c <> [] ->
  size (_evictLRU c) = size c - 1 /\ opts (_evictLRU c) = opts c
  /\ exists victim, map_has victim (_map c) = true
                    /\ _map (_evictLRU c) = map_delete victim (_map c).
Proof.
  intros Hne. destruct (scan_min_present (_map c) Hne) as (k & en & Hs & G).
  destruct (evictLRU_map c k en Hs G) as [Hm Ho].
  split; [|split; [assumption|]].
  - unfold size. rewrite Hm.
    pose proof (map_delete_length_present k en (_map c) G). lia.
  - exists k. unfold map_has. now rewrite G.
Qed.

Lemma set_absent key val ttl0 now c :
  map_get key (_map c) = None ->
  set key val ttl0 now c =
    let c1 := with_map (map_set key (fresh_entry (opts c) val ttl0 now)) c in
    if (0 <? maxSize (opts c)) && (maxSize (opts c) <? size c + 1)
    then _evictLRU c1 else c1.
Proof.
  intros G. unfold set, map_has, fresh_entry, _clone. rewrite G.
  replace (if useClone (opts c) then val else val) with val
    by now destruct (useClone (opts c)).
  cbv zeta. unfold size at 1. simpl.
  rewrite (map_set_absent key _ (_map c) G), length_app. simpl.
  replace (Z.of_nat (List.length (_map c) + 1)) with (size c + 1)
    by (unfold size; lia).
  reflexivity.
Qed.

Lemma set_opts key val ttl0 now c : opts (set key val ttl0 now c) = opts c.
Proof.
  destruct (map_get key (_map c)) as [en|] eqn:G.
  - now rewrite (set_present _ _ _ _ _ _ G).
  - rewrite (set_absent _ _ _ _ _ G). cbv zeta.
    destruct ((0 <? maxSize (opts c)) && (maxSize (opts c) <? size c + 1));
      [|reflexivity].
    destruct (evictLRU_size (with_map (map_set key
                (fresh_entry (opts c) val ttl0 now)) c)) as (_ & Ho & _);
      [apply map_set_nonempty|exact Ho].
Qed.

(** The size after a write, case by case. *)
Lemma set_size key val ttl0 now c :
  size (set key val ttl0 now c) =
    if map_has key (_map c) then size c
    else if (0 <? maxSize (opts c)) && (maxSize (opts c) <? size c + 1)
         then size c else size c + 1.
Proof.
  unfold map_has. destruct (map_get key (_map c)) as [en|] eqn:G.
  - rewrite (set_present _ _ _ _ _ _ G). unfold size. simpl.
    match goal with
    | |- context [map_set key ?x (_map c)] =>
        now destruct (map_set_present key x en (_map c) G) as [_ ->]
    end.
  - rewrite (set_absent _ _ _ _ _ G). cbv zeta.
    assert (Hsz : size (with_map (map_set key
                     (fresh_entry (opts c) val ttl0 now)) c) = size c + 1).
    { unfold size. simpl.
      rewrite (map_set_absent key _ (_map c) G), length_app. simpl. lia. }
    destruct ((0 <? maxSize (opts c)) && (maxSize (opts c) <? size c + 1)).
    + destruct (evictLRU_size (with_map (map_set key
                  (fresh_entry (opts c) val ttl0 now)) c)) as (-> & _).
      * apply map_set_nonempty.
      * lia.
    + assumption.
Qed.

Lemma get_frame key touch now c :
  opts (snd (get key touch now c)) = opts c
  /\ size (snd (get key touch now c)) = size c
  /\ map_keys (_map (snd (get key touch now c))) = map_keys (_map c)
  /\ _pending (snd (get key touch now c)) = _pending c
  /\ flights (snd (get key touch now c)) = flights c
  /\ settled (snd (get key touch now c)) = settled c
  /\ loads (snd (get key touch now c)) = loads c
  /\ trace (snd (get key touch now c)) = trace c.
Proof.
  unfold get. destruct (map_get key (_map c)) as [en|] eqn:G; [|simpl; auto 10].
  assert (H : forall c', c' = c \/ c' = with_map (map_set key (_touch now en)) c ->
            opts c' = opts c /\ size c' = size c
            /\ map_keys (_map c') = map_keys (_map c)
            /\ _pending c' = _pending c /\ flights c' = flights c
            /\ settled c' = settled c /\ loads c' = loads c
            /\ trace c' = trace c).
  { intros c' [->| ->]; [auto 10|]. unfold size. simpl.
    destruct (map_set_present key (_touch now en) en (_map c) G) as [-> ->].
    auto 10. }
  destruct (expired now en), (allowStale (opts c)), touch,
    ((0 <? staleWhileRevalidate (opts c))
     && (now - e en <? staleWhileRevalidate (opts c)));
    cbn [snd]; apply H; auto.
Qed.

Lemma sweep_frame now limit todo :
  forall cleaned c,
    opts (snd (sweep now limit todo cleaned c)) = opts c
    /\ size (snd (sweep now limit todo cleaned c)) <= size c.
Proof.
  induction todo as [|[key en] rest IH]; intros cleaned c; simpl.
  - split; [reflexivity|lia].
  - destruct (expired now en); [|apply IH].
    set (c3 := _emit "expire" key (v en) "ttl"
                 (with_map (map_delete key) (_disposeEntry key en "expire" c))).
    assert (H3 : opts c3 = opts c /\ size c3 <= size c).
    { subst c3. unfold size.
      destruct (emit_frame "expire" key (v en) "ttl"
                  (with_map (map_delete key)
                     (_disposeEntry key en "expire" c))) as (-> & -> & _).
      simpl.
      destruct (disposeEntry_frame key en "expire" c) as (-> & -> & _).
      split; [reflexivity|].
      pose proof (map_delete_length_le key (_map c)). lia. }
    destruct H3 as [Ho Hs].
    destruct (match limit with
              | Some l => (l <=? S cleaned)%nat
              | None => false
              end); simpl.
    + split; assumption.
    + destruct (IH (S cleaned) c3) as [-> Hs']. split; [assumption|lia].
Qed.

Lemma dispose_all_frame reason (l : list (string * entry)) :
  forall c,
    opts (fold_left (fun acc ke => _disposeEntry (fst ke) (snd ke) reason acc)
            l c) = opts c.
Proof.
  induction l as [|[k en] rest IH]; intros c; simpl; [reflexivity|].
  rewrite IH. apply disposeEntry_frame.
Qed.

Lemma clear_frame c : opts (clear c) = opts c /\ _map (clear c) = [].
Proof.
  unfold clear. simpl. split; [apply dispose_all_frame|reflexivity].
Qed.

Lemma peek_pure key now c : snd (peek key now c) = c.
Proof.
  unfold peek, get. destruct (map_get key (_map c)) as [en|]; [|reflexivity].
  destruct (expired now en), (allowStale (opts c)),
    ((0 <? staleWhileRevalidate (opts c))
     && (now - e en <? staleWhileRevalidate (opts c))); reflexivity.
Qed.

(** The rejection callback only removes the in-flight marker. *)
Lemma on_rejected_state i fl err now c :
  snd (on_rejected i fl err now c) = with_pending (map_delete (fl_key fl)) c.
Proof.
  unfold on_rejected.
  destruct (0 <? staleIfError (opts (with_pending (map_delete (fl_key fl)) c)));
    [|reflexivity].
  destruct i.
  - pose proof (peek_pure (fl_key fl) now
                  (with_pending (map_delete (fl_key fl)) c)) as Hp.
    destruct (peek (fl_key fl) now (with_pending (map_delete (fl_key fl)) c))
      as [old c2].
    simpl in Hp. subst c2.
    destruct (negb (is_undefined old) && _); reflexivity.
  - destruct (map_get (fl_key fl)
                (_map (with_pending (map_delete (fl_key fl)) c)))
      as [en|]; [|reflexivity].
    destruct (negb (is_undefined (v en)) && _); reflexivity.
Qed.

Lemma on_rejected_frame i fl err now c :
  opts (snd (on_rejected i fl err now c)) = opts c
  /\ _map (snd (on_rejected i fl err now c)) = _map c.
Proof. rewrite on_rejected_state. auto. Qed.

Lemma step_opts i o now c : opts (step i o now c) = opts c.
Proof.
  destruct o; cbn [step]; try reflexivity.
  - apply set_opts.
  - apply get_frame.
  - apply get_frame.
  - unfold del. destruct (map_get key (_map c)); [|reflexivity]. simpl.
    apply disposeEntry_frame.
  - apply clear_frame.
  - unfold ttl. destruct (map_get key (_map c)); [|reflexivity].
    destruct newTTL; [reflexivity|]. now destruct (e e0 =? 0).
  - unfold getOrSet.
    destruct (get key true now c) as [existing c1] eqn:Hg.
    assert (Ho : opts c1 = opts c)
      by (change c1 with (snd (existing, c1)); rewrite <- Hg; apply get_frame).
    destruct (negb (is_undefined existing)); [assumption|].
    destruct (map_get key (_pending c1)); assumption.
  - unfold settle.
    destruct (nth_error (flights c) p) as [fl|]; [|reflexivity].
    destruct (nat_get p (settled c)); [reflexivity|].
    destruct outcome as [val|err].
    + simpl. apply set_opts.
    + destruct (on_rejected i fl err now c) as [r c1] eqn:Hr. simpl.
      change c1 with (snd (r, c1)). rewrite <- Hr. apply on_rejected_frame.
  - unfold on. now destruct (map_get event (_events c)).
  - unfold off. now destruct (map_get event (_events c)).
  - apply sweep_frame.
  - unfold tick, _cleanup.
    destruct (sweep now None (_map c) 0 c) as [cleaned c1] eqn:Hs.
    assert (Ho : opts c1 = opts c)
      by (change c1 with (snd (cleaned, c1)); rewrite <- Hs; apply sweep_frame).
    now destruct ((cleaned =? 0)%nat && (size c1 =? 0)).
  - unfold dispose. cbn [with_pending with_events opts].
    now destruct (clear_frame (with_timers false c)) as [-> _].
Qed.

(** Only a write can grow the store. *)
Lemma step_size_not_write i o now c :
  is_write o = false -> size (step i o now c) <= size c.
Proof.
  destruct o; cbn [step is_write]; try discriminate; intros _; try lia.
  - destruct (get_frame key touch now c) as (_ & -> & _). lia.
  - destruct (get_frame key false now c) as (_ & H & _).
    unfold peek. rewrite H. lia.
  - unfold del. destruct (map_get key (_map c)) as [en|]; [|lia].
    unfold size. simpl.
    destruct (disposeEntry_frame key en "delete" c) as (_ & -> & _).
    pose proof (map_delete_length_le key (_map c)). lia.
  - unfold size. destruct (clear_frame c) as [_ ->]. simpl. lia.
  - unfold ttl. destruct (map_get key (_map c)) as [en|] eqn:G; [|simpl; lia].
    destruct newTTL as [n|]; [|destruct (e en =? 0); simpl; lia].
    unfold size. simpl.
    destruct (map_set_present key
                {| v := v en; e := (if 0 <? n then now + n else 0);
                   t := t en; a := a en |} en (_map c) G) as [_ ->].
    lia.
  - unfold getOrSet.
    destruct (get key true now c) as [existing c1] eqn:Hg.
    assert (Hs : size c1 = size c)
      by (change c1 with (snd (existing, c1)); rewrite <- Hg; apply get_frame).
    destruct (negb (is_undefined existing)); [simpl; lia|].
    destruct (map_get key (_pending c1)); simpl; unfold size in *; simpl; lia.
  - unfold on. destruct (map_get event (_events c)); unfold size; simpl; lia.
  - unfold off. destruct (map_get event (_events c)); unfold size; simpl; lia.
  - apply sweep_frame.
  - unfold tick, _cleanup.
    destruct (sweep now None (_map c) 0 c) as [cleaned c1] eqn:Hs.
    assert (Hsz : size c1 <= size c)
      by (change c1 with (snd (cleaned, c1)); rewrite <- Hs; apply sweep_frame).
    destruct ((cleaned =? 0)%nat && (size c1 =? 0)); unfold size in *; simpl; lia.
  - unfold dispose, size. cbn [with_pending with_events _map].
    destruct (clear_frame (with_timers false c)) as [_ ->]. simpl. lia.
Qed.

Lemma set_size_bounded key val ttl0 now c :
  0 < maxSize (opts c) -> size c <= maxSize (opts c) ->
  size (set key val ttl0 now c) <= maxSize (opts c).
Proof.
  intros Hm Hs. rewrite set_size.
  destruct (map_has key (_map c)); [assumption|].
  destruct (Z.ltb_spec 0 (maxSize (opts c))); [|lia].
  destruct (Z.ltb_spec (maxSize (opts c)) (size c + 1)); simpl; lia.
Qed.

Lemma step_size_bounded i o now c :
  0 < maxSize (opts c) -> size c <= maxSize (opts c) ->
  size (step i o now c) <= maxSize (opts c).
Proof.
  intros Hm Hs. destruct (is_write o) eqn:Hw.
  - destruct o; try discriminate; cbn [step].
    + now apply set_size_bounded.
    + unfold settle.
      destruct (nth_error (flights c) p) as [fl|]; [|assumption].
      destruct (nat_get p (settled c)); [assumption|].
      destruct outcome as [val|err].
      * unfold size. simpl. now apply set_size_bounded.
      * destruct (on_rejected i fl err now c) as [r c1] eqn:Hr.
        unfold size. simpl.
        replace c1 with (snd (on_rejected i fl err now c)) by now rewrite Hr.
        destruct (on_rejected_frame i fl err now c) as [_ ->]. exact Hs.
  - pose proof (step_size_not_write i o now c Hw). lia.
Qed.

Lemma run_size_bounded i history :
  forall c, 0 < maxSize (opts c) -> size c <= maxSize (opts c) ->
            opts (run i history c) = opts c
            /\ size (run i history c) <= maxSize (opts c).
Proof.
  induction history as [|[o now] rest IH]; intros c Hm Hs; simpl.
  - auto.
  - pose proof (step_opts i o now c) as Ho.
    pose proof (step_size_bounded i o now c Hm Hs) as Hb.
    destruct (IH (step i o now c)) as [Ho' Hb']; rewrite ?Ho; try assumption.
    unfold run in *. simpl. rewrite Ho'. rewrite Ho in *. auto.
Qed.

(** C7.  With [maxSize] m > 0 the size is at most m after every history of
    operations on a new cache.  In a cache within the bound, a write of a new
    key at size m removes exactly one entry of the store it has just extended
    and leaves the size at m; a write of a new key below m removes nothing; a
    write of a key that is present changes neither the keys nor the trace (no
    eviction); and an operation that is not a write does not grow the
    store. *)
Theorem size_never_exceeds_maxSize (i : impl) (o : options) :
  0 < maxSize o ->
  (forall history, size (run i history (create o)) <= maxSize o)
  /\ (forall c op now,
        opts c = o -> size c <= maxSize o ->
        size (step i op now c) <= maxSize o
        /\ (is_write op = false -> size (step i op now c) <= size c))
  /\ (forall c key val ttl0 now,
        opts c = o -> size c <= maxSize o ->
        let c' := set key val ttl0 now c in
        let written := map_set key (fresh_entry o val ttl0 now) (_map c) in
        if map_has key (_map c)
        then map_keys (_map c') = map_keys (_map c) /\ trace c' = trace c
        else if size c =? maxSize o
             then size c' = maxSize o
                  /\ exists victim, map_has victim written = true
                                    /\ _map c' = map_delete victim written
             else _map c' = written).
Proof.
  intros Hm. split; [|split].
  - intros history.
    destruct (create_fields o) as (Ho & Hmap & _).
    assert (Hm' : 0 < maxSize (opts (create o))) by now rewrite Ho.
    assert (H0 : size (create o) <= maxSize (opts (create o)))
      by (unfold size; rewrite Hmap, Ho; simpl; lia).
    pose proof (proj2 (run_size_bounded i history (create o) Hm' H0)) as H.
    now rewrite Ho in H.
  - intros c op now <- Hs. split.
    + now apply step_size_bounded.
    + apply step_size_not_write.
  - intros c key val ttl0 now <- Hs c' written. subst c' written.
    unfold map_has. destruct (map_get key (_map c)) as [en|] eqn:G.
    + destruct (set_existing_key_entry key val ttl0 now c en G)
        as (_ & Hk & _ & Ht). auto.
    + rewrite (set_absent _ _ _ _ _ G). cbv zeta.
      destruct (Z.ltb_spec 0 (maxSize (opts c))); [|lia].
      destruct (Z.eqb_spec (size c) (maxSize (opts c))) as [He|Hn].
      * destruct (Z.ltb_spec (maxSize (opts c)) (size c + 1)); [|lia].
        simpl.
        destruct (evictLRU_size (with_map (map_set key
                    (fresh_entry (opts c) val ttl0 now)) c))
          as (Hsz & _ & victim & Hv & Hmap); [apply map_set_nonempty|].
        split; [|exists victim; split; assumption].
        rewrite Hsz. unfold size. simpl.
        rewrite (map_set_absent key _ (_map c) G), length_app. simpl.
        unfold size in He. lia.
      * destruct (Z.ltb_spec (maxSize (opts c)) (size c + 1)); [lia|].
        reflexivity.
Qed.

Lemma size_never_exceeds_maxSize_witness :
  (forall history, size (run TS history (create opts_lru3)) <= 3)
  /\ (forall c op now,
        opts c = opts_lru3 -> size c <= 3 ->
        size (step TS op now c) <= 3
        /\ (is_write op = false -> size (step TS op now c) <= size c))
  /\ (forall c key val ttl0 now,
        opts c = opts_lru3 -> size c <= 3 ->
        let c' := set key val ttl0 now c in
        let written := map_set key (fresh_entry opts_lru3 val ttl0 now) (_map c) in
        if map_has key (_map c)
        then map_keys (_map c') = map_keys (_map c) /\ trace c' = trace c
        else if size c =? 3
             then size c' = 3
                  /\ exists victim, map_has victim written = true
                                    /\ _map c' = map_delete victim written
             else _map c' = written).
Proof. apply (size_never_exceeds_maxSize TS opts_lru3). reflexivity. Defined.

(** ** The written entry survives its own write *)

Lemma scan_append_last key x m :
  forall ok s, s <= score x ->
    scan (m ++ [(key, x)]) ok (Some s) = scan m ok (Some s).
Proof.
  induction m as [|[k1 en1] rest IH]; intros ok s Hs; simpl.
  - destruct (Z.ltb_spec (score x) s); [lia|reflexivity].
  - destruct (Z.ltb_spec (score en1) s); apply IH; lia.
Qed.

Lemma scan_append_new key x m :
  m <> [] -> (forall k en, In (k, en) m -> score en <= score x) ->
  scan (m ++ [(key, x)]) None None = scan m None None.
Proof.
  destruct m as [|[k1 en1] rest]; [congruence|]. intros _ H.
  cbn [app scan]. apply scan_append_last. apply (H k1). now left.
Qed.

Lemma clock_ok_score now c k en val exp :
  clock_ok now c -> In (k, en) (_map c) ->
  score en <= score {| v := val; e := exp; t := now; a := 0 |}.
Proof.
  unfold clock_ok. rewrite Forall_forall. intros H Hin.
  destruct (H _ Hin) as [Ht Ha]. simpl in *.
  apply score_monotone; simpl; lia.
Qed.

(** Under a clock that does not run backwards the entry just written is
    never the victim of the eviction its write triggers. *)
Lemma set_get_same key val ttl0 now c :
  clock_ok now c ->
  map_get key (_map (set key val ttl0 now c))
    = Some (fresh_entry (opts c) val ttl0 now).
Proof.
  intros Hck. destruct (map_get key (_map c)) as [en|] eqn:G.
  - now apply (set_existing_key_entry key val ttl0 now c en).
  - rewrite (set_absent _ _ _ _ _ G). cbv zeta.
    set (x := fresh_entry (opts c) val ttl0 now).
    destruct ((0 <? maxSize (opts c)) && (maxSize (opts c) <? size c + 1))
      eqn:Hev; [|simpl; apply map_get_set_same].
    apply andb_prop in Hev. destruct Hev as [H0 H1].
    apply Z.ltb_lt in H0, H1.
    assert (Hne : _map c <> []).
    { intros Hm. unfold size in H1. rewrite Hm in H1. simpl in H1. lia. }
    destruct (scan_min_present _ Hne) as (k & en & Hs & Gk).
    assert (Hk : key <> k) by (intros ->; congruence).
    assert (Hs' : scan (_map (with_map (map_set key x) c)) None None = Some k).
    { cbn [with_map _map]. rewrite <- Hs, (map_set_absent key x (_map c) G).
      apply scan_append_new; [assumption|].
      intros k' en' Hin.
      exact (clock_ok_score now c k' en' _ _ Hck Hin). }
    assert (Gk' : map_get k (_map (with_map (map_set key x) c)) = Some en).
    { cbn [with_map _map]. rewrite map_get_set_other; assumption. }
    destruct (evictLRU_map _ k en Hs' Gk') as [-> _].
    cbn [with_map _map].
    rewrite map_get_delete_other by congruence. apply map_get_set_same.
Qed.

(** ** Reads change neither values nor expiries *)

Lemma get_payload key touch now c k :
  payload k (snd (get key touch now c)) = payload k c.
Proof.
  unfold payload, get. destruct (map_get key (_map c)) as [en|] eqn:G;
    [|reflexivity].
  assert (H : option_map (fun en0 => (v en0, e en0))
                (map_get k (map_set key (_touch now en) (_map c)))
              = option_map (fun en0 => (v en0, e en0)) (map_get k (_map c))).
  { destruct (String.eqb_spec key k) as [<-|Hne].
    - now rewrite map_get_set_same, G.
    - now rewrite map_get_set_other. }
  destruct (expired now en), (allowStale (opts c)), touch,
    ((0 <? staleWhileRevalidate (opts c))
     && (now - e en <? staleWhileRevalidate (opts c)));
    cbn [snd with_map _map]; auto.
Qed.

Lemma run_reads_frame reads :
  forall c k, opts (run_reads reads c) = opts c
              /\ payload k (run_reads reads c) = payload k c.
Proof.
  induction reads as [|r rest IH]; intros c k; simpl; [auto|].
  destruct (IH (snd (get (r_key r) (r_touch r) (r_now r) c)) k) as [Ho Hp].
  unfold run_reads in *. simpl. rewrite Ho, Hp. split.
  - apply get_frame.
  - apply get_payload.
Qed.

(** The answer of [get] depends on the options, the value and the expiry
    only. *)
Lemma get_by_payload key touch now c val exp :
  payload key c = Some (val, exp) ->
  fst (get key touch now c) =
    match classify (opts c) now {| v := val; e := exp; t := 0; a := 0 |} with
    | Dead => VUndefined
    | _ => val
    end.
Proof.
  unfold payload. destruct (map_get key (_map c)) as [en|] eqn:G;
    [|discriminate].
  simpl. intros [= <- <-]. rewrite (get_classify key touch now c en G).
  reflexivity.
Qed.

(** ** C3: stale-while-revalidate *)

(** What [get] does on its own, as long as no sweep runs.  With a
    stale-while-revalidate window w > 0 and [allowStale] off, an entry
    written at time t0 >= 0 with a ttl > 0 (given, or the default) expires at
    t0 + ttl; whatever reads happen in between, [get] answers the stored
    value at every time before [expiresAt + w] (the entry being
    stale-servable once [expiresAt] is past) and [undefined] from
    [expiresAt + w] on. *)
Theorem swr_serves_until_window_closes
  (key : string) (val : value) (ttl0 : option Z) (t0 now : Z) (touch : bool)
  (reads : list read) (c : cache) :
  allowStale (opts c) = false ->
  0 < staleWhileRevalidate (opts c) ->
  0 < effective_ttl (opts c) ttl0 -> 0 <= t0 -> clock_ok t0 c ->
  let written := set key val ttl0 t0 c in
  let c' := run_reads reads written in
  let expiresAt := t0 + effective_ttl (opts c) ttl0 in
  let w := staleWhileRevalidate (opts c) in
  map_get key (_map written)
    = Some {| v := val; e := expiresAt; t := t0; a := 0 |}
  /\ (now < expiresAt + w -> fst (get key touch now c') = val)
  /\ (expiresAt < now < expiresAt + w ->
      classify (opts c') now {| v := val; e := expiresAt; t := t0; a := 0 |}
        = StaleServable)
  /\ (expiresAt + w <= now -> fst (get key touch now c') = VUndefined).
Proof.
  intros Has Hw Httl Ht0 Hck written c' expiresAt w.
  assert (Hget : map_get key (_map written)
                 = Some {| v := val; e := expiresAt; t := t0; a := 0 |}).
  { unfold written. rewrite (set_get_same key val ttl0 t0 c Hck).
    unfold fresh_entry.
    destruct (Z.ltb_spec 0 (effective_ttl (opts c) ttl0)); [reflexivity|lia]. }
  destruct (run_reads_frame reads written key) as [Ho Hp].
  fold c' in Ho, Hp.
  assert (Hopts : opts c' = opts c)
    by (rewrite Ho; unfold written; apply set_opts).
  assert (Hpay : payload key c' = Some (val, expiresAt))
    by (rewrite Hp; unfold payload; now rewrite Hget).
  pose proof (get_by_payload key touch now c' val expiresAt Hpay) as Hg.
  assert (Hexp : 0 < expiresAt) by (unfold expiresAt; lia).
  clearbody expiresAt.
  rewrite Hopts in *. fold w in Hw.
  split; [exact Hget|].
  unfold classify in *. simpl in *. rewrite Has in *. fold w in Hg |- *.
  destruct (Z.eqb_spec expiresAt 0); [lia|].
  split; [|split]; intros Hnow; simpl in *.
  - rewrite Hg. destruct (Z.leb_spec now expiresAt); [reflexivity|].
    destruct (Z.ltb_spec 0 w); [|lia].
    destruct (Z.ltb_spec (now - expiresAt) w); [reflexivity|lia].
  - destruct (Z.leb_spec now expiresAt); [lia|].
    destruct (Z.ltb_spec 0 w); [|lia].
    destruct (Z.ltb_spec (now - expiresAt) w); [reflexivity|lia].
  - rewrite Hg. destruct (Z.leb_spec now expiresAt); [lia|].
    destruct (Z.ltb_spec 0 w); [|lia].
    destruct (Z.ltb_spec (now - expiresAt) w); [lia|reflexivity].
Qed.

Lemma swr_serves_until_window_closes_witness :
  let written := set "stale-key" (VStr "stale-value") (Some 50) 0
                   (create opts_swr200) in
  let c' := run_reads [{| r_key := "stale-key"; r_touch := true; r_now := 0 |}]
              written in
  map_get "stale-key" (_map written)
    = Some {| v := VStr "stale-value"; e := 50; t := 0; a := 0 |}
  /\ (100 < 50 + 200 -> fst (get "stale-key" true 100 c') = VStr "stale-value")
  /\ (50 < 100 < 50 + 200 ->
      classify (opts c') 100
        {| v := VStr "stale-value"; e := 50; t := 0; a := 0 |} = StaleServable)
  /\ (50 + 200 <= 100 -> fst (get "stale-key" true 100 c') = VUndefined).
Proof.
  apply (swr_serves_until_window_closes "stale-key" (VStr "stale-value")
           (Some 50) 0 100 true
           [{| r_key := "stale-key"; r_touch := true; r_now := 0 |}]
           (create opts_swr200)).
  - reflexivity.
  - reflexivity.
  - reflexivity.
  - discriminate.
  - constructor.
Defined.


(** ** The reaper sweep *)

Lemma reaped_incl now limit todo :
  forall cleaned ke, In ke (reaped now limit todo cleaned) ->
                     In ke todo /\ expired now (snd ke) = true.
Proof.
  induction todo as [|[key en] rest IH]; intros cleaned ke; simpl; [tauto|].
  destruct (expired now en) eqn:Ex.
  - destruct (match limit with
              | Some l => (l <=? S cleaned)%nat
              | None => false
              end).
    + intros [<-|[]]. auto.
    + intros [<-|Hin]; [auto|]. destruct (IH _ _ Hin). auto.
  - intros Hin. destruct (IH _ _ Hin). auto.
Qed.

(** What a sweep does to the cache. *)
Lemma sweep_spec now limit todo :
  forall cleaned c,
    let r := reaped now limit todo cleaned in
    let c' := snd (sweep now limit todo cleaned c) in
    fst (sweep now limit todo cleaned c) = (cleaned + List.length r)%nat
    /\ _map c' = delete_all r (_map c)
    /\ trace c' = trace c ++ flat_map (expiry_effects c) r
    /\ opts c' = opts c /\ _events c' = _events c.
Proof.
  induction todo as [|[key en] rest IH]; intros cleaned c; simpl.
  - rewrite app_nil_r. repeat split. lia.
  - destruct (expired now en) eqn:Ex; [|apply IH].
    set (c3 := _emit "expire" key (v en) "ttl"
                 (with_map (map_delete key) (_disposeEntry key en "expire" c))).
    assert (H3 : _map c3 = map_delete key (_map c)
                 /\ trace c3 = trace c ++ expiry_effects c (key, en)
                 /\ opts c3 = opts c /\ _events c3 = _events c).
    { subst c3. unfold _emit, listeners, expiry_effects, _disposeEntry.
      destruct (disposeValue (opts c)); simpl; rewrite <- ?app_assoc;
        simpl; auto. }
    destruct H3 as (Hm & Ht & Ho & He).
    destruct (match limit with
              | Some l => (l <=? S cleaned)%nat
              | None => false
              end); simpl.
    + rewrite app_nil_r. repeat split; try assumption. lia.
    + destruct (IH (S cleaned) c3) as (Hn & Hm' & Ht' & Ho' & He').
      cbv zeta in *. rewrite Hn, Hm', Ht', Ho', He', Hm, Ht, Ho.
      rewrite <- app_assoc.
      replace (expiry_effects c3) with (expiry_effects c).
      * repeat split; try assumption. lia.
      * unfold expiry_effects, listeners. now rewrite Ho, He.
Qed.

Lemma delete_all_other key r :
  forall m, ~ In key (map_keys r) ->
            map_get key (delete_all r m) = map_get key m.
Proof.
  induction r as [|[k en] rest IH]; intros m Hnin; simpl; [reflexivity|].
  simpl in Hnin. unfold delete_all in *. simpl.
  rewrite IH by tauto. apply map_get_delete_other. tauto.
Qed.

(** A sweep keeps every key whose entry is not expired. *)
Lemma cleanup_keeps key limit now c en :
  store_ok c -> map_get key (_map c) = Some en -> expired now en = false ->
  map_get key (_map (snd (_cleanup limit now c))) = Some en.
Proof.
  intros Hok G Hex. unfold _cleanup.
  destruct (sweep_spec now limit (_map c) 0 c) as (_ & -> & _).
  rewrite delete_all_other; [assumption|].
  unfold map_keys. intros Hin. apply in_map_iff in Hin.
  destruct Hin as [[k en'] [Hk Hin]]. simpl in Hk. subst k.
  destruct (reaped_incl _ _ _ _ _ Hin) as [Hin' Hex'].
  rewrite (in_nodup_map_get key en' (_map c) Hok Hin') in G.
  simpl in Hex'. congruence.
Qed.

(** A key that a sweep removed is among the entries it reaped. *)
Lemma cleanup_removed key limit now c en :
  store_ok c -> map_get key (_map c) = Some en ->
  map_get key (_map (snd (_cleanup limit now c))) = None ->
  In (key, en) (reaped now limit (_map c) 0) /\ expired now en = true.
Proof.
  intros Hok G Hgone. unfold _cleanup in Hgone.
  destruct (sweep_spec now limit (_map c) 0 c) as (_ & Hm & _).
  rewrite Hm in Hgone.
  destruct (in_dec string_dec key (map_keys (reaped now limit (_map c) 0)))
    as [Hin|Hnin].
  - unfold map_keys in Hin. apply in_map_iff in Hin.
    destruct Hin as [[k en'] [Hk Hin]]. simpl in Hk. subst k.
    destruct (reaped_incl _ _ _ _ _ Hin) as [Hin' Hex'].
    rewrite (in_nodup_map_get key en' (_map c) Hok Hin') in G.
    inversion G; subst en'. auto.
  - rewrite (delete_all_other key _ (_map c) Hnin) in Hgone. congruence.
Qed.

(** ** C10: the two reasons of one expiration *)

(** C10.  A sweep adds to the trace only calls of the disposal hook with
    reason ["expire"] and notifications of the observers of [expire] with
    reason ["ttl"]; for every entry it removes, the hook (when one is
    configured) is called with the entry's value, its key and ["expire"], and
    every registered observer is notified with the key, the value and
    ["ttl"].  The two strings differ. *)
Theorem cleanup_reasons_expire_and_ttl
  (limit : option nat) (now : Z) (c : cache) :
  store_ok c ->
  let c' := snd (_cleanup limit now c) in
  exists fx,
    trace c' = trace c ++ fx
    /\ (forall key en,
          map_get key (_map c) = Some en -> map_get key (_map c') = None ->
          (disposeValue (opts c) = true ->
           In (Disposed (v en) key "expire") fx)
          /\ (forall cb, In cb (listeners "expire" c) ->
                         In (Notified cb "expire" key (v en) "ttl") fx))
    /\ (forall x, In x fx ->
          match x with
          | Disposed _ _ reason => reason = "expire"
          | Notified _ event _ _ reason => event = "expire" /\ reason = "ttl"
          end)
    /\ "ttl" <> "expire".
Proof.
  intros Hok c'. subst c'.
  exists (flat_map (expiry_effects c) (reaped now limit (_map c) 0)).
  split; [|split; [|split]].
  - unfold _cleanup. now destruct (sweep_spec now limit (_map c) 0 c)
      as (_ & _ & -> & _).
  - intros key en G Hgone.
    destruct (cleanup_removed key limit now c en Hok G Hgone) as [Hin _].
    split.
    + intros Hd. apply in_flat_map. exists (key, en). split; [assumption|].
      unfold expiry_effects. rewrite Hd. simpl. now left.
    + intros cb Hcb. apply in_flat_map. exists (key, en).
      split; [assumption|]. unfold expiry_effects. apply in_or_app. right.
      simpl. apply in_map_iff. eauto.
  - intros x Hx. apply in_flat_map in Hx. destruct Hx as [ke [_ Hx]].
    unfold expiry_effects in Hx. apply in_app_or in Hx.
    destruct Hx as [Hx|Hx].
    + destruct (disposeValue (opts c)); [|contradiction].
      destruct Hx as [<-|[]]. reflexivity.
    + apply in_map_iff in Hx. destruct Hx as [cb [<- _]]. auto.
  - discriminate.
Qed.

Example cleanup_trace_example :
  map_keys (_map (snd (_cleanup None 60 c_reap))) = ["keep"]
  /\ trace (snd (_cleanup None 60 c_reap))
     = [Disposed (VStr "value") "expiring" "expire";
        Notified 4 "expire" "expiring" (VStr "value") "ttl";
        Notified 7 "expire" "expiring" (VStr "value") "ttl"].
Proof. split; reflexivity. Qed.

Lemma cleanup_reasons_expire_and_ttl_witness :
  exists fx,
    trace (snd (_cleanup None 60 c_reap)) = trace c_reap ++ fx
    /\ (forall key en,
          map_get key (_map c_reap) = Some en ->
          map_get key (_map (snd (_cleanup None 60 c_reap))) = None ->
          (disposeValue (opts c_reap) = true ->
           In (Disposed (v en) key "expire") fx)
          /\ (forall cb, In cb (listeners "expire" c_reap) ->
                         In (Notified cb "expire" key (v en) "ttl") fx))
    /\ (forall x, In x fx ->
          match x with
          | Disposed _ _ reason => reason = "expire"
          | Notified _ event _ _ reason => event = "expire" /\ reason = "ttl"
          end)
    /\ "ttl" <> "expire".
Proof.
  apply (cleanup_reasons_expire_and_ttl None 60 c_reap).
  unfold store_ok. simpl. repeat constructor; simpl; intuition discriminate.
Defined.

(** ** Every operation keeps the store well formed *)

Lemma evictLRU_store_ok c : store_ok c -> store_ok (_evictLRU c).
Proof.
  intros Hok. destruct (_map c) as [|ke rest] eqn:Hm.
  - unfold _evictLRU. rewrite Hm. exact Hok.
  - destruct (evictLRU_size c) as (_ & _ & victim & _ & Hv);
      [congruence|].
    unfold store_ok. rewrite Hv. now apply map_delete_nodup.
Qed.

Lemma set_store_ok key val ttl0 now c :
  store_ok c -> store_ok (set key val ttl0 now c).
Proof.
  intros Hok. unfold set.
  set (x := {| v := _; e := _; t := now; a := 0 |}).
  assert (H1 : store_ok (with_map (map_set key x) c))
    by (unfold store_ok; simpl; now apply map_set_nodup).
  destruct (map_has key (_map c)); [assumption|]. cbv zeta.
  destruct ((0 <? maxSize (opts (with_map (map_set key x) c)))
            && (maxSize (opts (with_map (map_set key x) c))
                <? size (with_map (map_set key x) c)));
    [now apply evictLRU_store_ok|assumption].
Qed.

Lemma run_reads_store_ok reads :
  forall c, store_ok c -> store_ok (run_reads reads c).
Proof.
  induction reads as [|r rest IH]; intros c Hok; [assumption|].
  unfold run_reads in *. simpl. apply IH. unfold store_ok.
  destruct (get_frame (r_key r) (r_touch r) (r_now r) c) as (_ & _ & -> & _).
  exact Hok.
Qed.

Lemma step_store_ok i o now c : store_ok c -> store_ok (step i o now c).
Proof.
  intros Hok. destruct o; cbn [step]; try assumption.
  - now apply set_store_ok.
  - unfold store_ok. now destruct (get_frame key touch now c) as (_ & _ & -> & _).
  - rewrite peek_pure. assumption.
  - unfold del. destruct (map_get key (_map c)) as [en|]; [|assumption].
    unfold store_ok. simpl.
    destruct (disposeEntry_frame key en "delete" c) as (_ & -> & _).
    now apply map_delete_nodup.
  - unfold store_ok. destruct (clear_frame c) as [_ ->]. constructor.
  - unfold ttl. destruct (map_get key (_map c)) as [en|] eqn:G; [|assumption].
    destruct newTTL as [n|]; [|destruct (e en =? 0); assumption].
    unfold store_ok. simpl. now apply map_set_nodup.
  - unfold getOrSet.
    destruct (get key true now c) as [existing c1] eqn:Hg.
    assert (H1 : store_ok c1).
    { unfold store_ok. replace c1 with (snd (get key true now c))
        by now rewrite Hg.
      now destruct (get_frame key true now c) as (_ & _ & -> & _). }
    destruct (negb (is_undefined existing)); [assumption|].
    destruct (map_get key (_pending c1)); assumption.
  - unfold settle.
    destruct (nth_error (flights c) p) as [fl|]; [|assumption].
    destruct (nat_get p (settled c)); [assumption|].
    destruct outcome as [val|err].
    + unfold store_ok. simpl. now apply set_store_ok.
    + destruct (on_rejected i fl err now c) as [r c1] eqn:Hr.
      unfold store_ok. simpl.
      replace c1 with (snd (on_rejected i fl err now c)) by now rewrite Hr.
      now destruct (on_rejected_frame i fl err now c) as [_ ->].
  - unfold on. now destruct (map_get event (_events c)).
  - unfold off. now destruct (map_get event (_events c)).
  - unfold store_ok, _cleanup.
    destruct (sweep_spec now limit (_map c) 0 c) as (_ & -> & _).
    unfold delete_all.
    generalize (reaped now limit (_map c) 0).
    intros r. revert Hok. unfold store_ok. generalize (_map c).
    induction r as [|ke rest IH]; intros m Hm; simpl; [assumption|].
    apply IH. now apply map_delete_nodup.
  - unfold tick, _cleanup.
    destruct (sweep now None (_map c) 0 c) as [cleaned c1] eqn:Hs.
    assert (H1 : store_ok c1).
    { replace c1 with (snd (sweep now None (_map c) 0 c)) by now rewrite Hs.
      unfold store_ok.
      destruct (sweep_spec now None (_map c) 0 c) as (_ & -> & _).
      unfold delete_all.
      generalize (reaped now None (_map c) 0).
      intros r. revert Hok. unfold store_ok. generalize (_map c).
      induction r as [|ke rest IH]; intros m Hm; simpl; [assumption|].
      apply IH. now apply map_delete_nodup. }
    now destruct ((cleaned =? 0)%nat && (size c1 =? 0)).
  - unfold dispose, store_ok. cbn [with_pending with_events _map].
    destruct (clear_frame (with_timers false c)) as [_ ->]. constructor.
Qed.

(** ** C9: a ttl that is not positive means no expiry *)

(** An entry with the never-expires sentinel is Alive at every time, is
    served by [get], reported by [has], and kept by every sweep. *)
Lemma sentinel_entry_stays i key now touch limit c en :
  store_ok c -> map_get key (_map c) = Some en -> e en = 0 ->
  classify (opts c) now en = Alive
  /\ fst (get key touch now c) = v en
  /\ has i key now c = true
  /\ map_get key (_map (snd (_cleanup limit now c))) = Some en.
Proof.
  intros Hok G He.
  assert (Hc : classify (opts c) now en = Alive)
    by (unfold classify; now rewrite He).
  split; [assumption|]. split; [|split].
  - rewrite (get_classify key touch now c en G). now rewrite Hc.
  - unfold has. rewrite G, He. reflexivity.
  - apply cleanup_keeps; try assumption. unfold expired. now rewrite He.
Qed.

(** Reads and sweeps leave an entry that never expires where it is. *)
Lemma passive_keeps_sentinel i o now c key val :
  is_passive o = true -> store_ok c ->
  payload key c = Some (val, 0) ->
  payload key (step i o now c) = Some (val, 0).
Proof.
  intros Hpas Hok Hp.
  assert (Hsweep : forall limit,
            payload key (snd (_cleanup limit now c)) = Some (val, 0)).
  { intros limit. unfold payload in *.
    destruct (map_get key (_map c)) as [en|] eqn:G; [|discriminate].
    simpl in Hp. inversion Hp as [[Hv He]].
    rewrite (cleanup_keeps key limit now c en Hok G).
    - simpl. now rewrite Hv, He.
    - unfold expired. now rewrite He. }
  destruct o; try discriminate; cbn [step].
  - now rewrite get_payload.
  - now rewrite peek_pure.
  - assumption.
  - unfold on. now destruct (map_get event (_events c)).
  - unfold off. now destruct (map_get event (_events c)).
  - apply Hsweep.
  - specialize (Hsweep None). unfold tick.
    destruct (_cleanup None now c) as [cleaned c1]. simpl in Hsweep.
    now destruct ((cleaned =? 0)%nat && (size c1 =? 0)).
Qed.

Lemma run_passive_keeps_sentinel i key val history :
  forall c,
    Forall (fun oz => is_passive (fst oz) = true) history ->
    store_ok c -> payload key c = Some (val, 0) ->
    store_ok (run i history c) /\ payload key (run i history c) = Some (val, 0).
Proof.
  induction history as [|[o now] rest IH]; intros c Hall Hok Hp; [auto|].
  inversion Hall as [|? ? Ho Hrest]; subst. simpl in Ho.
  unfold run in *. simpl. apply IH; try assumption.
  - now apply step_store_ok.
  - now apply passive_keeps_sentinel.
Qed.

(** C9.  [set] with a ttl <= 0 (given, negative values included, or taken
    from [defaultTTL]) stores an entry whose expiry is the never-expires
    sentinel 0, and so does [ttl(key, newTTL)] with newTTL <= 0 for a key
    that is present.  After any history of reads and sweeps that entry is
    still in the store, with its value and the sentinel, and is Alive at
    every time: [get] serves it, [has] reports it, and one more sweep keeps
    it. *)
Theorem nonpositive_ttl_never_expires
  (i : impl) (key : string) (val : value) (ttl0 : option Z)
  (newTTL t0 t1 : Z) (c c1 : cache) (en1 : entry) :
  effective_ttl (opts c) ttl0 <= 0 -> newTTL <= 0 ->
  store_ok c -> clock_ok t0 c ->
  store_ok c1 -> map_get key (_map c1) = Some en1 ->
  let written := set key val ttl0 t0 c in
  let updated := snd (ttl key (Some newTTL) t1 c1) in
  map_get key (_map written) = Some {| v := val; e := 0; t := t0; a := 0 |}
  /\ map_get key (_map updated)
       = Some {| v := v en1; e := 0; t := t en1; a := a en1 |}
  /\ forall c' val', (c' = written /\ val' = val)
                     \/ (c' = updated /\ val' = v en1) ->
       forall history : list (op * Z),
         Forall (fun oz => is_passive (fst oz) = true) history ->
         forall (now : Z) (touch : bool) (limit : option nat),
           let c'' := run i history c' in
           exists en,
             map_get key (_map c'') = Some en /\ e en = 0 /\ v en = val'
             /\ classify (opts c'') now en = Alive
             /\ fst (get key touch now c'') = val'
             /\ has i key now c'' = true
             /\ map_get key (_map (snd (_cleanup limit now c''))) = Some en.
Proof.
  intros Httl Hnew Hok Hck Hok1 G1 written updated.
  assert (Hw : map_get key (_map written)
               = Some {| v := val; e := 0; t := t0; a := 0 |}).
  { unfold written. rewrite (set_get_same key val ttl0 t0 c Hck).
    unfold fresh_entry.
    destruct (Z.ltb_spec 0 (effective_ttl (opts c) ttl0)); [lia|reflexivity]. }
  assert (Hu : map_get key (_map updated)
               = Some {| v := v en1; e := 0; t := t en1; a := a en1 |}).
  { unfold updated, ttl. rewrite G1. simpl. rewrite map_get_set_same.
    destruct (Z.ltb_spec 0 newTTL); [lia|reflexivity]. }
  assert (Hokw : store_ok written) by now apply set_store_ok.
  assert (Hoku : store_ok updated)
    by exact (step_store_ok i (OpTtl key (Some newTTL)) t1 c1 Hok1).
  split; [assumption|]. split; [assumption|].
  intros c' val' Hc' history Hpas now touch limit c''.
  assert (Hc : payload key c' = Some (val', 0) /\ store_ok c').
  { unfold payload.
    destruct Hc' as [[-> ->]|[-> ->]]; [rewrite Hw|rewrite Hu]; auto. }
  destruct Hc as [Hp0 Hok0].
  destruct (run_passive_keeps_sentinel i key val' history c' Hpas Hok0 Hp0)
    as [Hok'' Hp]. fold c'' in Hok'', Hp.
  unfold payload in Hp.
  destruct (map_get key (_map c'')) as [en|] eqn:G; [|discriminate].
  simpl in Hp. inversion Hp as [[Hv He]].
  destruct (sentinel_entry_stays i key now touch limit c'' en Hok'' G He)
    as (Ha & Hg & Hh & Hk).
  exists en. rewrite Hv. rewrite He. rewrite Hv in Hg. auto 10.
Qed.

Lemma nonpositive_ttl_never_expires_witness :
  let written := set "k" (VNum 9) (Some (-5)) 60 c_k100 in
  let updated := snd (ttl "k" (Some (-1)) 70 c_k100) in
  map_get "k" (_map written) = Some {| v := VNum 9; e := 0; t := 60; a := 0 |}
  /\ map_get "k" (_map updated)
       = Some {| v := VStr "old"; e := 0; t := 50; a := 0 |}
  /\ forall c' val', (c' = written /\ val' = VNum 9)
                     \/ (c' = updated /\ val' = VStr "old") ->
       forall history : list (op * Z),
         Forall (fun oz => is_passive (fst oz) = true) history ->
         forall (now : Z) (touch : bool) (limit : option nat),
           let c'' := run JS history c' in
           exists en,
             map_get "k" (_map c'') = Some en /\ e en = 0 /\ v en = val'
             /\ classify (opts c'') now en = Alive
             /\ fst (get "k" touch now c'') = val'
             /\ has JS "k" now c'' = true
             /\ map_get "k" (_map (snd (_cleanup limit now c''))) = Some en.
Proof.
  apply (nonpositive_ttl_never_expires JS "k" (VNum 9) (Some (-5)) (-1) 60 70
           c_k100 c_k100 {| v := VStr "old"; e := 100; t := 50; a := 0 |}).
  - simpl. lia.
  - lia.
  - unfold store_ok. simpl. repeat constructor; simpl; intuition discriminate.
  - constructor; [simpl; lia|constructor].
  - unfold store_ok. simpl. repeat constructor; simpl; intuition discriminate.
  - reflexivity.
Defined.

Example sentinel_survives_sweeps :
  map_keys (_map (run TS [(OpTick, 1000); (OpGet "k" true, 2000);
                          (OpCleanup (Some 1%nat), 5000); (OpTick, 9000)]
                    (set "k" (VNum 9) (Some (-5)) 60 c_k100))) = ["k"]
  /\ map_keys (_map (run TS [(OpTick, 1000)] c_k100)) = [].
Proof. split; reflexivity. Qed.

(** ** C5: stale-if-error *)

(** C5, the failing scenario.  [staleIfError] is 1000 and ["k"] expired at
    100.  A [getOrSet] at 150 starts a loader, which fails at 160: the entry
    is still in the store and 160 - 100 < 1000, so the waiters should get
    ["old"].  nano-cache.ts gives it to them; nano-cache.js looks the entry
    up with [peek], which answers [undefined] for an expired entry, and
    rejects.  Both remove the in-flight marker. *)
Lemma stale_if_error_js_rejects :
  fst (getOrSet "k" 1 None 150 c_sie) = Awaits 0
  /\ map_get "k" (_map (snd (getOrSet "k" 1 None 150 c_sie)))
       = Some {| v := VStr "old"; e := 100; t := 50; a := 0 |}
  /\ 160 - 100 < staleIfError (opts (snd (getOrSet "k" 1 None 150 c_sie)))
  /\ resolution (settle JS 0 (Rejected "boom") 160
                   (snd (getOrSet "k" 1 None 150 c_sie))) (Awaits 0)
       = Some (Rejected "boom")
  /\ resolution (settle TS 0 (Rejected "boom") 160
                   (snd (getOrSet "k" 1 None 150 c_sie))) (Awaits 0)
       = Some (Fulfilled (VStr "old"))
  /\ map_get "k" (_pending (settle JS 0 (Rejected "boom") 160
                              (snd (getOrSet "k" 1 None 150 c_sie)))) = None
  /\ map_get "k" (_pending (settle TS 0 (Rejected "boom") 160
                              (snd (getOrSet "k" 1 None 150 c_sie)))) = None.
Proof. repeat split. Qed.

(** In nano-cache.js an entry that [get] classifies Dead is never served on
    a loader failure, whatever the stale-if-error window. *)
Lemma stale_if_error_js_dead_entry fl err now c en :
  map_get (fl_key fl) (_map c) = Some en ->
  classify (opts c) now en = Dead ->
  fst (on_rejected JS fl err now c) = Rejected err.
Proof.
  intros G Hd. unfold on_rejected.
  destruct (0 <? staleIfError (opts (with_pending (map_delete (fl_key fl)) c)));
    [|reflexivity].
  pose proof (get_classify (fl_key fl) false now
                (with_pending (map_delete (fl_key fl)) c) en G) as Hg.
  simpl in Hg. rewrite Hd in Hg.
  pose proof (peek_pure (fl_key fl) now
                (with_pending (map_delete (fl_key fl)) c)) as Hp.
  unfold peek in *.
  destruct (get (fl_key fl) false now (with_pending (map_delete (fl_key fl)) c))
    as [old c2].
  simpl in Hg, Hp. subst old c2. reflexivity.
Qed.

(** nano-cache.ts serves the stored value exactly when an entry exists, its
    value is not [undefined], and [now - e] is below the window. *)
Lemma stale_if_error_ts fl err now c :
  0 < staleIfError (opts c) ->
  match map_get (fl_key fl) (_map c) with
  | Some en =>
      (v en <> VUndefined -> now - e en < staleIfError (opts c) ->
       fst (on_rejected TS fl err now c) = Fulfilled (v en))
      /\ (staleIfError (opts c) <= now - e en ->
          fst (on_rejected TS fl err now c) = Rejected err)
  | None => fst (on_rejected TS fl err now c) = Rejected err
  end.
Proof.
  intros Hs. unfold on_rejected. simpl.
  destruct (Z.ltb_spec 0 (staleIfError (opts c))); [|lia].
  destruct (map_get (fl_key fl) (_map c)) as [en|]; [|reflexivity].
  destruct (Z.ltb_spec (now - e en) (staleIfError (opts c))); split;
    intros; try lia.
  - destruct (v en); simpl; congruence.
  - now rewrite andb_false_r.
Qed.

(** ** C1: single flight *)

Lemma classify_dead_later o t0 now en :
  classify o t0 en = Dead -> t0 <= now -> classify o now en = Dead.
Proof.
  unfold classify. intros H Hle.
  destruct (Z.eqb_spec (e en) 0); simpl in *; [discriminate|].
  destruct (Z.leb_spec t0 (e en)); [discriminate|].
  destruct (Z.leb_spec now (e en)); [lia|].
  destruct (allowStale o); simpl in *; [discriminate|].
  destruct (Z.ltb_spec 0 (staleWhileRevalidate o)); simpl in *;
    [|reflexivity].
  destruct (Z.ltb_spec (t0 - e en) (staleWhileRevalidate o)); [discriminate|].
  destruct (Z.ltb_spec (now - e en) (staleWhileRevalidate o)); [lia|].
  reflexivity.
Qed.

Lemma miss_unservable key touch now c :
  fst (get key touch now c) = VUndefined <-> unservable key now c.
Proof.
  unfold unservable. destruct (payload key c) as [[val exp]|] eqn:Hp.
  - rewrite (get_by_payload key touch now c val exp Hp).
    destruct (classify (opts c) now {| v := val; e := exp; t := 0; a := 0 |});
      split; auto; intros [H|H]; auto; discriminate.
  - unfold payload in Hp.
    destruct (map_get key (_map c)) eqn:G; [discriminate|].
    rewrite (get_absent key touch now c G). simpl. tauto.
Qed.

Lemma unservable_later key t0 now c :
  unservable key t0 c -> t0 <= now -> unservable key now c.
Proof.
  unfold unservable. destruct (payload key c) as [[val exp]|]; [|auto].
  intros [H|H] Hle; [now left|right].
  now apply (classify_dead_later (opts c) t0).
Qed.

Lemma same_but_touches_refl c : same_but_touches c c.
Proof. unfold same_but_touches. auto 10. Qed.

Lemma same_but_touches_trans c c1 c2 :
  same_but_touches c c1 -> same_but_touches c1 c2 -> same_but_touches c c2.
Proof.
  unfold same_but_touches.
  intros (Ho & Hp & Hf & Hs & Hl & Hy) (Ho' & Hp' & Hf' & Hs' & Hl' & Hy').
  repeat split; try congruence; intros k; now rewrite Hy', Hy.
Qed.

Lemma get_same_but_touches key touch now c :
  same_but_touches c (snd (get key touch now c)).
Proof.
  destruct (get_frame key touch now c)
    as (Ho & _ & _ & Hp & Hf & Hs & Hl & _).
  unfold same_but_touches. repeat split; try assumption.
  intros k. apply get_payload.
Qed.

Lemma unservable_same key now c c1 :
  same_but_touches c c1 -> unservable key now c -> unservable key now c1.
Proof.
  intros (Ho & _ & _ & _ & _ & Hy). unfold unservable. now rewrite Hy, Ho.
Qed.

(** A call that finds nothing to serve and no flight for its key starts
    one: it calls its loader and registers the new promise. *)
Lemma getOrSet_miss_start key loader ttl0 now c :
  unservable key now c -> map_get key (_pending c) = None ->
  exists c1 ttl1,
    same_but_touches c c1
    /\ getOrSet key loader ttl0 now c
       = (Awaits (List.length (flights c)), add_flight key loader ttl1 c1).
Proof.
  intros Hu Hp. apply (miss_unservable key true) in Hu.
  pose proof (get_same_but_touches key true now c) as Hsame.
  unfold getOrSet. destruct (get key true now c) as [existing c1].
  simpl in Hu, Hsame. subst existing. simpl.
  destruct Hsame as (Ho & Hp1 & Hf & Hrest).
  rewrite Hp1, Hp, Hf. eexists c1, _. split; [|reflexivity].
  unfold same_but_touches. auto.
Qed.

(** A call that finds nothing to serve and a flight for its key joins it:
    no loader is called. *)
Lemma getOrSet_miss_join key loader ttl0 now c p :
  unservable key now c -> map_get key (_pending c) = Some p ->
  exists c1,
    same_but_touches c c1 /\ getOrSet key loader ttl0 now c = (Awaits p, c1).
Proof.
  intros Hu Hp. apply (miss_unservable key true) in Hu.
  pose proof (get_same_but_touches key true now c) as Hsame.
  unfold getOrSet. destruct (get key true now c) as [existing c1].
  simpl in Hu, Hsame. subst existing. simpl.
  destruct Hsame as (Ho & Hp1 & Hrest).
  rewrite Hp1, Hp. exists c1. split; [|reflexivity].
  unfold same_but_touches. auto.
Qed.

Lemma run_calls_join key t0 p calls :
  forall c,
    Forall (fun cl => t0 <= c_now cl) calls ->
    unservable key t0 c -> map_get key (_pending c) = Some p ->
    exists c',
      same_but_touches c c'
      /\ run_calls key calls c = (repeat (Awaits p) (List.length calls), c').
Proof.
  induction calls as [|cl rest IH]; intros c Hall Hu Hp; simpl.
  - exists c. split; [apply same_but_touches_refl|reflexivity].
  - inversion Hall as [|? ? Hcl Hrest]; subst.
    destruct (getOrSet_miss_join key (c_loader cl) (c_ttl cl) (c_now cl) c p)
      as (c1 & Hsame & ->); [now apply (unservable_later key t0)|assumption|].
    destruct (IH c1 Hrest) as (c' & Hsame' & ->).
    + now apply (unservable_same key t0 c).
    + destruct Hsame as (_ & -> & _). assumption.
    + exists c'. split; [|reflexivity].
      now apply (same_but_touches_trans c c1).
Qed.

Lemma nat_get_fresh {A : Type} p (m : list (nat * A)) :
  Forall (fun pr => (fst pr < p)%nat) m -> nat_get p m = None.
Proof.
  induction m as [|[q x] rest IH]; intros H; simpl; [reflexivity|].
  inversion H as [|? ? Hq Hrest]; subst. simpl in Hq.
  destruct (Nat.eqb_spec p q); [lia|]. now apply IH.
Qed.

Lemma nat_get_app_new {A : Type} p (x : A) (m : list (nat * A)) :
  nat_get p m = None -> nat_get p (m ++ [(p, x)]) = Some x.
Proof.
  induction m as [|[q y] rest IH]; simpl.
  - now rewrite Nat.eqb_refl.
  - destruct (Nat.eqb p q); [discriminate|]. exact IH.
Qed.

(** [set] touches neither the promises nor the record of loader calls. *)
Lemma set_keeps_promises key val ttl0 now c :
  _pending (set key val ttl0 now c) = _pending c
  /\ flights (set key val ttl0 now c) = flights c
  /\ settled (set key val ttl0 now c) = settled c
  /\ loads (set key val ttl0 now c) = loads c.
Proof.
  destruct (map_get key (_map c)) as [en|] eqn:G.
  - rewrite (set_present _ _ _ _ _ _ G). simpl. auto.
  - rewrite (set_absent _ _ _ _ _ G). cbv zeta.
    destruct ((0 <? maxSize (opts c)) && (maxSize (opts c) <? size c + 1));
      [|simpl; auto].
    set (c1 := with_map (map_set key (fresh_entry (opts c) val ttl0 now)) c).
    destruct (scan_min_present (_map c1)) as (k & en & Hs & Gk);
      [apply map_set_nonempty|].
    rewrite (evictLRU_unfold c1 k en Hs Gk).
    destruct (emit_frame "evict" k (v en) "lru"
                (with_map (map_delete k) (_disposeEntry k en "lru" c1)))
      as (_ & _ & _ & -> & -> & -> & ->).
    simpl.
    destruct (disposeEntry_frame k en "lru" c1)
      as (_ & _ & _ & -> & -> & -> & ->).
    simpl. auto.
Qed.

(** The callbacks of a flight settle its promise, remove the marker of its
    key, and call no loader. *)
Lemma settle_flight i p out now c fl :
  nth_error (flights c) p = Some fl -> nat_get p (settled c) = None ->
  NoDup (map_keys (_pending c)) ->
  exists r,
    nat_get p (settled (settle i p out now c)) = Some r
    /\ match out with
       | Fulfilled val => r = Fulfilled val
       | Rejected err => r = Rejected err \/ exists old, r = Fulfilled old
       end
    /\ map_get (fl_key fl) (_pending (settle i p out now c)) = None
    /\ loads (settle i p out now c) = loads c.
Proof.
  intros Hfl Hns Hnd. unfold settle. rewrite Hfl, Hns.
  destruct out as [val|err].
  - exists (Fulfilled val). unfold on_fulfilled. simpl.
    destruct (set_keeps_promises (fl_key fl) val (Some (fl_ttl fl)) now c)
      as (-> & _ & -> & ->).
    rewrite (nat_get_app_new p _ _ Hns), map_get_delete_same by assumption.
    auto.
  - pose proof (on_rejected_state i fl err now c) as Hst.
    assert (Hr : fst (on_rejected i fl err now c) = Rejected err
                 \/ exists old, fst (on_rejected i fl err now c) = Fulfilled old).
    { destruct (fst (on_rejected i fl err now c)) as [old|err'] eqn:Hf;
        [right; eauto|left].
      revert Hf. unfold on_rejected.
      destruct (0 <? staleIfError _); [|simpl; congruence].
      destruct i.
      - destruct (peek _ _ _) as [old c2].
        destruct (negb (is_undefined old) && _); simpl; congruence.
      - destruct (map_get _ _) as [en|]; [|simpl; congruence].
        destruct (negb (is_undefined (v en)) && _); simpl; congruence. }
    destruct (on_rejected i fl err now c) as [r c1]. simpl in Hst, Hr.
    subst c1. exists r. simpl.
    rewrite (nat_get_app_new p _ _ Hns), map_get_delete_same by assumption.
    auto.
Qed.

(** C1.  Callers ask for one key one after the other, the first at a time
    when [get] has nothing to serve and no flight is registered for the key,
    and no promise settles in between.  Then exactly one loader is called,
    the first caller's; every caller is bound to the same promise and sees
    nothing before it settles.  When the loader's promise settles, every
    caller sees the same settlement: the loaded value if the loader
    succeeded, and otherwise either the loader's error or one stale value;
    the in-flight marker is removed and no further loader has been called. *)
Theorem getOrSet_single_flight
  (i : impl) (key : string) (first : call) (others : list call)
  (out : settlement) (tS : Z) (c : cache) :
  promises_ok c ->
  fst (get key true (c_now first) c) = VUndefined ->
  map_get key (_pending c) = None ->
  Forall (fun cl => c_now first <= c_now cl) others ->
  let p := List.length (flights c) in
  let answers := fst (run_calls key (first :: others) c) in
  let c' := snd (run_calls key (first :: others) c) in
  let c'' := settle i p out tS c' in
  answers = repeat (Awaits p) (S (List.length others))
  /\ loads c' = loads c ++ [c_loader first]
  /\ map_get key (_pending c') = Some p
  /\ Forall (fun ans => resolution c' ans = None) answers
  /\ exists r,
       Forall (fun ans => resolution c'' ans = Some r) answers
       /\ match out with
          | Fulfilled val => r = Fulfilled val
          | Rejected err => r = Rejected err \/ exists old, r = Fulfilled old
          end
       /\ map_get key (_pending c'') = None
       /\ loads c'' = loads c ++ [c_loader first].
Proof.
  intros [Hnd Hst] Hmiss Hpend Hlater p answers c' c''.
  apply miss_unservable in Hmiss.
  destruct (getOrSet_miss_start key (c_loader first) (c_ttl first)
              (c_now first) c Hmiss Hpend) as (c1 & ttl1 & Hsame & Hfirst).
  set (c2 := add_flight key (c_loader first) ttl1 c1) in *.
  destruct Hsame as (Ho & Hp & Hf & Hs & Hl & Hy).
  assert (Hu2 : unservable key (c_now first) c2).
  { unfold unservable, payload in *. simpl. 
    specialize (Hy key). unfold payload in Hy. rewrite Hy, Ho. exact Hmiss. }
  assert (Hp2 : map_get key (_pending c2) = Some p).
  { simpl. rewrite map_get_set_same, Hf. reflexivity. }
  destruct (run_calls_join key (c_now first) p others c2 Hlater Hu2 Hp2)
    as (c3 & Hsame3 & Hrun).
  assert (Hans : answers = repeat (Awaits p) (S (List.length others))
                 /\ c' = c3).
  { unfold answers, c'. simpl. rewrite Hfirst. fold c2. rewrite Hrun.
    split; reflexivity. }
  destruct Hans as [Hans Hc']. clearbody answers c'. subst answers c'.
  destruct Hsame3 as (Ho3 & Hp3 & Hf3 & Hs3 & Hl3 & Hy3).
  assert (Hloads : loads c3 = loads c ++ [c_loader first])
    by (rewrite Hl3; simpl; now rewrite Hl).
  assert (Hfl : nth_error (flights c3) p
                = Some {| fl_key := key; fl_ttl := ttl1 |}).
  { rewrite Hf3. simpl. rewrite Hf. unfold p.
    rewrite nth_error_app2, Nat.sub_diag by lia. reflexivity. }
  assert (Hns : nat_get p (settled c3) = None).
  { rewrite Hs3. simpl. rewrite Hs. now apply nat_get_fresh. }
  assert (Hnd3 : NoDup (map_keys (_pending c3))).
  { rewrite Hp3. simpl. apply map_set_nodup. now rewrite Hp. }
  split; [reflexivity|]. split; [assumption|].
  split; [now rewrite Hp3|].
  split.
  { apply Forall_forall. intros ans Hin. apply repeat_spec in Hin.
    subst ans. exact Hns. }
  destruct (settle_flight i p out tS c3 _ Hfl Hns Hnd3)
    as (r & Hr & Hout & Hgone & Hloads').
  exists r. split; [|split; [assumption|split]].
  - apply Forall_forall. intros ans Hin. apply repeat_spec in Hin.
    subst ans. exact Hr.
  - exact Hgone.
  - unfold c''. now rewrite Hloads'.
Qed.

Lemma getOrSet_single_flight_witness :
  let c := create DEFAULTS in
  let first := {| c_loader := 1%nat; c_ttl := None; c_now := 10 |} in
  let others := [{| c_loader := 2%nat; c_ttl := None; c_now := 10 |};
                 {| c_loader := 3%nat; c_ttl := None; c_now := 11 |}] in
  let p := List.length (flights c) in
  let answers := fst (run_calls "async-key" (first :: others) c) in
  let c' := snd (run_calls "async-key" (first :: others) c) in
  let c'' := settle TS p (Fulfilled (VStr "loaded-value")) 60 c' in
  answers = repeat (Awaits p) (S (List.length others))
  /\ loads c' = loads c ++ [c_loader first]
  /\ map_get "async-key" (_pending c') = Some p
  /\ Forall (fun ans => resolution c' ans = None) answers
  /\ exists r,
       Forall (fun ans => resolution c'' ans = Some r) answers
       /\ r = Fulfilled (VStr "loaded-value")
       /\ map_get "async-key" (_pending c'') = None
       /\ loads c'' = loads c ++ [c_loader first].
Proof.
  apply (getOrSet_single_flight TS "async-key"
           {| c_loader := 1%nat; c_ttl := None; c_now := 10 |}
           [{| c_loader := 2%nat; c_ttl := None; c_now := 10 |};
            {| c_loader := 3%nat; c_ttl := None; c_now := 11 |}]
           (Fulfilled (VStr "loaded-value")) 60 (create DEFAULTS)).
  - split; constructor.
  - reflexivity.
  - reflexivity.
  - repeat constructor; simpl; lia.
Defined.

Example test5_deduplication :
  let r := run_calls "async-key" calls3 (create DEFAULTS) in
  fst r = [Awaits 0; Awaits 0; Awaits 0]
  /\ loads (snd r) = [1%nat]
  /\ map_get "async-key"
       (_map (settle TS 0 (Fulfilled (VStr "loaded-value")) 60 (snd r)))
     = Some {| v := VStr "loaded-value"; e := 0; t := 60; a := 0 |}
  /\ getOrSet "async-key" 4 None 70
       (settle TS 0 (Fulfilled (VStr "loaded-value")) 60 (snd r))
     = (Immediate (VStr "loaded-value"),
        snd (get "async-key" true 70
               (settle TS 0 (Fulfilled (VStr "loaded-value")) 60 (snd r)))).
Proof. repeat split. Qed.

(** ** Invariants of reachable caches *)

Section ForallOnMaps.
Context {A : Type} (P : string * A -> Prop).

Lemma Forall_map_set key x (m : list (string * A)) :
  Forall P m -> P (key, x) -> Forall P (map_set key x m).
Proof.
  intros Hm Hx. induction m as [|[k y] rest IH]; simpl.
  - now constructor.
  - inversion Hm as [|? ? Hk Hrest]; subst.
    destruct (String.eqb_spec key k) as [->|Hne]; constructor; auto.
Qed.

Lemma Forall_map_delete key (m : list (string * A)) :
  Forall P m -> Forall P (map_delete key m).
Proof.
  rewrite !Forall_forall. intros H ke Hin. apply H.
  now apply (map_delete_incl key m).
Qed.
End ForallOnMaps.

Lemma Forall_delete_all (Q : string * entry -> Prop) r :
  forall m, Forall Q m -> Forall Q (delete_all r m).
Proof.
  induction r as [|ke rest IH]; intros m Hm; simpl; [assumption|].
  unfold delete_all in *. simpl. apply IH. now apply Forall_map_delete.
Qed.

Lemma clock_ok_later now now' c :
  clock_ok now c -> now <= now' -> clock_ok now' c.
Proof.
  unfold clock_ok. rewrite !Forall_forall. intros H Hle ke Hin.
  destruct (H ke Hin). split; lia.
Qed.

Lemma evictLRU_map_cases c :
  _map (_evictLRU c) = _map c
  \/ exists victim, _map (_evictLRU c) = map_delete victim (_map c).
Proof.
  destruct (_map c) as [|ke rest] eqn:Hm.
  - left. unfold _evictLRU. now rewrite Hm.
  - right. destruct (evictLRU_size c) as (_ & _ & victim & _ & Hv);
      [congruence|].
    exists victim. now rewrite Hv, Hm.
Qed.

Lemma set_map_cases key val ttl0 now c :
  let written := map_set key (fresh_entry (opts c) val ttl0 now) (_map c) in
  _map (set key val ttl0 now c) = written
  \/ exists victim, _map (set key val ttl0 now c) = map_delete victim written.
Proof.
  cbv zeta. destruct (map_get key (_map c)) as [en|] eqn:G.
  - left. now rewrite (set_present _ _ _ _ _ _ G).
  - rewrite (set_absent _ _ _ _ _ G). cbv zeta.
    destruct ((0 <? maxSize (opts c)) && (maxSize (opts c) <? size c + 1));
      [|now left].
    exact (evictLRU_map_cases
             (with_map (map_set key (fresh_entry (opts c) val ttl0 now)) c)).
Qed.

Lemma get_map_cases key touch now c :
  _map (snd (get key touch now c)) = _map c
  \/ exists en, map_get key (_map c) = Some en
                /\ _map (snd (get key touch now c))
                   = map_set key (_touch now en) (_map c).
Proof.
  unfold get. destruct (map_get key (_map c)) as [en|] eqn:G; [|now left].
  destruct (expired now en), (allowStale (opts c)), touch,
    ((0 <? staleWhileRevalidate (opts c))
     && (now - e en <? staleWhileRevalidate (opts c)));
    cbn [snd with_map _map]; eauto.
Qed.

Lemma set_clock_ok key val ttl0 now c :
  clock_ok now c -> clock_ok now (set key val ttl0 now c).
Proof.
  unfold clock_ok. intros H.
  assert (Hw : Forall (fun ke => t (snd ke) <= now /\ 0 <= a (snd ke))
                 (map_set key (fresh_entry (opts c) val ttl0 now) (_map c)))
    by (apply Forall_map_set; [assumption|simpl; lia]).
  destruct (set_map_cases key val ttl0 now c) as [->|[victim ->]];
    [assumption|now apply Forall_map_delete].
Qed.

Lemma get_clock_ok key touch now c :
  clock_ok now c -> clock_ok now (snd (get key touch now c)).
Proof.
  unfold clock_ok. intros H.
  destruct (get_map_cases key touch now c) as [->|(en & G & ->)];
    [assumption|].
  apply Forall_map_set; [assumption|].
  apply map_get_in in G. rewrite Forall_forall in H.
  destruct (H _ G) as [_ Ha]. simpl in *. lia.
Qed.

(** At a time that is not before the last one, an operation leaves every
    entry touched no later than now. *)
Lemma step_clock_ok i o now c :
  clock_ok now c -> clock_ok now (step i o now c).
Proof.
  intros H. destruct o; cbn [step]; try assumption.
  - now apply set_clock_ok.
  - now apply get_clock_ok.
  - rewrite peek_pure. assumption.
  - unfold del. destruct (map_get key (_map c)) as [en|]; [|assumption].
    unfold clock_ok. simpl.
    destruct (disposeEntry_frame key en "delete" c) as (_ & -> & _).
    now apply Forall_map_delete.
  - unfold clock_ok. destruct (clear_frame c) as [_ ->]. constructor.
  - unfold ttl. destruct (map_get key (_map c)) as [en|] eqn:G; [|assumption].
    destruct newTTL as [n|]; [|destruct (e en =? 0); assumption].
    unfold clock_ok. simpl. apply Forall_map_set; [assumption|].
    apply map_get_in in G. unfold clock_ok in H. rewrite Forall_forall in H.
    exact (H _ G).
  - unfold getOrSet.
    pose proof (get_clock_ok key true now c H) as H1.
    destruct (get key true now c) as [existing c1]. simpl in H1.
    destruct (negb (is_undefined existing)); [assumption|].
    destruct (map_get key (_pending c1)); assumption.
  - unfold settle.
    destruct (nth_error (flights c) p) as [fl|]; [|assumption].
    destruct (nat_get p (settled c)); [assumption|].
    destruct outcome as [val|err].
    + unfold clock_ok. simpl. now apply set_clock_ok.
    + pose proof (on_rejected_state i fl err now c) as Hst.
      destruct (on_rejected i fl err now c) as [r c1]. simpl in Hst.
      subst c1. exact H.
  - unfold on. now destruct (map_get event (_events c)).
  - unfold off. now destruct (map_get event (_events c)).
  - unfold clock_ok, _cleanup.
    destruct (sweep_spec now limit (_map c) 0 c) as (_ & -> & _).
    now apply Forall_delete_all.
  - unfold tick, _cleanup.
    pose proof (sweep_spec now None (_map c) 0 c) as (_ & Hm & _).
    destruct (sweep now None (_map c) 0 c) as [cleaned c1]. simpl in Hm.
    assert (H1 : clock_ok now c1)
      by (unfold clock_ok; rewrite Hm; now apply Forall_delete_all).
    now destruct ((cleaned =? 0)%nat && (size c1 =? 0)).
  - unfold dispose, clock_ok. cbn [with_pending with_events _map].
    destruct (clear_frame (with_timers false c)) as [_ ->]. constructor.
Qed.

(** The promises of a cache: markers, flights, settlements. *)
Lemma sweep_keeps_promises now limit todo :
  forall cleaned c,
    _pending (snd (sweep now limit todo cleaned c)) = _pending c
    /\ flights (snd (sweep now limit todo cleaned c)) = flights c
    /\ settled (snd (sweep now limit todo cleaned c)) = settled c.
Proof.
  induction todo as [|[key en] rest IH]; intros cleaned c; simpl; [auto|].
  destruct (expired now en); [|apply IH].
  set (c3 := _emit "expire" key (v en) "ttl"
               (with_map (map_delete key) (_disposeEntry key en "expire" c))).
  assert (H3 : _pending c3 = _pending c /\ flights c3 = flights c
               /\ settled c3 = settled c).
  { subst c3. unfold _emit, _disposeEntry.
    destruct (disposeValue (opts c)); simpl; auto. }
  destruct (match limit with
            | Some l => (l <=? S cleaned)%nat
            | None => false
            end); simpl; [assumption|].
  destruct (IH (S cleaned) c3) as (-> & -> & ->). assumption.
Qed.

Lemma dispose_all_keeps_promises reason (l : list (string * entry)) :
  forall c,
    let c' := fold_left
                (fun acc ke => _disposeEntry (fst ke) (snd ke) reason acc) l c in
    _pending c' = _pending c /\ flights c' = flights c
    /\ settled c' = settled c.
Proof.
  induction l as [|[k en] rest IH]; intros c; simpl; [auto|].
  destruct (IH (_disposeEntry k en reason c)) as (-> & -> & ->).
  destruct (disposeEntry_frame k en reason c)
    as (_ & _ & _ & -> & _ & -> & ->).
  auto.
Qed.

Lemma promises_ok_same c c' :
  _pending c' = _pending c -> flights c' = flights c ->
  settled c' = settled c -> promises_ok c -> promises_ok c'.
Proof. unfold promises_ok. now intros -> -> ->. Qed.

Lemma step_promises_ok i o now c : promises_ok c -> promises_ok (step i o now c).
Proof.
  intros H. destruct o; cbn [step]; try assumption.
  - destruct (set_keeps_promises key val ttl0 now c) as (Hp & Hf & Hs & _).
    exact (promises_ok_same _ _ Hp Hf Hs H).
  - destruct (get_frame key touch now c) as (_ & _ & _ & Hp & Hf & Hs & _).
    exact (promises_ok_same _ _ Hp Hf Hs H).
  - rewrite peek_pure. assumption.
  - unfold del. destruct (map_get key (_map c)) as [en|]; [|assumption].
    destruct (disposeEntry_frame key en "delete" c)
      as (_ & _ & _ & Hp & _ & Hf & Hs).
    now apply (promises_ok_same c).
  - destruct (dispose_all_keeps_promises "clear" (_map c) c) as (Hp & Hf & Hs).
    now apply (promises_ok_same c).
  - unfold ttl. destruct (map_get key (_map c)) as [en|]; [|assumption].
    destruct newTTL as [n|]; [assumption|].
    destruct (e en =? 0); assumption.
  - unfold getOrSet.
    destruct (get_frame key true now c) as (_ & _ & _ & Hp & Hf & Hs & _).
    destruct (get key true now c) as [existing c1]. simpl in Hp, Hf, Hs.
    pose proof (promises_ok_same _ _ Hp Hf Hs H) as H1.
    destruct (negb (is_undefined existing)); [assumption|].
    destruct (map_get key (_pending c1)); [assumption|].
    destruct H1 as [Hnd Hst]. split; simpl.
    + now apply map_set_nodup.
    + rewrite length_app. simpl. eapply Forall_impl; [|exact Hst].
      simpl. intros pr Hpr. lia.
  - unfold settle.
    destruct (nth_error (flights c) p) as [fl|] eqn:Hfl; [|assumption].
    destruct (nat_get p (settled c)); [assumption|].
    assert (Hlt : (p < List.length (flights c))%nat)
      by (apply nth_error_Some; congruence).
    destruct H as [Hnd Hst].
    destruct outcome as [val|err].
    + unfold on_fulfilled.
      destruct (set_keeps_promises (fl_key fl) val (Some (fl_ttl fl)) now c)
        as (Hp & Hf & Hs & _).
      split; simpl.
      * rewrite Hp. now apply map_delete_nodup.
      * rewrite Hf, Hs. apply Forall_app. split; [assumption|].
        repeat constructor. exact Hlt.
    + pose proof (on_rejected_state i fl err now c) as Hstate.
      destruct (on_rejected i fl err now c) as [r c1]. simpl in Hstate.
      subst c1. split; simpl.
      * now apply map_delete_nodup.
      * apply Forall_app. split; [assumption|]. repeat constructor. exact Hlt.
  - unfold on. now destruct (map_get event (_events c)).
  - unfold off. now destruct (map_get event (_events c)).
  - destruct (sweep_keeps_promises now limit (_map c) 0 c) as (Hp & Hf & Hs).
    now apply (promises_ok_same c).
  - unfold tick, _cleanup.
    destruct (sweep_keeps_promises now None (_map c) 0 c) as (Hp & Hf & Hs).
    destruct (sweep now None (_map c) 0 c) as [cleaned c1].
    simpl in Hp, Hf, Hs.
    pose proof (promises_ok_same _ _ Hp Hf Hs H) as H1.
    now destruct ((cleaned =? 0)%nat && (size c1 =? 0)).
  - destruct (dispose_all_keeps_promises "clear" (_map c) (with_timers false c))
      as (_ & Hf & Hs).
    destruct H as [_ Hst]. split; simpl; [constructor|].
    unfold dispose, clear. simpl in *. rewrite Hf, Hs. exact Hst.
Qed.

(** The hypotheses of the theorems above hold in every cache a program can
    build: a new cache run through any history whose clock does not go
    backwards. *)
Lemma reachable_ok i history :
  forall c now,
    store_ok c -> promises_ok c -> clock_ok now c ->
    (forall oz, In oz history -> now <= snd oz) ->
    StronglySorted (fun x y => snd x <= snd y) history ->
    store_ok (run i history c) /\ promises_ok (run i history c)
    /\ (forall last, (forall oz, In oz history -> snd oz <= last) ->
                     now <= last -> clock_ok last (run i history c)).
Proof.
  induction history as [|[op0 t1] rest IH]; intros c now Hs Hp Hc Hge Hsorted.
  - simpl. split; [assumption|]. split; [assumption|].
    intros last _ Hle. now apply (clock_ok_later now).
  - inversion Hsorted as [|? ? Hrest Hhd]; subst.
    assert (Ht1 : now <= t1) by (apply (Hge (op0, t1)); now left).
    pose proof (clock_ok_later now t1 c Hc Ht1) as Hc1.
    destruct (IH (step i op0 t1 c) t1) as (Hs' & Hp' & Hc').
    + now apply step_store_ok.
    + now apply step_promises_ok.
    + now apply step_clock_ok.
    + rewrite Forall_forall in Hhd. intros oz Hin. exact (Hhd oz Hin).
    + assumption.
    + unfold run in *. simpl. split; [assumption|]. split; [assumption|].
      intros last Hlast Hle. apply Hc'.
      * intros oz Hin. apply Hlast. now right.
      * apply (Hlast (op0, t1)). now left.
Qed.

(** In particular, after any history with timestamps in order, a cache made
    by [create] satisfies them. *)
Corollary reachable_from_create i o history last :
  StronglySorted (fun x y => snd x <= snd y) history ->
  (forall oz, In oz history -> 0 <= snd oz <= last) -> 0 <= last ->
  store_ok (run i history (create o))
  /\ promises_ok (run i history (create o))
  /\ clock_ok last (run i history (create o)).
Proof.
  intros Hsorted Hrange Hlast.
  destruct (create_ok o 0) as (Hs & Hp & Hc).
  destruct (reachable_ok i history (create o) 0 Hs Hp Hc) as (Hs' & Hp' & Hc').
  - intros oz Hin. now apply Hrange.
  - assumption.
  - split; [assumption|]. split; [assumption|].
    apply Hc'; [|assumption]. intros oz Hin. now apply Hrange.
Qed.

(** * Further properties of the cache *)

(** ** Reads and recency *)

Lemma get_by_classification key now c :
  match map_get key (_map c) with
  | None => forall touch, get key touch now c = (VUndefined, c)
  | Some en =>
      match classify (opts c) now en with
      | Dead => forall touch, get key touch now c = (VUndefined, c)
      | _ =>
          get key true now c
            = (v en,
               with_map (map_set key {| v := v en; e := e en; t := now;
                                        a := a en + 1 |}) c)
          /\ peek key now c = (v en, c)
      end
  end.
Proof.
  unfold peek, get, classify, expired, _touch.
  destruct (map_get key (_map c)) as [en|]; [|reflexivity].
  destruct (Z.eqb_spec (e en) 0); simpl; [auto|].
  destruct (Z.leb_spec now (e en)), (Z.ltb_spec (e en) now); try lia;
    simpl; [auto|].
  destruct (allowStale (opts c)); simpl; [auto|].
  destruct ((0 <? staleWhileRevalidate (opts c))
            && (now - e en <? staleWhileRevalidate (opts c))); auto.
Qed.

(** X1.  A read touches only what it serves.  When the key is absent or its
    entry is dead, [get] answers [undefined] and leaves the cache as it was:
    a dead entry is neither touched nor removed.  Otherwise [get] answers the
    stored value and, in place, sets [lastTouch] to now and adds one to
    [accessCount], while [peek] answers the same value and changes
    nothing. *)
Theorem get_touches_only_what_it_serves (key : string) (now : Z) (c : cache) :
  match map_get key (_map c) with
  | None => forall touch, get key touch now c = (VUndefined, c)
  | Some en =>
      match classify (opts c) now en with
      | Dead => forall touch, get key touch now c = (VUndefined, c)
      | _ =>
          get key true now c
            = (v en,
               with_map (map_set key {| v := v en; e := e en; t := now;
                                        a := a en + 1 |}) c)
          /\ peek key now c = (v en, c)
      end
  end.
Proof. exact (get_by_classification key now c). Qed.

(** ** Deleting *)

Lemma dispose_all_trace reason (l : list (string * entry)) :
  forall c,
    trace (fold_left
             (fun acc ke => _disposeEntry (fst ke) (snd ke) reason acc) l c)
    = trace c ++ (if disposeValue (opts c)
                  then map (fun ke => Disposed (v (snd ke)) (fst ke) reason) l
                  else []).
Proof.
  induction l as [|[k en] rest IH]; intros c; simpl.
  - destruct (disposeValue (opts c)); now rewrite app_nil_r.
  - rewrite IH, disposeEntry_trace.
    destruct (disposeEntry_frame k en reason c) as (-> & _).
    destruct (disposeValue (opts c)); simpl; rewrite <- app_assoc; reflexivity.
Qed.

(** X2.  [del] removes its key and nothing else: afterwards the key is
    absent ([get] answers [undefined], [has] answers [false]), every other
    key maps to what it mapped to, and the disposal hook, when configured,
    has been called once with the removed value and reason ["delete"].  On
    an absent key [del] does nothing at all. *)
Theorem del_removes_only_its_key (key : string) (c : cache) :
  store_ok c ->
  let c' := del key c in
  map_get key (_map c') = None
  /\ (forall k, k <> key -> map_get k (_map c') = map_get k (_map c))
  /\ (forall touch now, fst (get key touch now c') = VUndefined)
  /\ (forall i now, has i key now c' = false)
  /\ trace c' = trace c ++ match map_get key (_map c) with
                           | Some en => if disposeValue (opts c)
                                        then [Disposed (v en) key "delete"]
                                        else []
                           | None => []
                           end
  /\ (map_get key (_map c) = None -> c' = c).
Proof.
  intros Hok c'. subst c'.
  assert (Hm : _map (del key c) = map_delete key (_map c)
               /\ trace (del key c)
                  = trace c ++ match map_get key (_map c) with
                               | Some en => if disposeValue (opts c)
                                            then [Disposed (v en) key "delete"]
                                            else []
                               | None => []
                               end
               /\ (map_get key (_map c) = None -> del key c = c)).
  { unfold del. destruct (map_get key (_map c)) as [en|] eqn:G.
    - cbn [with_map _map trace]. rewrite disposeEntry_trace.
      destruct (disposeEntry_frame key en "delete" c) as (_ & -> & _).
      repeat split. discriminate.
    - rewrite app_nil_r. repeat split.
      clear Hok. induction (_map c) as [|[k y] rest IH]; simpl in *;
        [reflexivity|].
      destruct (String.eqb key k); [discriminate|]. now rewrite <- IH. }
  destruct Hm as (Hm & Ht & Habs).
  assert (Hgone : map_get key (_map (del key c)) = None)
    by (rewrite Hm; now apply map_get_delete_same).
  split; [assumption|]. split; [|split; [|split; [|split]]]; try assumption.
  - intros k Hk. rewrite Hm. apply map_get_delete_other. congruence.
  - intros touch now. now rewrite get_absent.
  - intros i now. unfold has. now rewrite Hgone.
Qed.

Lemma del_removes_only_its_key_witness :
  let c' := del "b" c_abc in
  map_get "b" (_map c') = None
  /\ (forall k, k <> "b" -> map_get k (_map c') = map_get k (_map c_abc))
  /\ (forall touch now, fst (get "b" touch now c') = VUndefined)
  /\ (forall i now, has i "b" now c' = false)
  /\ trace c' = trace c_abc ++ [Disposed (VStr "two") "b" "delete"]
  /\ (map_get "b" (_map c_abc) = None -> c' = c_abc).
Proof.
  apply (del_removes_only_its_key "b" c_abc).
  unfold store_ok. simpl. repeat constructor; simpl; intuition discriminate.
Defined.

(** X3.  [clear] empties the store and disposes of every entry, in
    iteration order, with reason ["clear"]; it notifies no observer.  On an
    empty cache it changes nothing. *)
Theorem clear_disposes_every_entry (c : cache) :
  _map (clear c) = []
  /\ size (clear c) = 0
  /\ trace (clear c)
     = trace c ++ (if disposeValue (opts c)
                   then map (fun ke => Disposed (v (snd ke)) (fst ke) "clear")
                          (_map c)
                   else [])
  /\ (forall key touch now, fst (get key touch now (clear c)) = VUndefined)
  /\ match _map c with [] => clear c = c | _ => True end.
Proof.
  split; [reflexivity|]. split; [reflexivity|]. split; [|split].
  - unfold clear. cbn [with_map trace]. apply dispose_all_trace.
  - intros key touch now. now rewrite get_absent.
  - destruct c as [o m tm ev pe fl se lo tr]. simpl.
    destruct m; [reflexivity|exact I].
Qed.

(** ** Writing and reading back *)

(** X4.  Without stale policies ([allowStale] off, no stale-while-revalidate
    window), a value written at time t0 >= 0 with a ttl > 0 is read back,
    whatever reads happen in between, at every time up to and including
    [t0 + ttl], and is not found after it. *)
Theorem set_then_get_until_expiry
  (key : string) (val : value) (ttl0 : option Z) (t0 now : Z) (touch : bool)
  (reads : list read) (c : cache) :
  allowStale (opts c) = false ->
  staleWhileRevalidate (opts c) <= 0 ->
  0 < effective_ttl (opts c) ttl0 -> 0 <= t0 -> clock_ok t0 c ->
  let c' := run_reads reads (set key val ttl0 t0 c) in
  let expiresAt := t0 + effective_ttl (opts c) ttl0 in
  (now <= expiresAt -> fst (get key touch now c') = val)
  /\ (expiresAt < now -> fst (get key touch now c') = VUndefined).
Proof.
  intros Has Hw Httl Ht0 Hck c' expiresAt.
  assert (Hget : map_get key (_map (set key val ttl0 t0 c))
                 = Some {| v := val; e := expiresAt; t := t0; a := 0 |}).
  { rewrite (set_get_same key val ttl0 t0 c Hck). unfold fresh_entry.
    destruct (Z.ltb_spec 0 (effective_ttl (opts c) ttl0)); [reflexivity|lia]. }
  destruct (run_reads_frame reads (set key val ttl0 t0 c) key) as [Ho Hp].
  fold c' in Ho, Hp.
  assert (Hopts : opts c' = opts c) by (rewrite Ho; apply set_opts).
  assert (Hpay : payload key c' = Some (val, expiresAt))
    by (rewrite Hp; unfold payload; now rewrite Hget).
  pose proof (get_by_payload key touch now c' val expiresAt Hpay) as Hg.
  assert (Hexp : 0 < expiresAt) by (unfold expiresAt; lia).
  clearbody expiresAt. rewrite Hopts in Hg.
  unfold classify in Hg. simpl in Hg. rewrite Has in Hg.
  destruct (Z.eqb_spec expiresAt 0); [lia|]. simpl in Hg.
  split; intros Hnow; rewrite Hg.
  - destruct (Z.leb_spec now expiresAt); [reflexivity|lia].
  - destruct (Z.leb_spec now expiresAt); [lia|].
    destruct (Z.ltb_spec 0 (staleWhileRevalidate (opts c))); [lia|].
    reflexivity.
Qed.

Lemma set_then_get_until_expiry_witness :
  let c' := run_reads [{| r_key := "a"; r_touch := true; r_now := 40 |}]
              (set "x" (VNum 7) (Some 100) 30 c_abc) in
  (130 <= 30 + 100 -> fst (get "x" true 130 c') = VNum 7)
  /\ (30 + 100 < 130 -> fst (get "x" true 130 c') = VUndefined).
Proof.
  apply (set_then_get_until_expiry "x" (VNum 7) (Some 100) 30 130 true
           [{| r_key := "a"; r_touch := true; r_now := 40 |}] c_abc).
  - reflexivity.
  - simpl. lia.
  - simpl. lia.
  - lia.
  - repeat (constructor; [simpl; lia|]). constructor.
Defined.

(** X5.  With [maxSize] <= 0 the cache is unbounded: [set] never evicts.
    The store after the write is the store before with the key overwritten
    in place or appended, every other key maps to what it mapped to, and no
    hook or observer is called. *)
Theorem unbounded_set_never_evicts
  (key : string) (val : value) (ttl0 : option Z) (now : Z) (c : cache) :
  maxSize (opts c) <= 0 ->
  let c' := set key val ttl0 now c in
  _map c' = map_set key (fresh_entry (opts c) val ttl0 now) (_map c)
  /\ (forall k, k <> key -> map_get k (_map c') = map_get k (_map c))
  /\ trace c' = trace c
  /\ size c' = (if map_has key (_map c) then size c else size c + 1).
Proof.
  intros Hmax c'. subst c'.
  assert (Hset : set key val ttl0 now c
                 = with_map (map_set key (fresh_entry (opts c) val ttl0 now)) c).
  { destruct (map_get key (_map c)) as [en|] eqn:G.
    - now rewrite (set_present _ _ _ _ _ _ G).
    - rewrite (set_absent _ _ _ _ _ G). cbv zeta.
      destruct (Z.ltb_spec 0 (maxSize (opts c))); [lia|reflexivity]. }
  split; [now rewrite Hset|]. split; [|split].
  - intros k Hk. rewrite Hset. simpl. apply map_get_set_other. congruence.
  - now rewrite Hset.
  - rewrite set_size. destruct (map_has key (_map c)); [reflexivity|].
    destruct (Z.ltb_spec 0 (maxSize (opts c))); [lia|reflexivity].
Qed.

Lemma unbounded_set_never_evicts_witness :
  let c' := set "d" (VNum 4) None 15 c_abc in
  _map c' = map_set "d" (fresh_entry (opts c_abc) (VNum 4) None 15) (_map c_abc)
  /\ (forall k, k <> "d" -> map_get k (_map c') = map_get k (_map c_abc))
  /\ trace c' = trace c_abc
  /\ size c' = size c_abc + 1.
Proof.
  apply (unbounded_set_never_evicts "d" (VNum 4) None 15 c_abc).
  simpl. lia.
Defined.

(** ** The sweep, counted *)

Lemma reaped_unlimited now todo :
  forall cleaned,
    reaped now None todo cleaned
    = filter (fun ke => expired now (snd ke)) todo.
Proof.
  induction todo as [|[k en] rest IH]; intros cleaned; simpl; [reflexivity|].
  destruct (expired now en); [now rewrite IH|apply IH].
Qed.

Lemma delete_all_skip (ke : string * entry) r :
  forall m, ~ In (fst ke) (map_keys r) ->
            delete_all r (ke :: m) = ke :: delete_all r m.
Proof.
  induction r as [|[k en] rest IH]; intros m Hnin; [reflexivity|].
  simpl in Hnin. unfold delete_all in *. simpl. destruct ke as [k0 en0].
  simpl in *. destruct (String.eqb_spec k k0) as [->|Hne]; [tauto|].
  apply IH. tauto.
Qed.

Lemma delete_all_filter (f : string * entry -> bool) m :
  NoDup (map_keys m) ->
  delete_all (filter f m) m = filter (fun ke => negb (f ke)) m.
Proof.
  induction m as [|[k en] rest IH]; intros Hnd; [reflexivity|].
  inversion Hnd as [|? ? Hk Hrest]; subst. simpl.
  destruct (f (k, en)); simpl.
  - unfold delete_all in *. simpl. rewrite String.eqb_refl. now apply IH.
  - rewrite delete_all_skip; [now rewrite IH|].
    simpl. intros Hin. apply Hk. unfold map_keys in *.
    apply in_map_iff in Hin. destruct Hin as (ke & Hfst & Hin).
    apply filter_In in Hin. apply in_map_iff. exists ke. tauto.
Qed.

Lemma filter_filter_negb {A : Type} (f : A -> bool) (l : list A) :
  filter f (filter (fun x => negb (f x)) l) = [].
Proof.
  induction l as [|x rest IH]; simpl; [reflexivity|].
  destruct (f x) eqn:E; simpl; [assumption|]. now rewrite E.
Qed.

Lemma stats_expired_count now c :
  st_expired (stats now c)
  = Z.of_nat (List.length (filter (fun ke => expired now (snd ke)) (_map c))).
Proof.
  unfold stats.
  assert (H : forall (m : list (string * entry)) (n b : Z),
            fst (fold_left
                   (fun acc ke =>
                      ((if expired now (snd ke) then fst acc + 1 else fst acc),
                       snd acc + _roughSizeOf (v (snd ke)))) m (n, b))
            = n + Z.of_nat (List.length
                              (filter (fun ke => expired now (snd ke)) m))).
  { induction m as [|[k en] rest IH]; intros n b; simpl; [lia|].
    rewrite IH. destruct (expired now en); simpl; lia. }
  specialize (H (_map c) 0 0).
  destruct (fold_left _ (_map c) (0, 0)) as [n b]. simpl in *. lia.
Qed.

(** X6.  A sweep without limit removes exactly the entries whose expiry is
    past ([e <> 0] and [e < now]), whatever [allowStale] and the
    stale-while-revalidate window say, keeps the others in their order, and
    returns how many it removed; each removal called the hook with
    ["expire"] and the observers of [expire] with ["ttl"], in order. *)
Theorem cleanup_removes_exactly_the_expired (now : Z) (c : cache) :
  store_ok c ->
  let gone := filter (fun ke => expired now (snd ke)) (_map c) in
  let c' := snd (_cleanup None now c) in
  _map c' = filter (fun ke => negb (expired now (snd ke))) (_map c)
  /\ fst (_cleanup None now c) = List.length gone
  /\ size c' = size c - Z.of_nat (List.length gone)
  /\ trace c' = trace c ++ flat_map (expiry_effects c) gone
  /\ (forall key en, map_get key (_map c') = Some en ->
                     expired now en = false).
Proof.
  intros Hok gone c'. subst gone c'. unfold _cleanup.
  destruct (sweep_spec now None (_map c) 0 c) as (Hn & Hm & Ht & _).
  cbv zeta in *. rewrite reaped_unlimited in *.
  rewrite (delete_all_filter (fun ke => expired now (snd ke)) (_map c) Hok)
    in Hm.
  split; [assumption|]. split; [assumption|]. split; [|split].
  - unfold size. rewrite Hm.
    pose proof (filter_length (fun ke => expired now (snd ke)) (_map c)).
    lia.
  - assumption.
  - intros key en G. rewrite Hm in G. apply map_get_in in G.
    apply filter_In in G. destruct G as [_ G]. simpl in G.
    now destruct (expired now en).
Qed.

Lemma cleanup_removes_exactly_the_expired_witness :
  let gone := filter (fun ke => expired 40 (snd ke)) (_map c_abc) in
  let c' := snd (_cleanup None 40 c_abc) in
  _map c' = filter (fun ke => negb (expired 40 (snd ke))) (_map c_abc)
  /\ fst (_cleanup None 40 c_abc) = List.length gone
  /\ size c' = size c_abc - Z.of_nat (List.length gone)
  /\ trace c' = trace c_abc ++ flat_map (expiry_effects c_abc) gone
  /\ (forall key en, map_get key (_map c') = Some en ->
                     expired 40 en = false).
Proof.
  apply (cleanup_removes_exactly_the_expired 40 c_abc).
  unfold store_ok. simpl. repeat constructor; simpl; intuition discriminate.
Defined.

Lemma reaped_limited_length now l todo :
  forall cleaned,
    List.length (reaped now (Some l) todo cleaned)
    = Nat.min (Nat.max (l - cleaned) 1)
        (List.length (filter (fun ke => expired now (snd ke)) todo)).
Proof.
  induction todo as [|[k en] rest IH]; intros cleaned; simpl; [lia|].
  destruct (expired now en); simpl; [|apply IH].
  destruct (Nat.leb_spec l (S cleaned)); simpl; [lia|].
  rewrite IH. lia.
Qed.

Lemma reaped_keys_nodup now limit todo :
  forall cleaned, NoDup (map_keys todo) ->
                  NoDup (map_keys (reaped now limit todo cleaned)).
Proof.
  induction todo as [|[k en] rest IH]; intros cleaned Hnd; simpl;
    [constructor|].
  inversion Hnd as [|? ? Hk Hrest]; subst.
  destruct (expired now en); [|now apply IH].
  destruct (match limit with
            | Some l => (l <=? S cleaned)%nat
            | None => false
            end); simpl.
  - repeat constructor. simpl. tauto.
  - constructor; [|now apply IH].
    intros Hin. apply Hk. unfold map_keys in *. apply in_map_iff in Hin.
    destruct Hin as (ke & Hfst & Hin). apply reaped_incl in Hin.
    apply in_map_iff. exists ke. tauto.
Qed.

Lemma delete_all_length r :
  forall m, NoDup (map_keys r) -> incl (map_keys r) (map_keys m) ->
            (List.length (delete_all r m) + List.length r
             = List.length m)%nat.
Proof.
  induction r as [|[k en] rest IH]; intros m Hnd Hincl; simpl; [lia|].
  inversion Hnd as [|? ? Hk Hrest]; subst.
  unfold delete_all in *. simpl.
  destruct (in_keys_map_get k m) as [x G]; [apply Hincl; now left|].
  pose proof (map_delete_length_present k x m G) as Hlen.
  rewrite <- Hlen, <- (IH (map_delete k m) Hrest); [lia|].
  intros k' Hin.
  assert (Hne : k <> k') by (intros ->; contradiction).
  destruct (in_keys_map_get k' m) as [y Gy]; [apply Hincl; now right|].
  apply (map_get_some_in_keys k' y).
  now rewrite map_get_delete_other.
Qed.

(** X7.  A sweep with a limit stops after the removal that reaches it: it
    removes [min(max(limit, 1), expired)] entries, where [expired] counts the
    entries whose expiry is past.  The test comes after the removal, so a
    limit of 0 still removes one entry. *)
Theorem cleanup_limit_bounds_removals (l : nat) (now : Z) (c : cache) :
  store_ok c ->
  let expiredCount :=
    List.length (filter (fun ke => expired now (snd ke)) (_map c)) in
  fst (_cleanup (Some l) now c) = Nat.min (Nat.max l 1) expiredCount
  /\ size (snd (_cleanup (Some l) now c))
     = size c - Z.of_nat (Nat.min (Nat.max l 1) expiredCount).
Proof.
  intros Hok expiredCount. subst expiredCount. unfold _cleanup.
  destruct (sweep_spec now (Some l) (_map c) 0 c) as (Hn & Hm & _).
  cbv zeta in *.
  pose proof (reaped_limited_length now l (_map c) 0%nat) as Hlen.
  rewrite Nat.sub_0_r in Hlen.
  split; [rewrite Hn, Hlen; reflexivity|].
  unfold size. rewrite Hm.
  pose proof (delete_all_length (reaped now (Some l) (_map c) 0) (_map c)
                (reaped_keys_nodup now (Some l) (_map c) 0%nat Hok)) as Hd.
  rewrite Hlen in Hd. rewrite <- Hd; [lia|].
  intros k Hin. unfold map_keys in *. apply in_map_iff in Hin.
  destruct Hin as (ke & Hfst & Hin). apply reaped_incl in Hin.
  apply in_map_iff. exists ke. tauto.
Qed.

Lemma cleanup_limit_bounds_removals_witness :
  fst (_cleanup (Some 0%nat) 40 c_abc) = 1%nat
  /\ size (snd (_cleanup (Some 0%nat) 40 c_abc)) = size c_abc - 1.
Proof.
  apply (cleanup_limit_bounds_removals 0 40 c_abc).
  unfold store_ok. simpl. repeat constructor; simpl; intuition discriminate.
Defined.

(** X8.  [stats] counts as expired exactly the entries the next unlimited
    sweep removes, reports the size of the store, and counts none right after
    such a sweep. *)
Theorem stats_expired_is_what_a_sweep_removes (now : Z) (c : cache) :
  store_ok c ->
  st_expired (stats now c) = Z.of_nat (fst (_cleanup None now c))
  /\ st_size (stats now c) = size c
  /\ st_expired (stats now (snd (_cleanup None now c))) = 0
  /\ st_size (stats now (snd (_cleanup None now c)))
     = size c - st_expired (stats now c).
Proof.
  intros Hok.
  unfold _cleanup.
  destruct (sweep_spec now None (_map c) 0 c) as (Hn & Hm & _).
  cbv zeta in *. rewrite reaped_unlimited in *.
  rewrite (delete_all_filter (fun ke => expired now (snd ke)) (_map c) Hok)
    in Hm.
  rewrite !stats_expired_count, Hn, Hm.
  assert (Hst : forall c0, st_size (stats now c0) = size c0).
  { intros c0. unfold stats. now destruct (fold_left _ (_map c0) (0, 0)). }
  rewrite !Hst. unfold size. rewrite Hm.
  split; [reflexivity|]. split; [reflexivity|]. split.
  - now rewrite filter_filter_negb.
  - pose proof (filter_length (fun ke => expired now (snd ke)) (_map c)).
    lia.
Qed.

Lemma stats_expired_is_what_a_sweep_removes_witness :
  st_expired (stats 40 c_abc) = Z.of_nat (fst (_cleanup None 40 c_abc))
  /\ st_size (stats 40 c_abc) = size c_abc
  /\ st_expired (stats 40 (snd (_cleanup None 40 c_abc))) = 0
  /\ st_size (stats 40 (snd (_cleanup None 40 c_abc)))
     = size c_abc - st_expired (stats 40 c_abc).
Proof.
  apply (stats_expired_is_what_a_sweep_removes 40 c_abc).
  unfold store_ok. simpl. repeat constructor; simpl; intuition discriminate.
Defined.

(** ** The cleanup timer *)

Lemma evictLRU_timers c : _timers (_evictLRU c) = _timers c.
Proof.
  unfold _evictLRU. destruct (scan (_map c) None None) as [k|]; [|reflexivity].
  destruct (map_get k (_map c)) as [en|]; [|reflexivity].
  unfold _emit, _disposeEntry. now destruct (disposeValue (opts c)).
Qed.

Lemma set_timers key val ttl0 now c :
  _timers (set key val ttl0 now c) = _timers c.
Proof.
  unfold set. destruct (map_has key (_map c)); [reflexivity|]. cbv zeta.
  match goal with
  | |- context [if ?b then _ else _] => destruct b
  end; [now rewrite evictLRU_timers|reflexivity].
Qed.

Lemma get_timers key touch now c :
  _timers (snd (get key touch now c)) = _timers c.
Proof.
  unfold get. destruct (map_get key (_map c)) as [en|]; [|reflexivity].
  destruct (expired now en), (allowStale (opts c)), touch,
    ((0 <? staleWhileRevalidate (opts c))
     && (now - e en <? staleWhileRevalidate (opts c))); reflexivity.
Qed.

Lemma sweep_timers now limit todo :
  forall cleaned c,
    _timers (snd (sweep now limit todo cleaned c)) = _timers c.
Proof.
  induction todo as [|[key en] rest IH]; intros cleaned c; simpl;
    [reflexivity|].
  destruct (expired now en); [|apply IH].
  assert (H3 : _timers (_emit "expire" key (v en) "ttl"
                          (with_map (map_delete key)
                             (_disposeEntry key en "expire" c))) = _timers c)
    by (unfold _emit, _disposeEntry; now destruct (disposeValue (opts c))).
  destruct (match limit with
            | Some l => (l <=? S cleaned)%nat
            | None => false
            end); simpl; [assumption|].
  now rewrite IH.
Qed.

Lemma dispose_all_timers reason (l : list (string * entry)) :
  forall c,
    _timers (fold_left
               (fun acc ke => _disposeEntry (fst ke) (snd ke) reason acc) l c)
    = _timers c.
Proof.
  induction l as [|[k en] rest IH]; intros c; simpl; [reflexivity|].
  rewrite IH. unfold _disposeEntry. now destruct (disposeValue (opts c)).
Qed.

Lemma dispose_timers c : _timers (dispose c) = false.
Proof.
  unfold dispose, clear. cbn [with_pending with_events with_map _timers].
  now rewrite dispose_all_timers.
Qed.

Lemma step_timers_off i o now c :
  _timers c = false -> _timers (step i o now c) = false.
Proof.
  intros H. destruct o; cbn [step]; try assumption.
  - now rewrite set_timers.
  - now rewrite get_timers.
  - now rewrite peek_pure.
  - unfold del. destruct (map_get key (_map c)) as [en|]; [|assumption].
    unfold _disposeEntry. now destruct (disposeValue (opts c)).
  - unfold clear. cbn [with_map _timers]. now rewrite dispose_all_timers.
  - unfold ttl. destruct (map_get key (_map c)) as [en|]; [|assumption].
    destruct newTTL; [assumption|]. now destruct (e en =? 0).
  - unfold getOrSet. pose proof (get_timers key true now c) as Hg.
    destruct (get key true now c) as [existing c1]. simpl in Hg.
    destruct (negb (is_undefined existing)); [simpl; congruence|].
    destruct (map_get key (_pending c1)); simpl; congruence.
  - unfold settle.
    destruct (nth_error (flights c) p) as [fl|]; [|assumption].
    destruct (nat_get p (settled c)); [assumption|].
    destruct outcome as [val|err].
    + simpl. now rewrite set_timers.
    + pose proof (on_rejected_state i fl err now c) as Hst.
      destruct (on_rejected i fl err now c) as [r c1]. simpl in Hst.
      subst c1. assumption.
  - unfold on. now destruct (map_get event (_events c)).
  - unfold off. now destruct (map_get event (_events c)).
  - unfold _cleanup. now rewrite sweep_timers.
  - unfold tick, _cleanup. pose proof (sweep_timers now None (_map c) 0 c) as Hs.
    destruct (sweep now None (_map c) 0 c) as [cleaned c1]. simpl in Hs.
    destruct ((cleaned =? 0)%nat && (size c1 =? 0)); simpl; congruence.
  - apply dispose_timers.
Qed.

(** X9.  The interval is armed by the constructor only.  A tick that finds
    an empty store and nothing to clean clears it, as [dispose] does, and
    from then on no operation arms it again: in particular a later [set]
    does not restart the cleanup. *)
Theorem timer_is_never_rearmed
  (i : impl) (history : list (op * Z)) (now : Z) (c : cache) :
  _map c = [] ->
  _timers (tick now c) = false
  /\ _timers (dispose c) = false
  /\ _timers (run i history (tick now c)) = false
  /\ _timers (run i history (dispose c)) = false.
Proof.
  intros Hempty.
  assert (Htick : _timers (tick now c) = false).
  { unfold tick, _cleanup. rewrite Hempty. simpl. unfold size.
    rewrite Hempty. reflexivity. }
  assert (Hrun : forall c0, _timers c0 = false ->
                            _timers (run i history c0) = false).
  { unfold run. induction history as [|[o t1] rest IH]; intros c0 H0;
      [assumption|].
    simpl. apply IH. now apply step_timers_off. }
  split; [assumption|]. split; [apply dispose_timers|].
  split; apply Hrun; [assumption|apply dispose_timers].
Qed.

Lemma timer_is_never_rearmed_witness :
  let c := create DEFAULTS in
  let history := [(OpSet "k" (VNum 1) (Some 5), 20); (OpGet "k" true, 21);
                  (OpTick, 10020)] in
  _timers (tick 10000 c) = false
  /\ _timers (dispose c) = false
  /\ _timers (run TS history (tick 10000 c)) = false
  /\ _timers (run TS history (dispose c)) = false.
Proof.
  apply (timer_is_never_rearmed TS
           [(OpSet "k" (VNum 1) (Some 5), 20); (OpGet "k" true, 21);
            (OpTick, 10020)] 10000 (create DEFAULTS)).
  reflexivity.
Defined.

(** ** More on [getOrSet] *)

Lemma getOrSet_hit key loader ttl0 now c en :
  map_get key (_map c) = Some en ->
  classify (opts c) now en <> Dead ->
  v en <> VUndefined ->
  getOrSet key loader ttl0 now c
    = (Immediate (v en),
       with_map (map_set key {| v := v en; e := e en; t := now;
                                a := a en + 1 |}) c)
  /\ loads (snd (getOrSet key loader ttl0 now c)) = loads c
  /\ flights (snd (getOrSet key loader ttl0 now c)) = flights c
  /\ _pending (snd (getOrSet key loader ttl0 now c)) = _pending c.
Proof.
  intros G Hc Hv.
  pose proof (get_by_classification key now c) as H.
  rewrite G in H.
  assert (Hg : get key true now c
               = (v en, with_map (map_set key {| v := v en; e := e en;
                                                 t := now; a := a en + 1 |}) c)).
  { destruct (classify (opts c) now en); try congruence; apply H. }
  unfold getOrSet. rewrite Hg.
  destruct (v en); try congruence; simpl; auto.
Qed.

(** X10.  When the key maps to an entry that is not dead and whose value is
    not [undefined], [getOrSet] answers that value at once: it calls no
    loader, registers no flight, and touches the entry like [get]. *)
Theorem getOrSet_hit_calls_no_loader
  (key : string) (loader : nat) (ttl0 : option Z) (now : Z) (c : cache)
  (en : entry) :
  map_get key (_map c) = Some en ->
  classify (opts c) now en <> Dead ->
  v en <> VUndefined ->
  getOrSet key loader ttl0 now c
    = (Immediate (v en),
       with_map (map_set key {| v := v en; e := e en; t := now;
                                a := a en + 1 |}) c)
  /\ loads (snd (getOrSet key loader ttl0 now c)) = loads c
  /\ flights (snd (getOrSet key loader ttl0 now c)) = flights c
  /\ _pending (snd (getOrSet key loader ttl0 now c)) = _pending c.
Proof. exact (getOrSet_hit key loader ttl0 now c en). Qed.

Lemma getOrSet_hit_calls_no_loader_witness :
  getOrSet "a" 9 None 50 c_abc
    = (Immediate (VNum 1),
       with_map (map_set "a" {| v := VNum 1; e := 0; t := 50; a := 1 |}) c_abc)
  /\ loads (snd (getOrSet "a" 9 None 50 c_abc)) = loads c_abc
  /\ flights (snd (getOrSet "a" 9 None 50 c_abc)) = flights c_abc
  /\ _pending (snd (getOrSet "a" 9 None 50 c_abc)) = _pending c_abc.
Proof.
  apply (getOrSet_hit_calls_no_loader "a" 9 None 50 c_abc
           {| v := VNum 1; e := 0; t := 10; a := 0 |}).
  - reflexivity.
  - discriminate.
  - discriminate.
Defined.

Lemma settle_unfold i p out now c fl :
  nth_error (flights c) p = Some fl -> nat_get p (settled c) = None ->
  settle i p out now c
  = settle_with p
      (fst (match out with
            | Fulfilled val => on_fulfilled fl val now c
            | Rejected err => on_rejected i fl err now c
            end))
      (snd (match out with
            | Fulfilled val => on_fulfilled fl val now c
            | Rejected err => on_rejected i fl err now c
            end)).
Proof.
  intros Hfl Hns. unfold settle. rewrite Hfl, Hns.
  now destruct (match out with
                | Fulfilled val => on_fulfilled fl val now c
                | Rejected err => on_rejected i fl err now c
                end).
Qed.

(** The store after a loader succeeded, under a clock that does not run
    backwards. *)
Lemma settle_fulfilled_store i p val now c fl :
  nth_error (flights c) p = Some fl -> nat_get p (settled c) = None ->
  clock_ok now c ->
  map_get (fl_key fl) (_map (settle i p (Fulfilled val) now c))
  = Some (fresh_entry (opts c) val (Some (fl_ttl fl)) now)
  /\ opts (settle i p (Fulfilled val) now c) = opts c
  /\ loads (settle i p (Fulfilled val) now c) = loads c
  /\ flights (settle i p (Fulfilled val) now c) = flights c
  /\ _pending (settle i p (Fulfilled val) now c)
     = map_delete (fl_key fl) (_pending c)
  /\ nat_get p (settled (settle i p (Fulfilled val) now c))
     = Some (Fulfilled val).
Proof.
  intros Hfl Hns Hck. rewrite (settle_unfold i p _ now c fl Hfl Hns).
  unfold on_fulfilled, settle_with. simpl.
  destruct (set_keeps_promises (fl_key fl) val (Some (fl_ttl fl)) now c)
    as (-> & -> & -> & ->).
  rewrite set_get_same by assumption.
  rewrite set_opts, (nat_get_app_new p _ _ Hns). auto 10.
Qed.

(** X11.  When the loader of a flight succeeds with a value other than
    [undefined], the value is written under the flight's key with the
    flight's ttl, over whatever a direct [set] put there meanwhile (the last
    write wins), the flight's promise is fulfilled with it, and a caller that
    arrives afterwards, while the entry has not expired, gets the value at
    once: no loader runs for it. *)
Theorem settled_value_serves_the_next_wave
  (i : impl) (p : nat) (val : value) (tS now : Z) (loader : nat)
  (ttl0 : option Z) (c : cache) (fl : flight) :
  nth_error (flights c) p = Some fl -> nat_get p (settled c) = None ->
  clock_ok tS c -> 0 <= tS ->
  val <> VUndefined ->
  fl_ttl fl <= 0 \/ now <= tS + fl_ttl fl ->
  let c1 := settle i p (Fulfilled val) tS c in
  resolution c1 (Awaits p) = Some (Fulfilled val)
  /\ map_get (fl_key fl) (_map c1)
     = Some {| v := val;
               e := (if 0 <? fl_ttl fl then tS + fl_ttl fl else 0);
               t := tS; a := 0 |}
  /\ fst (getOrSet (fl_key fl) loader ttl0 now c1) = Immediate val
  /\ loads (snd (getOrSet (fl_key fl) loader ttl0 now c1)) = loads c.
Proof.
  intros Hfl Hns Hck HtS Hval Hlive c1.
  destruct (settle_fulfilled_store i p val tS c fl Hfl Hns Hck)
    as (Hg & Ho & Hl & _ & _ & Hr).
  fold c1 in Hg, Ho, Hl, Hr. unfold fresh_entry, effective_ttl in Hg.
  split; [exact Hr|]. split; [exact Hg|].
  set (en := {| v := val; e := (if 0 <? fl_ttl fl then tS + fl_ttl fl else 0);
                t := tS; a := 0 |}) in *.
  assert (Hc : classify (opts c1) now en <> Dead).
  { unfold classify, en. simpl.
    destruct (Z.ltb_spec 0 (fl_ttl fl)); simpl; [|discriminate].
    destruct (Z.eqb_spec (tS + fl_ttl fl) 0); [lia|].
    destruct (Z.leb_spec now (tS + fl_ttl fl)); [discriminate|lia]. }
  destruct (getOrSet_hit (fl_key fl) loader ttl0 now c1 en Hg Hc Hval)
    as (Hhit & Hloads & _).
  rewrite Hhit, <- Hl. split; [reflexivity|].
  rewrite Hhit in Hloads. exact Hloads.
Qed.

Lemma settled_value_serves_the_next_wave_witness :
  let c1 := settle TS 0 (Fulfilled (VStr "loaded")) 60 c_flight in
  resolution c1 (Awaits 0) = Some (Fulfilled (VStr "loaded"))
  /\ map_get "q" (_map c1)
     = Some {| v := VStr "loaded"; e := 160; t := 60; a := 0 |}
  /\ fst (getOrSet "q" 2 None 100 c1) = Immediate (VStr "loaded")
  /\ loads (snd (getOrSet "q" 2 None 100 c1)) = loads c_flight.
Proof.
  apply (settled_value_serves_the_next_wave TS 0 (VStr "loaded") 60 100 2
           None c_flight {| fl_key := "q"; fl_ttl := 100 |}).
  - reflexivity.
  - reflexivity.
  - repeat (constructor; [simpl; lia|]). constructor.
  - lia.
  - discriminate.
  - right. simpl. lia.
Defined.

(** X12.  A stored [undefined] is never a hit.  When the loader of a flight
    resolves to [undefined], the value is written, but the next [getOrSet]
    for the key, at any time, finds nothing to serve and calls its loader
    again. *)
Theorem undefined_result_is_loaded_again
  (i : impl) (p : nat) (tS now : Z) (loader : nat) (ttl0 : option Z)
  (c : cache) (fl : flight) :
  nth_error (flights c) p = Some fl -> nat_get p (settled c) = None ->
  clock_ok tS c -> promises_ok c ->
  let c1 := settle i p (Fulfilled VUndefined) tS c in
  (exists en, map_get (fl_key fl) (_map c1) = Some en /\ v en = VUndefined)
  /\ fst (getOrSet (fl_key fl) loader ttl0 now c1)
     = Awaits (List.length (flights c))
  /\ loads (snd (getOrSet (fl_key fl) loader ttl0 now c1))
     = loads c ++ [loader].
Proof.
  intros Hfl Hns Hck [Hnd _] c1.
  destruct (settle_fulfilled_store i p VUndefined tS c fl Hfl Hns Hck)
    as (Hg & Ho & Hl & Hf & Hp & _).
  fold c1 in Hg, Ho, Hl, Hf, Hp.
  split; [eexists; split; [exact Hg|reflexivity]|].
  assert (Hu : unservable (fl_key fl) now c1).
  { unfold unservable, payload. rewrite Hg. simpl. now left. }
  assert (Hpend : map_get (fl_key fl) (_pending c1) = None)
    by (rewrite Hp; now apply map_get_delete_same).
  destruct (getOrSet_miss_start (fl_key fl) loader ttl0 now c1 Hu Hpend)
    as (c2 & ttl1 & Hsame & ->).
  destruct Hsame as (_ & _ & _ & _ & Hl2 & _).
  simpl. rewrite Hf, Hl2, Hl. auto.
Qed.

Lemma undefined_result_is_loaded_again_witness :
  let c1 := settle JS 0 (Fulfilled VUndefined) 60 c_flight in
  (exists en, map_get "q" (_map c1) = Some en /\ v en = VUndefined)
  /\ fst (getOrSet "q" 2 None 61 c1) = Awaits 1
  /\ loads (snd (getOrSet "q" 2 None 61 c1)) = loads c_flight ++ [2%nat].
Proof.
  apply (undefined_result_is_loaded_again JS 0 60 61 2 None c_flight
           {| fl_key := "q"; fl_ttl := 100 |}).
  - reflexivity.
  - reflexivity.
  - repeat (constructor; [simpl; lia|]). constructor.
  - split; simpl; repeat constructor; simpl; tauto.
Defined.

(** X13.  Without a stale-if-error window ([staleIfError] <= 0) a loader
    failure reaches every waiter as it is, in both files; the callback only
    removes the in-flight marker: the store, the trace and the record of
    loader calls are what they were, so the next call for the key starts a
    new flight. *)
Theorem loader_failure_propagates_without_window
  (i : impl) (p : nat) (err : string) (now : Z) (c : cache) (fl : flight) :
  nth_error (flights c) p = Some fl -> nat_get p (settled c) = None ->
  NoDup (map_keys (_pending c)) ->
  staleIfError (opts c) <= 0 ->
  let c1 := settle i p (Rejected err) now c in
  resolution c1 (Awaits p) = Some (Rejected err)
  /\ _map c1 = _map c /\ trace c1 = trace c /\ loads c1 = loads c
  /\ map_get (fl_key fl) (_pending c1) = None.
Proof.
  intros Hfl Hns Hnd Hsie c1. subst c1.
  rewrite (settle_unfold i p _ now c fl Hfl Hns).
  rewrite on_rejected_state.
  assert (Hr : fst (on_rejected i fl err now c) = Rejected err).
  { unfold on_rejected. simpl.
    destruct (Z.ltb_spec 0 (staleIfError (opts c))); [lia|reflexivity]. }
  rewrite Hr. unfold settle_with. simpl.
  rewrite (nat_get_app_new p _ _ Hns), map_get_delete_same by assumption.
  auto.
Qed.

Lemma loader_failure_propagates_without_window_witness :
  let c1 := settle JS 0 (Rejected "boom") 60 c_flight in
  resolution c1 (Awaits 0) = Some (Rejected "boom")
  /\ _map c1 = _map c_flight /\ trace c1 = trace c_flight
  /\ loads c1 = loads c_flight
  /\ map_get "q" (_pending c1) = None.
Proof.
  apply (loader_failure_propagates_without_window JS 0 "boom" 60 c_flight
           {| fl_key := "q"; fl_ttl := 100 |}).
  - reflexivity.
  - reflexivity.
  - simpl. repeat constructor; simpl; tauto.
  - simpl. lia.
Defined.

(** ** Observers *)

Lemma splice_first_appended cb l :
  ~ In cb l -> splice_first cb (l ++ [cb]) = l.
Proof.
  induction l as [|x rest IH]; simpl; intros Hnin.
  - now rewrite Nat.eqb_refl.
  - destruct (Nat.eqb_spec x cb); [tauto|]. rewrite IH; tauto.
Qed.

(** X14.  [on] registers a callback at the end of the list of its event and
    [off] removes the first registration of a callback: registering a
    callback that was not registered and removing it again restores the
    list.  Neither touches the list of another event, the store or the
    trace, and [on] for an event the cache does not know is ignored. *)
Theorem on_then_off_restores_listeners
  (event : string) (callback : nat) (c : cache) :
  ~ In callback (listeners event c) ->
  listeners event (off event callback (on event callback c))
    = listeners event c
  /\ listeners event (on event callback c)
     = (if map_has event (_events c) then listeners event c ++ [callback]
        else [])
  /\ (forall other, other <> event ->
        listeners other (on event callback c) = listeners other c
        /\ listeners other (off event callback c) = listeners other c)
  /\ _map (off event callback (on event callback c)) = _map c
  /\ trace (off event callback (on event callback c)) = trace c.
Proof.
  intros Hnin. unfold listeners, on, off, map_has in *.
  destruct (map_get event (_events c)) as [cbs|] eqn:G.
  - cbn [with_events _events _map trace]. rewrite !map_get_set_same.
    cbn [with_events _events _map trace]. rewrite !map_get_set_same.
    rewrite splice_first_appended by assumption.
    split; [reflexivity|]. split; [reflexivity|]. split; [|auto].
    intros other Hne. rewrite !map_get_set_other by congruence. auto.
  - rewrite !G. split; [reflexivity|]. split; [reflexivity|].
    split; [|split; reflexivity]. intros other Hne. auto.
Qed.

Lemma on_then_off_restores_listeners_witness :
  listeners "evict" (off "evict" 8 (on "evict" 8 c_abc))
    = listeners "evict" c_abc
  /\ listeners "evict" (on "evict" 8 c_abc) = [5%nat; 8%nat]
  /\ (forall other, other <> "evict" ->
        listeners other (on "evict" 8 c_abc) = listeners other c_abc
        /\ listeners other (off "evict" 8 c_abc) = listeners other c_abc)
  /\ _map (off "evict" 8 (on "evict" 8 c_abc)) = _map c_abc
  /\ trace (off "evict" 8 (on "evict" 8 c_abc)) = trace c_abc.
Proof.
  apply (on_then_off_restores_listeners "evict" 8 c_abc).
  simpl. intros [H|[]]. discriminate.
Defined.

(** X15.  [dispose] stops the timer, disposes of every entry with reason
    ["clear"] and empties the store, forgets every in-flight marker and
    every observer.  Afterwards the cache knows no event: [on] is ignored
    and nothing is ever notified again. *)
Theorem dispose_releases_everything (c : cache) :
  _map (dispose c) = []
  /\ _timers (dispose c) = false
  /\ _pending (dispose c) = []
  /\ trace (dispose c)
     = trace c ++ (if disposeValue (opts c)
                   then map (fun ke => Disposed (v (snd ke)) (fst ke) "clear")
                          (_map c)
                   else [])
  /\ (forall event, listeners event (dispose c) = [])
  /\ (forall event callback, on event callback (dispose c) = dispose c)
  /\ (forall event key val reason,
        trace (_emit event key val reason (dispose c)) = trace (dispose c)).
Proof.
  split; [reflexivity|]. split; [apply dispose_timers|].
  split; [reflexivity|]. split; [|split; [|split]].
  - unfold dispose, clear. cbn [with_pending with_events with_map trace].
    rewrite dispose_all_trace. reflexivity.
  - reflexivity.
  - reflexivity.
  - intros event key val reason. unfold _emit, listeners. simpl.
    now rewrite app_nil_r.
Qed.

(** ** Eviction, as seen by user code *)

(** X16.  When a write of a new key finds a bounded cache full, it removes
    one victim from the store it has just extended and tells user code in
    this order: the disposal hook (when configured) with the victim's value,
    its key and reason ["lru"], then every observer of [evict] with the key,
    the value and reason ["lru"]. *)
Theorem eviction_calls_hook_then_observers
  (key : string) (val : value) (ttl0 : option Z) (now : Z) (c : cache) :
  0 < maxSize (opts c) -> maxSize (opts c) <= size c ->
  map_get key (_map c) = None ->
  let written := map_set key (fresh_entry (opts c) val ttl0 now) (_map c) in
  let c' := set key val ttl0 now c in
  exists victim en,
    scan written None None = Some victim
    /\ map_get victim written = Some en
    /\ _map c' = map_delete victim written
    /\ trace c'
       = trace c
         ++ (if disposeValue (opts c)
             then [Disposed (v en) victim "lru"] else [])
         ++ map (fun cb => Notified cb "evict" victim (v en) "lru")
              (listeners "evict" c).
Proof.
  intros Hmax Hfull G written c'. subst written c'.
  rewrite (set_absent _ _ _ _ _ G). cbv zeta.
  destruct (Z.ltb_spec 0 (maxSize (opts c))); [|lia].
  destruct (Z.ltb_spec (maxSize (opts c)) (size c + 1)); [|lia].
  simpl.
  set (c1 := with_map (map_set key (fresh_entry (opts c) val ttl0 now)) c).
  destruct (scan_min_present (_map c1)) as (k & en & Hs & Gk);
    [apply map_set_nonempty|].
  exists k, en. split; [exact Hs|]. split; [exact Gk|].
  rewrite (evictLRU_unfold c1 k en Hs Gk).
  unfold _emit, listeners, _disposeEntry. simpl.
  destruct (disposeValue (opts c)); simpl; rewrite <- ?app_assoc; auto.
Qed.

Lemma eviction_calls_hook_then_observers_witness :
  let c := set "b" (VNum 2) None 1 (set "a" (VNum 1) None 0
             (on "evict" 5%nat
                (create {| defaultTTL := 0; maxSize := 2; checkPeriod := 0;
                           allowStale := false; staleWhileRevalidate := 0;
                           staleIfError := 0; useClone := false;
                           disposeValue := true |}))) in
  let written := map_set "n" (fresh_entry (opts c) (VNum 3) None 2) (_map c) in
  let c' := set "n" (VNum 3) None 2 c in
  exists victim en,
    scan written None None = Some victim
    /\ map_get victim written = Some en
    /\ _map c' = map_delete victim written
    /\ trace c'
       = trace c
         ++ [Disposed (v en) victim "lru"]
         ++ map (fun cb => Notified cb "evict" victim (v en) "lru")
              (listeners "evict" c).
Proof.
  apply (eviction_calls_hook_then_observers "n" (VNum 3) None 2
           (set "b" (VNum 2) None 1 (set "a" (VNum 1) None 0
             (on "evict" 5%nat
                (create {| defaultTTL := 0; maxSize := 2; checkPeriod := 0;
                           allowStale := false; staleWhileRevalidate := 0;
                           staleIfError := 0; useClone := false;
                           disposeValue := true |}))))).
  - reflexivity.
  - discriminate.
  - reflexivity.
Defined.

(** ** Batch operations *)

Lemma get_fst_same key touch now c c1 :
  same_but_touches c c1 ->
  fst (get key touch now c1) = fst (get key touch now c).
Proof.
  intros (Ho & _ & _ & _ & _ & Hy). specialize (Hy key).
  destruct (payload key c) as [[val exp]|] eqn:Hp.
  - rewrite (get_by_payload key touch now c val exp Hp).
    rewrite (get_by_payload key touch now c1 val exp Hy). now rewrite Ho.
  - unfold payload in *.
    destruct (map_get key (_map c)) eqn:G; [discriminate|].
    destruct (map_get key (_map c1)) eqn:G1; [discriminate|].
    now rewrite !get_absent.
Qed.

Lemma mget_spec keys0 now :
  forall c,
    fst (mget keys0 now c) = map (fun k => fst (get k true now c)) keys0
    /\ same_but_touches c (snd (mget keys0 now c)).
Proof.
  induction keys0 as [|k rest IH]; intros c; simpl.
  - split; [reflexivity|apply same_but_touches_refl].
  - pose proof (get_same_but_touches k true now c) as Hsame.
    destruct (get k true now c) as [x c1] eqn:Hg. simpl in Hsame.
    destruct (IH c1) as [Hv Hs].
    destruct (mget rest now c1) as [xs c2]. simpl in *.
    split.
    + f_equal. rewrite Hv. apply map_ext. intros k'.
      now apply get_fst_same.
    + now apply (same_but_touches_trans c c1).
Qed.

(** X17.  [mget] answers, for each key in order, what a single [get] of
    that key would answer on the cache as it was before the call: the
    touches of the earlier reads change no answer.  It changes the store only
    by touches and calls no user code. *)
Theorem mget_agrees_with_get (keys0 : list string) (now : Z) (c : cache) :
  fst (mget keys0 now c) = map (fun k => fst (get k true now c)) keys0
  /\ List.length (fst (mget keys0 now c)) = List.length keys0
  /\ keys (snd (mget keys0 now c)) = keys c
  /\ (forall k, payload k (snd (mget keys0 now c)) = payload k c).
Proof.
  destruct (mget_spec keys0 now c) as [Hv Hs].
  split; [assumption|]. split; [now rewrite Hv, length_map|]. split.
  - clear Hv Hs. revert c. induction keys0 as [|k rest IH]; intros c; simpl;
      [reflexivity|].
    destruct (get_frame k true now c) as (_ & _ & Hk & _).
    destruct (get k true now c) as [x c1]. simpl in Hk.
    specialize (IH c1). destruct (mget rest now c1) as [xs c2]. simpl in *.
    unfold keys, map_keys in *. congruence.
  - apply Hs.
Qed.

Lemma set_unbounded key val ttl0 now c :
  maxSize (opts c) <= 0 ->
  set key val ttl0 now c
  = with_map (map_set key (fresh_entry (opts c) val ttl0 now)) c.
Proof.
  intros Hmax. destruct (map_get key (_map c)) as [en|] eqn:G.
  - now rewrite (set_present _ _ _ _ _ _ G).
  - rewrite (set_absent _ _ _ _ _ G). cbv zeta.
    destruct (Z.ltb_spec 0 (maxSize (opts c))); [lia|reflexivity].
Qed.

Lemma mset_unbounded_other ttl0 now k es :
  forall c, maxSize (opts c) <= 0 -> ~ In k (map fst es) ->
            opts (mset es ttl0 now c) = opts c
            /\ map_get k (_map (mset es ttl0 now c)) = map_get k (_map c).
Proof.
  induction es as [|[k0 v0] rest IH]; intros c Hmax Hnin; [auto|].
  simpl in Hnin. unfold mset in *. simpl.
  rewrite (set_unbounded k0 v0 ttl0 now c Hmax).
  destruct (IH (with_map (map_set k0 (fresh_entry (opts c) v0 ttl0 now)) c))
    as [Ho Hg]; [assumption|tauto|].
  rewrite Ho, Hg. split; [reflexivity|].
  simpl. apply map_get_set_other. tauto.
Qed.

Lemma mset_unbounded_written ttl0 now k val es :
  forall c, maxSize (opts c) <= 0 -> NoDup (map fst es) -> In (k, val) es ->
            map_get k (_map (mset es ttl0 now c))
            = Some (fresh_entry (opts c) val ttl0 now).
Proof.
  induction es as [|[k0 v0] rest IH]; intros c Hmax Hnd Hin; [contradiction|].
  inversion Hnd as [|? ? Hk Hrest]; subst. simpl in Hk.
  unfold mset in *. simpl. rewrite (set_unbounded k0 v0 ttl0 now c Hmax).
  set (c1 := with_map (map_set k0 (fresh_entry (opts c) v0 ttl0 now)) c).
  destruct Hin as [Heq|Hin].
  - inversion Heq; subst k0 v0.
    destruct (mset_unbounded_other ttl0 now k rest c1) as [_ Hg];
      [assumption|assumption|].
    unfold mset in Hg. rewrite Hg. simpl. apply map_get_set_same.
  - exact (IH c1 Hmax Hrest Hin).
Qed.

(** X18.  In an unbounded cache, [mset] of entries with distinct keys
    followed by [mget] of those keys at the same time gives back the values,
    in order; each key maps to a fresh entry with the batch's ttl, and keys
    outside the batch are left alone. *)
Theorem mset_then_mget_round_trip
  (es : list (string * value)) (ttl0 : option Z) (now : Z) (c : cache) :
  maxSize (opts c) <= 0 -> NoDup (map fst es) ->
  let c' := mset es ttl0 now c in
  fst (mget (map fst es) now c') = map snd es
  /\ (forall k val, In (k, val) es ->
        map_get k (_map c') = Some (fresh_entry (opts c) val ttl0 now))
  /\ (forall k, ~ In k (map fst es) ->
        map_get k (_map c') = map_get k (_map c)).
Proof.
  intros Hmax Hnd c'. subst c'.
  assert (Hw : forall k val, In (k, val) es ->
                 map_get k (_map (mset es ttl0 now c))
                 = Some (fresh_entry (opts c) val ttl0 now))
    by (intros k val Hin; now apply mset_unbounded_written).
  split; [|split; [assumption|]].
  - destruct (mget_spec (map fst es) now (mset es ttl0 now c)) as [-> _].
    rewrite map_map. apply map_ext_in. intros [k val] Hin. simpl.
    rewrite (get_classify k true now _ _ (Hw k val Hin)).
    assert (Hc : classify (opts (mset es ttl0 now c)) now
                   (fresh_entry (opts c) val ttl0 now) = Alive).
    { unfold classify, fresh_entry. simpl.
      destruct (Z.ltb_spec 0 (effective_ttl (opts c) ttl0)); simpl;
        [|reflexivity].
      destruct (Z.leb_spec now (now + effective_ttl (opts c) ttl0)); [|lia].
      now rewrite orb_true_r. }
    now rewrite Hc.
  - intros k Hnin. now apply mset_unbounded_other.
Qed.

Lemma mset_then_mget_round_trip_witness :
  let es := [("x", VNum 1); ("a", VStr "new"); ("y", VUndefined)] in
  let c' := mset es (Some 5) 50 c_abc in
  fst (mget (map fst es) 50 c') = map snd es
  /\ (forall k val, In (k, val) es ->
        map_get k (_map c') = Some (fresh_entry (opts c_abc) val (Some 5) 50))
  /\ (forall k, ~ In k (map fst es) ->
        map_get k (_map c') = map_get k (_map c_abc)).
Proof.
  apply (mset_then_mget_round_trip
           [("x", VNum 1); ("a", VStr "new"); ("y", VUndefined)] (Some 5) 50
           c_abc).
  - simpl. lia.
  - simpl. repeat constructor; simpl; intuition discriminate.
Defined.

Lemma del_map key c : _map (del key c) = map_delete key (_map c).
Proof.
  unfold del. destruct (map_get key (_map c)) as [en|] eqn:G.
  - simpl. now destruct (disposeEntry_frame key en "delete" c) as (_ & -> & _).
  - induction (_map c) as [|[k y] rest IH]; simpl in *; [reflexivity|].
    destruct (String.eqb key k); [discriminate|]. now rewrite <- IH.
Qed.

(** X19.  [mdel] removes every listed key and no other: afterwards each
    listed key is absent, every other key maps to what it mapped to, and the
    store is still well formed.  Keys that are absent, or listed twice, are
    skipped without error. *)
Theorem mdel_removes_the_listed_keys (keys0 : list string) (c : cache) :
  store_ok c ->
  store_ok (mdel keys0 c)
  /\ (forall k, In k keys0 -> map_get k (_map (mdel keys0 c)) = None)
  /\ (forall k, ~ In k keys0 ->
        map_get k (_map (mdel keys0 c)) = map_get k (_map c))
  /\ size (mdel keys0 c) <= size c.
Proof.
  revert c. induction keys0 as [|k0 rest IH]; intros c Hok.
  - simpl. repeat split; try assumption; try tauto. lia.
  - assert (Hok1 : store_ok (del k0 c))
      by (unfold store_ok; rewrite del_map; now apply map_delete_nodup).
    destruct (IH (del k0 c) Hok1) as (Hs & Hin & Hout & Hsz).
    unfold mdel in *. simpl. split; [assumption|]. split; [|split].
    + intros k [->|Hk]; [|now apply Hin].
      destruct (in_dec string_dec k rest) as [Hr|Hr]; [now apply Hin|].
      rewrite (Hout k Hr), del_map. now apply map_get_delete_same.
    + intros k Hk. simpl in Hk. rewrite Hout by tauto.
      rewrite del_map. apply map_get_delete_other. tauto.
    + unfold size in *. rewrite del_map in Hsz.
      pose proof (map_delete_length_le k0 (_map c)). lia.
Qed.

Lemma mdel_removes_the_listed_keys_witness :
  store_ok (mdel ["a"; "zz"; "a"; "c"] c_abc)
  /\ (forall k, In k ["a"; "zz"; "a"; "c"] ->
        map_get k (_map (mdel ["a"; "zz"; "a"; "c"] c_abc)) = None)
  /\ (forall k, ~ In k ["a"; "zz"; "a"; "c"] ->
        map_get k (_map (mdel ["a"; "zz"; "a"; "c"] c_abc))
        = map_get k (_map c_abc))
  /\ size (mdel ["a"; "zz"; "a"; "c"] c_abc) <= size c_abc.
Proof.
  apply (mdel_removes_the_listed_keys ["a"; "zz"; "a"; "c"] c_abc).
  unfold store_ok. simpl. repeat constructor; simpl; intuition discriminate.
Defined.

(** ** Iteration *)

(** X20.  Iteration order is insertion order, and neither reads nor
    rewrites change it: [get] keeps the keys as they are, [set] of a key that
    is present keeps its position, and [set] of a new key that triggers no
    eviction puts it last.  [keys], [values] and [entries] list every stored
    entry, dead ones included, consistently. *)
Theorem iteration_order_is_insertion_order
  (key : string) (val : value) (ttl0 : option Z) (touch : bool) (now : Z)
  (c : cache) :
  keys (snd (get key touch now c)) = keys c
  /\ (if map_has key (_map c)
      then keys (set key val ttl0 now c) = keys c
      else if (0 <? maxSize (opts c)) && (maxSize (opts c) <? size c + 1)
           then True
           else keys (set key val ttl0 now c) = keys c ++ [key])
  /\ entries c = combine (keys c) (values c)
  /\ Z.of_nat (List.length (keys c)) = size c
  /\ (forall k, In k (keys c) <-> map_has k (_map c) = true).
Proof.
  split; [|split; [|split; [|split]]].
  - destruct (get_frame key touch now c) as (_ & _ & Hk & _). exact Hk.
  - unfold map_has. destruct (map_get key (_map c)) as [en|] eqn:G.
    + now destruct (set_existing_key_entry key val ttl0 now c en G)
        as (_ & Hk & _).
    + rewrite (set_absent _ _ _ _ _ G). cbv zeta.
      destruct ((0 <? maxSize (opts c)) && (maxSize (opts c) <? size c + 1));
        [exact I|].
      unfold keys. simpl. rewrite (map_set_absent key _ (_map c) G).
      now rewrite map_app.
  - unfold entries, keys, values.
    induction (_map c) as [|[k en] rest IH]; simpl; [reflexivity|].
    now rewrite IH.
  - unfold keys, size. now rewrite length_map.
  - intros k. unfold keys, map_has. split.
    + intros Hin. destruct (in_keys_map_get k (_map c) Hin) as [x ->].
      reflexivity.
    + destruct (map_get k (_map c)) as [x|] eqn:G; [|discriminate].
      intros _. exact (map_get_some_in_keys k x (_map c) G).
Qed.

(** ** Updating the ttl *)

(** X21.  [ttl(key, n)] with n > 0, at a time that is not negative, puts the
    expiry of a present key at [now + n] and leaves its value, [lastTouch]
    and [accessCount] alone; a later [ttl(key)] answers what is left of n
    (0 once it has elapsed), and the entry is served again at once even if it
    was dead.  For an absent key the call changes nothing and answers
    [null]. *)
Theorem ttl_update_then_query (key : string) (n now later : Z) (c : cache) :
  0 < n -> 0 <= now <= later ->
  match map_get key (_map c) with
  | None => ttl key (Some n) now c = (TtlNull, c)
  | Some en =>
      let c1 := snd (ttl key (Some n) now c) in
      fst (ttl key (Some n) now c) = TtlThis
      /\ map_get key (_map c1)
         = Some {| v := v en; e := now + n; t := t en; a := a en |}
      /\ fst (ttl key None later c1)
         = TtlRemaining (Z.max (n - (later - now)) 0)
      /\ fst (get key false now c1) = v en
      /\ keys c1 = keys c /\ trace c1 = trace c
  end.
Proof.
  intros Hn Hnow.
  destruct (map_get key (_map c)) as [en|] eqn:G;
    [|unfold ttl; now rewrite G].
  set (en1 := {| v := v en; e := now + n; t := t en; a := a en |}).
  assert (Hupd : ttl key (Some n) now c
                 = (TtlThis, with_map (map_set key en1) c)).
  { unfold ttl. rewrite G. destruct (Z.ltb_spec 0 n); [reflexivity|lia]. }
  rewrite Hupd. cbn [fst snd].
  set (c1 := with_map (map_set key en1) c).
  assert (G1 : map_get key (_map c1) = Some en1)
    by (simpl; apply map_get_set_same).
  split; [reflexivity|]. split; [exact G1|]. split; [|split; [|split]].
  - unfold ttl. rewrite G1. simpl.
    destruct (Z.eqb_spec (now + n) 0); [lia|].
    destruct (Z.ltb_spec 0 (now + n - later)); simpl; f_equal; lia.
  - rewrite (get_classify key false now c1 en1 G1).
    unfold classify. simpl.
    destruct (Z.leb_spec now (now + n)); [|lia].
    now rewrite orb_true_r.
  - unfold keys. simpl.
    destruct (map_set_present key en1 en (_map c) G) as [Hk _]. exact Hk.
  - reflexivity.
Qed.

Lemma ttl_update_then_query_witness :
  let c1 := snd (ttl "b" (Some 100) 50 c_abc) in
  fst (ttl "b" (Some 100) 50 c_abc) = TtlThis
  /\ map_get "b" (_map c1)
     = Some {| v := VStr "two"; e := 150; t := 10; a := 0 |}
  /\ fst (ttl "b" None 80 c1) = TtlRemaining (Z.max (100 - (80 - 50)) 0)
  /\ fst (get "b" false 50 c1) = VStr "two"
  /\ keys c1 = keys c_abc /\ trace c1 = trace c_abc.
Proof.
  apply (ttl_update_then_query "b" 100 50 80 c_abc); lia.
Defined.

(** ** Recency and eviction *)

(** Below 2^63 a double is within 512 of the integer it rounds, so a score
    is within 1024 of the exact [t * 1,000,000 - a]. *)
Lemma score_near en :
  -1 <= t en < 9000000000000 -> 0 <= a en < 1000000 ->
  Z.abs (score en - (t en * 1000000 - a en)) <= 1024.
Proof.
  intros Ht Ha. unfold score.
  assert (H63 : 2 ^ 63 = 9223372036854775808) by reflexivity.
  pose proof (binary64_near (t en * 1000000) ltac:(lia)) as H1.
  pose proof (binary64_near (binary64 (t en * 1000000) - a en) ltac:(lia))
    as H2.
  lia.
Qed.

(** X22.  An entry that has just been read is not the next victim: at any
    time before the year 2255 ([now < 9e12] ms), if every other entry was
    last touched before the read and the entry has been read fewer than
    997,000 times, an eviction that follows the read removes another key.
    (The bounds are real: the score subtracts the access count from
    [lastTouch * 1,000,000] and is rounded to a double twice; they leave
    room for both roundings.) *)
Theorem entry_just_read_is_not_evicted
  (key : string) (now : Z) (c : cache) (en : entry) :
  store_ok c ->
  map_get key (_map c) = Some en ->
  classify (opts c) now en <> Dead ->
  0 <= now < 9000000000000 ->
  0 <= a en -> a en + 1 < 997000 ->
  (forall k' en', k' <> key -> map_get k' (_map c) = Some en' ->
                  t en' < now /\ 0 <= a en') ->
  (exists k', k' <> key /\ map_has k' (_map c) = true) ->
  let c1 := snd (get key true now c) in
  map_get key (_map (_evictLRU c1))
  = Some {| v := v en; e := e en; t := now; a := a en + 1 |}
  /\ size (_evictLRU c1) = size c - 1.
Proof.
  intros Hok G Hc Hnow Ha0 Ha Hothers (k' & Hk' & Hhas) c1.
  set (en1 := {| v := v en; e := e en; t := now; a := a en + 1 |}).
  assert (Hc1 : c1 = with_map (map_set key en1) c).
  { unfold c1. pose proof (get_by_classification key now c) as H.
    rewrite G in H.
    destruct (classify (opts c) now en); try congruence;
      destruct H as [-> _]; reflexivity. }
  assert (Hok1 : store_ok c1)
    by (rewrite Hc1; unfold store_ok; simpl; now apply map_set_nodup).
  assert (G1 : map_get key (_map c1) = Some en1)
    by (rewrite Hc1; simpl; apply map_get_set_same).
  assert (Hne : _map c1 <> [])
    by (rewrite Hc1; simpl; apply map_set_nonempty).
  destruct (scan_min (_map c1) Hne) as (k & enk & Hs & Hin & Hall).
  assert (Gk : map_get k (_map c1) = Some enk) by now apply in_nodup_map_get.
  destruct (evictLRU_map c1 k enk Hs Gk) as [Hm _].
  assert (Hkk : k <> key).
  { intros ->. rewrite G1 in Gk. inversion Gk; subst enk.
    unfold map_has in Hhas.
    destruct (map_get k' (_map c)) as [en'|] eqn:G'; [|discriminate].
    destruct (Hothers k' en' Hk' G') as [Ht' Ha'].
    assert (G1' : map_get k' (_map c1) = Some en')
      by (rewrite Hc1; simpl; rewrite map_get_set_other; congruence).
    apply map_get_in in G1'. rewrite Forall_forall in Hall.
    specialize (Hall _ G1'). simpl in Hall.
    pose proof (score_monotone en'
                  {| v := v en'; e := e en'; t := now - 1; a := 0 |}
                  ltac:(simpl; lia) ltac:(simpl; lia)) as Hup.
    pose proof (score_near {| v := v en'; e := e en'; t := now - 1; a := 0 |}
                  ltac:(simpl; lia) ltac:(simpl; lia)) as Hn1.
    pose proof (score_near en1 ltac:(simpl; lia) ltac:(simpl; lia)) as Hn2.
    simpl in Hn1, Hn2. lia. }
  split.
  - rewrite Hm, map_get_delete_other by assumption. exact G1.
  - unfold size. rewrite Hm.
    pose proof (map_delete_length_present k enk (_map c1) Gk) as Hlen.
    rewrite Hc1 in Hlen. simpl in Hlen.
    destruct (map_set_present key en1 en (_map c) G) as [_ Hl].
    rewrite Hc1. simpl. lia.
Qed.

Lemma entry_just_read_is_not_evicted_witness :
  let c1 := snd (get "a" true 50 c_abc) in
  map_get "a" (_map (_evictLRU c1))
  = Some {| v := VNum 1; e := 0; t := 50; a := 1 |}
  /\ size (_evictLRU c1) = size c_abc - 1.
Proof.
  apply (entry_just_read_is_not_evicted "a" 50 c_abc
           {| v := VNum 1; e := 0; t := 10; a := 0 |}).
  - unfold store_ok. simpl. repeat constructor; simpl; intuition discriminate.
  - reflexivity.
  - discriminate.
  - lia.
  - simpl. lia.
  - simpl. lia.
  - intros k' en' Hne. simpl.
    destruct (String.eqb_spec k' "a"); [congruence|].
    destruct (String.eqb_spec k' "b");
      [intros [= <-]; simpl; lia|].
    destruct (String.eqb_spec k' "c");
      [intros [= <-]; simpl; lia|discriminate].
  - exists "b". split; [discriminate|reflexivity].
Defined.

(** The bound on the access count is needed.  Read a million times, an
    entry scores below one touched a millisecond earlier and never read; and
    at a real [Date.now()] rounding makes the two scores equal for counts
    from 999,808 on, so the entry just read goes if it comes first. *)
Example hot_entry_scores_below_older_one :
  score {| v := VNum 1; e := 0; t := 11; a := 1000001 |}
  < score {| v := VNum 2; e := 0; t := 10; a := 0 |}
  /\ score {| v := VNum 1; e := 0; t := 1700000000001; a := 999808 |}
     = score {| v := VNum 2; e := 0; t := 1700000000000; a := 0 |}.
Proof. vm_compute. split; reflexivity. Qed.

(** ** The sweep against the grace windows *)

(** X23.  The sweep does not honour the grace windows of reads.  An entry
    that [get] still serves as stale (because [allowStale] is set or the
    stale-while-revalidate window is open) is removed by a sweep at that very
    time, after which [get] answers [undefined] and [has] answers [false]. *)
Theorem sweep_ends_stale_serving
  (i : impl) (key : string) (touch : bool) (now : Z) (c : cache) (en : entry) :
  store_ok c ->
  map_get key (_map c) = Some en ->
  classify (opts c) now en = StaleServable ->
  let c' := snd (_cleanup None now c) in
  fst (get key touch now c) = v en
  /\ map_get key (_map c') = None
  /\ fst (get key touch now c') = VUndefined
  /\ has i key now c' = false.
Proof.
  intros Hok G Hc c'.
  assert (Hex : expired now en = true).
  { destruct (expired now en) eqn:Ex; [reflexivity|].
    apply (expired_classify (opts c)) in Ex. congruence. }
  assert (Hgone : map_get key (_map c') = None).
  { unfold c', _cleanup.
    destruct (sweep_spec now None (_map c) 0 c) as (_ & -> & _).
    rewrite reaped_unlimited.
    rewrite (delete_all_filter (fun ke => expired now (snd ke)) (_map c) Hok).
    destruct (map_get key (filter _ (_map c))) as [en'|] eqn:G';
      [|reflexivity].
    apply map_get_in in G'. apply filter_In in G'. destruct G' as [Hin Hf].
    rewrite (in_nodup_map_get key en' (_map c) Hok Hin) in G.
    inversion G; subst en'. simpl in Hf. rewrite Hex in Hf. discriminate. }
  split; [|split; [assumption|split]].
  - rewrite (get_classify key touch now c en G). now rewrite Hc.
  - now rewrite get_absent.
  - unfold has. now rewrite Hgone.
Qed.

Lemma sweep_ends_stale_serving_witness :
  let c' := snd (_cleanup None 100 c_swr) in
  fst (get "stale-key" true 100 c_swr) = VStr "stale-value"
  /\ map_get "stale-key" (_map c') = None
  /\ fst (get "stale-key" true 100 c') = VUndefined
  /\ has TS "stale-key" 100 c' = false.
Proof.
  apply (sweep_ends_stale_serving TS "stale-key" true 100 c_swr
           {| v := VStr "stale-value"; e := 50; t := 0; a := 0 |}).
  - unfold store_ok. simpl. repeat constructor; simpl; intuition discriminate.
  - reflexivity.
  - reflexivity.
Defined.

(** ** Counters and the capacity under batches *)

(** X24.  In a cache made by the constructor and run through any history
    of operations whose timestamps are not negative and do not go backwards,
    no entry has a [lastTouch] later than the last timestamp, and no
    [accessCount] is negative. *)
Theorem lastTouch_and_accessCount_stay_sane
  (i : impl) (o : options) (history : list (op * Z)) (last : Z)
  (key : string) (en : entry) :
  StronglySorted (fun x y => snd x <= snd y) history ->
  (forall oz, In oz history -> 0 <= snd oz <= last) -> 0 <= last ->
  map_get key (_map (run i history (create o))) = Some en ->
  t en <= last /\ 0 <= a en.
Proof.
  intros Hsorted Hrange Hlast G.
  destruct (create_ok o 0) as (Hs & Hp & Hc).
  destruct (reachable_ok i history (create o) 0 Hs Hp Hc) as (_ & _ & Hck).
  - intros oz Hin. now apply Hrange.
  - assumption.
  - assert (Hcl : clock_ok last (run i history (create o))).
    { apply Hck; [|assumption]. intros oz Hin. now apply Hrange. }
    unfold clock_ok in Hcl. rewrite Forall_forall in Hcl.
    exact (Hcl _ (map_get_in key en _ G)).
Qed.

Lemma lastTouch_and_accessCount_stay_sane_witness :
  t {| v := VNum 1; e := 0; t := 7; a := 2 |} <= 9
  /\ 0 <= a {| v := VNum 1; e := 0; t := 7; a := 2 |}.
Proof.
  apply (lastTouch_and_accessCount_stay_sane TS DEFAULTS
           [(OpSet "k" (VNum 1) None, 5); (OpGet "k" true, 6);
            (OpGet "k" true, 7); (OpTick, 9)] 9 "k").
  - repeat constructor; simpl; lia.
  - intros oz Hin. simpl in Hin.
    repeat (destruct Hin as [<-|Hin]; [simpl; lia|]). contradiction.
  - lia.
  - reflexivity.
Defined.

(** X25.  The batch operations keep the capacity bound: with [maxSize]
    m > 0 and at most m entries before, there are at most m entries after
    [mset], whatever the number of entries written; [mget] leaves the size as
    it is and [mdel] does not grow it. *)
Theorem batches_keep_the_capacity_bound
  (es : list (string * value)) (ttl0 : option Z) (keys0 : list string)
  (now : Z) (c : cache) :
  0 < maxSize (opts c) -> size c <= maxSize (opts c) ->
  size (mset es ttl0 now c) <= maxSize (opts c)
  /\ opts (mset es ttl0 now c) = opts c
  /\ size (snd (mget keys0 now c)) = size c
  /\ size (mdel keys0 c) <= size c.
Proof.
  intros Hmax Hsz. split; [|split; [|split]].
  - revert c Hmax Hsz. induction es as [|[k val] rest IH]; intros c Hmax Hsz;
      [assumption|].
    unfold mset in *. simpl.
    pose proof (set_opts k val ttl0 now c) as Ho.
    pose proof (set_size_bounded k val ttl0 now c Hmax Hsz) as Hb.
    rewrite <- Ho in *. now apply IH.
  - clear Hmax Hsz. revert c. induction es as [|[k val] rest IH]; intros c;
      [reflexivity|].
    unfold mset in *. simpl. rewrite IH. apply set_opts.
  - clear Hmax Hsz. revert c. induction keys0 as [|k rest IH]; intros c;
      simpl; [reflexivity|].
    destruct (get_frame k true now c) as (_ & Hs & _).
    destruct (get k true now c) as [x c1]. simpl in Hs.
    specialize (IH c1). destruct (mget rest now c1) as [xs c2]. simpl in *.
    congruence.
  - clear Hmax Hsz. revert c. induction keys0 as [|k rest IH]; intros c;
      [simpl; lia|].
    unfold mdel in *. simpl. specialize (IH (del k c)).
    unfold size in *. rewrite del_map in IH.
    pose proof (map_delete_length_le k (_map c)). lia.
Qed.

Lemma batches_keep_the_capacity_bound_witness :
  size (mset [("x", VNum 1); ("y", VNum 2); ("z", VNum 3)] None 2000 c_lru)
    <= maxSize (opts c_lru)
  /\ opts (mset [("x", VNum 1); ("y", VNum 2); ("z", VNum 3)] None 2000 c_lru)
     = opts c_lru
  /\ size (snd (mget ["a"; "d"] 2000 c_lru)) = size c_lru
  /\ size (mdel ["a"; "d"] c_lru) <= size c_lru.
Proof.
  apply (batches_keep_the_capacity_bound
           [("x", VNum 1); ("y", VNum 2); ("z", VNum 3)] None ["a"; "d"] 2000
           c_lru).
  - vm_compute. reflexivity.
  - vm_compute. discriminate.
Defined.

End NanoCache.
